(** * A sitemap crawler: the worker pool of [buildSitemap] and its URL policy

    The development follows the Go sources of the crawler.  Two revisions of
    [main.go] are embedded:

    - the worker-pool revision (buffered [jobs] channel, [tasks] wait group,
      [visited] sync.Map, [ignoredExtensions]), in module [Pool];
    - the sequential revision (a map used as a work queue), in module [Seq].

    Strings are byte strings.  The Go packages the crawler calls are outside
    the repository: [strings] and [path] are written out on bytes, and
    [net/url], with the Unicode case folding that [strings.EqualFold] falls
    back on, is an interface ([NetURL]) with one instance ([GoURL]) that is
    used to run the crawler on concrete sites.

    Of the rest of the program, package [link] is in module [LinkPkg], over
    the node tree of [Html] and the white space of [GoText];
    [getAndParseLinks] is in module [Fetch] and [generateXMLSitemap] in
    modules [Sitemap] and [SeqSitemap].  The HTTP client, [html.Parse],
    [url.ParseRequestURI] and [xml.MarshalIndent] are parameters. *)

From Stdlib Require Import ZArith String Ascii List Bool Lia.
From stdpp Require Import base decidable option list gmap sets strings.

Local Open Scope string_scope.
Local Open Scope Z_scope.

(** ** Package [strings] and [path] *)

Module GoStrings.

(** [strings.HasPrefix(s, prefix)]. *)
Fixpoint HasPrefix (s prefix : string) : bool :=
  match prefix, s with
  | EmptyString, _ => true
  | String _ _, EmptyString => false
  | String a p, String b s' => if Ascii.eqb a b then HasPrefix s' p else false
  end.

(** [strings.Contains(s, substr)]. *)
Fixpoint Contains (s substr : string) : bool :=
  HasPrefix s substr ||
  match s with
  | EmptyString => false
  | String _ s' => Contains s' substr
  end.

Definition is_upper (c : ascii) : bool :=
  (65 <=? nat_of_ascii c)%nat && (nat_of_ascii c <=? 90)%nat.

Definition lower_byte (c : ascii) : ascii :=
  if is_upper c then ascii_of_nat (nat_of_ascii c + 32) else c.

(** [strings.ToLower] as it is on an ASCII string: the upper-case letters
    are lowered, every other byte is kept.  In a string with a byte outside
    ASCII Go lowers the letters of Unicode as well (U+0130 to [i], U+212A to
    [k]) and writes U+FFFD for a byte that is no UTF-8; here such bytes are
    kept as they are. *)
Fixpoint ToLower (s : string) : string :=
  match s with
  | EmptyString => EmptyString
  | String c s' => String (lower_byte c) (ToLower s')
  end.

(** A byte below [utf8.RuneSelf]. *)
Definition is_ascii (c : ascii) : bool := (nat_of_ascii c <? 128)%nat.

(** [strings.EqualFold].  Its first loop runs for as long as both strings
    are ASCII: two bytes match when they are equal, or when the smaller is
    an upper-case letter and the larger is its lower-case form; when one
    string ends, the answer is whether the other ends too.  At the first
    byte of either string that is outside ASCII, Go goes on from there with
    the simple case folding of package [unicode], whose tables are not
    written out here: that part is [hasUnicode], which gets what is left of
    both strings. *)
Fixpoint EqualFold (hasUnicode : string -> string -> bool) (s t : string)
  : bool :=
  match s, t with
  | EmptyString, EmptyString => true
  | String sr s', String tr t' =>
      if negb (is_ascii sr && is_ascii tr) then hasUnicode s t
      else if Ascii.eqb tr sr then EqualFold hasUnicode s' t'
      else
        let lo := Nat.min (nat_of_ascii sr) (nat_of_ascii tr) in
        let hi := Nat.max (nat_of_ascii sr) (nat_of_ascii tr) in
        if (65 <=? lo)%nat && (lo <=? 90)%nat && (hi =? lo + 32)%nat
        then EqualFold hasUnicode s' t'
        else false
  | _, _ => false
  end.


(** [path.Ext]: the suffix that starts at the last dot of the last
    slash-separated element; empty when that element has no dot.  The Go
    loop scans from the end; here the scan runs from the front and keeps
    the last dot seen since the last slash. *)
Fixpoint ext_from (s : string) (found : option string) : string :=
  match s with
  | EmptyString => default EmptyString found
  | String c s' =>
      if Ascii.eqb c "/" then ext_from s' None
      else if Ascii.eqb c "." then ext_from s' (Some s)
      else ext_from s' found
  end.

Definition Ext (path : string) : string := ext_from path None.

End GoStrings.

Import GoStrings.

(** ** Package [net/url] *)

Record Userinfo := mkUserinfo {
  username : string;
  password : string;
  passwordSet : bool
}.

Record URL := mkURL {
  Scheme : string;
  Opaque : string;
  User : option Userinfo;
  Host : string;
  Path : string;
  RawPath : string;
  OmitHost : bool;
  ForceQuery : bool;
  RawQuery : string;
  Fragment : string;
  RawFragment : string
}.

(** The three entry points of [net/url] the crawler uses, and the part of
    [strings.EqualFold] that needs the tables of package [unicode], on which
    the comparison of two hosts falls back.  [url_Parse] returns [None]
    where Go returns an error. *)
Class NetURL := {
  url_Parse : string -> option URL;
  url_String : URL -> string;
  url_ResolveReference : URL -> URL -> URL;
  unicode_EqualFold : string -> string -> bool
}.

(** *** A [net/url] instance

    [GoURL] follows [url.Parse], [URL.String] and [URL.ResolveReference] on
    the URLs that need no percent-escaping: host bytes that [net/url] leaves
    alone, path and fragment bytes that it never escapes, no userinfo, no IP
    literal.  On a string outside this fragment [Parse] answers [None], as
    it does where Go reports an error. *)

Module GoURL.

(** [strings.Cut] with a one-byte separator. *)
Fixpoint Cut (sep : ascii) (s : string) : string * option string :=
  match s with
  | EmptyString => (EmptyString, None)
  | String c s' =>
      if Ascii.eqb c sep then (EmptyString, Some s')
      else let '(before, after) := Cut sep s' in (String c before, after)
  end.

Fixpoint all_bytes (p : ascii -> bool) (s : string) : bool :=
  match s with
  | EmptyString => true
  | String c s' => p c && all_bytes p s'
  end.

Fixpoint count_byte (c : ascii) (s : string) : nat :=
  match s with
  | EmptyString => O
  | String b s' => ((if Ascii.eqb b c then 1 else 0) + count_byte c s')%nat
  end.

(** [strings.LastIndexByte]. *)
Fixpoint last_index_from (c : ascii) (s : string) (i : nat) (found : option nat)
  : option nat :=
  match s with
  | EmptyString => found
  | String b s' =>
      last_index_from c s' (S i) (if Ascii.eqb b c then Some i else found)
  end.

Definition LastIndexByte (s : string) (c : ascii) : option nat :=
  last_index_from c s O None.

Definition HasSuffix (s suffix : string) : bool :=
  (String.length suffix <=? String.length s)%nat &&
  String.eqb
    (substring (String.length s - String.length suffix) (String.length suffix) s)
    suffix.

Definition byte_in (set : string) (c : ascii) : bool :=
  existsb (Ascii.eqb c) (list_ascii_of_string set).

Definition is_alpha (c : ascii) : bool :=
  let n := nat_of_ascii c in
  ((97 <=? n) && (n <=? 122) || (65 <=? n) && (n <=? 90))%nat.

Definition is_digit (c : ascii) : bool :=
  let n := nat_of_ascii c in ((48 <=? n) && (n <=? 57))%nat.

(** [stringContainsCTLByte]. *)
Definition is_ctl (c : ascii) : bool :=
  let n := nat_of_ascii c in ((n <? 32) || (n =? 127))%nat.

(** Bytes that [shouldEscape] leaves alone in a host. *)
Definition host_byte (c : ascii) : bool :=
  is_alpha c || is_digit c || byte_in "!$&'()*+,;=:<>-_.~" c.

(** Bytes that [shouldEscape] leaves alone in a path and in a fragment. *)
Definition plain_byte (c : ascii) : bool :=
  is_alpha c || is_digit c || byte_in "-_.~$&+,/:;=@" c.

(** [getScheme]: [None] is the error "missing protocol scheme". *)
Fixpoint getScheme_from (rawURL s : string) (i : nat) : option (string * string) :=
  match s with
  | EmptyString => Some (EmptyString, rawURL)
  | String c s' =>
      if is_alpha c then getScheme_from rawURL s' (S i)
      else if is_digit c || byte_in "+-." c then
        match i with
        | O => Some (EmptyString, rawURL)
        | S _ => getScheme_from rawURL s' (S i)
        end
      else if Ascii.eqb c ":" then
        match i with
        | O => None
        | S _ => Some (substring 0 i rawURL, s')
        end
      else Some (EmptyString, rawURL)
  end.

Definition getScheme (rawURL : string) : option (string * string) :=
  getScheme_from rawURL rawURL O.

(** [validOptionalPort]. *)
Definition validOptionalPort (port : string) : bool :=
  match port with
  | EmptyString => true
  | String c digits => Ascii.eqb c ":" && all_bytes is_digit digits
  end.

(** [parseHost] without IP literals and escapes. *)
Definition parseHost (host : string) : option string :=
  if HasPrefix host "[" then None
  else
    let port_ok :=
      match LastIndexByte host ":" with
      | Some i => validOptionalPort (substring i (String.length host - i) host)
      | None => true
      end in
    if port_ok && all_bytes host_byte host then Some host else None.

(** [parseAuthority] without userinfo. *)
Definition parseAuthority (authority : string) : option string :=
  if Contains authority "@" then None else parseHost authority.

Definition emptyURL : URL :=
  {| Scheme := ""; Opaque := ""; User := None; Host := ""; Path := "";
     RawPath := ""; OmitHost := false; ForceQuery := false; RawQuery := "";
     Fragment := ""; RawFragment := "" |}.

(** The unexported [parse] with [viaRequest = false]. *)
Definition parse (rawURL : string) : option URL :=
  if negb (all_bytes (fun c => negb (is_ctl c)) rawURL) then None
  else if String.eqb rawURL "*" then
    Some {| Scheme := ""; Opaque := ""; User := None; Host := ""; Path := "*";
            RawPath := ""; OmitHost := false; ForceQuery := false;
            RawQuery := ""; Fragment := ""; RawFragment := "" |}
  else
    match getScheme rawURL with
    | None => None
    | Some (scheme0, rest0) =>
        let scheme := ToLower scheme0 in
        let '(rest, force, query) :=
          if HasSuffix rest0 "?" && (count_byte "?" rest0 =? 1)%nat
          then (substring 0 (String.length rest0 - 1) rest0, true, EmptyString)
          else let '(r, q) := Cut "?" rest0 in (r, false, default EmptyString q) in
        if negb (HasPrefix rest "/") && negb (String.eqb scheme "") then
          Some {| Scheme := scheme; Opaque := rest; User := None; Host := "";
                  Path := ""; RawPath := ""; OmitHost := false;
                  ForceQuery := force; RawQuery := query;
                  Fragment := ""; RawFragment := "" |}
        else if negb (HasPrefix rest "/") && Contains (fst (Cut "/" rest)) ":"
        then None
        else
          let authority_form :=
            (negb (String.eqb scheme "") || negb (HasPrefix rest "///"))
            && HasPrefix rest "//" in
          let parts :=
            if authority_form then
              let after := substring 2 (String.length rest - 2) rest in
              let '(authority, tail) := Cut "/" after in
              match parseAuthority authority with
              | None => None
              | Some host =>
                  Some (host, match tail with
                              | Some t => String "/" t
                              | None => EmptyString
                              end, false)
              end
            else
              Some (EmptyString, rest,
                    negb (String.eqb scheme "") && HasPrefix rest "/") in
          match parts with
          | None => None
          | Some (host, path, omit) =>
              if all_bytes plain_byte path then
                Some {| Scheme := scheme; Opaque := ""; User := None;
                        Host := host; Path := path; RawPath := "";
                        OmitHost := omit; ForceQuery := force;
                        RawQuery := query; Fragment := ""; RawFragment := "" |}
              else None
          end
    end.

(** [url.Parse]: cut the fragment, [parse], then [setFragment]. *)
Definition Parse (rawURL : string) : option URL :=
  let '(u, frag) := Cut "#" rawURL in
  match parse u with
  | None => None
  | Some url =>
      match frag with
      | None | Some EmptyString => Some url
      | Some frag =>
          if all_bytes plain_byte frag then
            Some {| Scheme := Scheme url; Opaque := Opaque url; User := User url;
                    Host := Host url; Path := Path url; RawPath := RawPath url;
                    OmitHost := OmitHost url; ForceQuery := ForceQuery url;
                    RawQuery := RawQuery url; Fragment := frag;
                    RawFragment := "" |}
          else None
      end
  end.

(** [URL.EscapedPath] and [URL.EscapedFragment] on plain bytes. *)
Definition EscapedPath (u : URL) : string := Path u.
Definition EscapedFragment (u : URL) : string := Fragment u.

(** [URL.String]. *)
Definition String_ (u : URL) : string :=
  let scheme := if String.eqb (Scheme u) "" then "" else Scheme u ++ ":" in
  let body :=
    if negb (String.eqb (Opaque u) "") then scheme ++ Opaque u
    else
      let auth :=
        if negb (String.eqb (Scheme u) "") || negb (String.eqb (Host u) "")
        then
          if OmitHost u && String.eqb (Host u) "" then ""
          else
            (if negb (String.eqb (Host u) "") || negb (String.eqb (Path u) "")
             then "//" else "") ++ Host u
        else "" in
      let path := EscapedPath u in
      let slash :=
        if negb (String.eqb path "") && negb (HasPrefix path "/")
           && negb (String.eqb (Host u) "")
        then "/" else "" in
      let buf := scheme ++ auth ++ slash in
      let dot :=
        if String.eqb buf "" && Contains (fst (Cut "/" path)) ":"
        then "./" else "" in
      buf ++ dot ++ path in
  let query :=
    if ForceQuery u || negb (String.eqb (RawQuery u) "")
    then "?" ++ RawQuery u else "" in
  let frag :=
    if negb (String.eqb (Fragment u) "") then "#" ++ EscapedFragment u else "" in
  body ++ query ++ frag.

(** The elements of [full] between slashes, as the [strings.Cut] loop of
    [resolvePath] meets them. *)
Fixpoint elements (s : string) (cur : string) : list string :=
  match s with
  | EmptyString => [cur]
  | String c s' =>
      if Ascii.eqb c "/" then cur :: elements s' EmptyString
      else elements s' (cur ++ String c EmptyString)
  end.

(** One round of the loop of [resolvePath] on [(dst, first)]. *)
Definition resolve_elem (st : string * bool) (elem : string) : string * bool :=
  let '(dst, first) := st in
  if String.eqb elem "." then (dst, false)
  else if String.eqb elem ".." then
    let str := substring 1 (String.length dst - 1) dst in
    match LastIndexByte str "/" with
    | None => ("/", true)
    | Some index => ("/" ++ substring 0 index str, first)
    end
  else ((if first then dst else dst ++ "/") ++ elem, false).

(** [resolvePath]. *)
Definition resolvePath (base ref : string) : string :=
  let full :=
    if String.eqb ref "" then base
    else if negb (HasPrefix ref "/") then
      match LastIndexByte base "/" with
      | Some i => substring 0 (S i) base ++ ref
      | None => ref
      end
    else ref in
  if String.eqb full "" then ""
  else
    let elems := elements full EmptyString in
    let '(dst, _) := fold_left resolve_elem elems ("/", true) in
    let elem := List.last elems EmptyString in
    let dst := if String.eqb elem "." || String.eqb elem ".." then dst ++ "/" else dst in
    if HasPrefix dst "//" then substring 1 (String.length dst - 1) dst else dst.

Definition setPath (u : URL) (p : string) : URL :=
  {| Scheme := Scheme u; Opaque := Opaque u; User := User u; Host := Host u;
     Path := p; RawPath := ""; OmitHost := OmitHost u;
     ForceQuery := ForceQuery u; RawQuery := RawQuery u;
     Fragment := Fragment u; RawFragment := RawFragment u |}.

(** [URL.ResolveReference]. *)
Definition ResolveReference (u ref : URL) : URL :=
  let url :=
    {| Scheme := if String.eqb (Scheme ref) "" then Scheme u else Scheme ref;
       Opaque := Opaque ref; User := User ref; Host := Host ref;
       Path := Path ref; RawPath := RawPath ref; OmitHost := OmitHost ref;
       ForceQuery := ForceQuery ref; RawQuery := RawQuery ref;
       Fragment := Fragment ref; RawFragment := RawFragment ref |} in
  if negb (String.eqb (Scheme ref) "") || negb (String.eqb (Host ref) "")
     || bool_decide (is_Some (User ref))
  then setPath url (resolvePath (EscapedPath ref) "")
  else if negb (String.eqb (Opaque ref) "") then
    {| Scheme := Scheme url; Opaque := Opaque url; User := None; Host := "";
       Path := ""; RawPath := RawPath url; OmitHost := OmitHost url;
       ForceQuery := ForceQuery url; RawQuery := RawQuery url;
       Fragment := Fragment url; RawFragment := RawFragment url |}
  else
    let inherit :=
      String.eqb (Path ref) "" && negb (ForceQuery ref)
      && String.eqb (RawQuery ref) "" in
    let url :=
      if inherit then
        {| Scheme := Scheme url; Opaque := Opaque url; User := User url;
           Host := Host url; Path := Path url; RawPath := RawPath url;
           OmitHost := OmitHost url; ForceQuery := ForceQuery url;
           RawQuery := RawQuery u;
           Fragment := if String.eqb (Fragment ref) "" then Fragment u
                       else Fragment url;
           RawFragment := if String.eqb (Fragment ref) "" then RawFragment u
                          else RawFragment url |}
      else url in
    if String.eqb (Path ref) "" && negb (String.eqb (Opaque u) "") then
      {| Scheme := Scheme url; Opaque := Opaque u; User := None; Host := "";
         Path := ""; RawPath := RawPath url; OmitHost := OmitHost url;
         ForceQuery := ForceQuery url; RawQuery := RawQuery url;
         Fragment := Fragment url; RawFragment := RawFragment url |}
    else
      setPath
        {| Scheme := Scheme url; Opaque := Opaque url; User := User u;
           Host := Host u; Path := Path url; RawPath := RawPath url;
           OmitHost := OmitHost url; ForceQuery := ForceQuery url;
           RawQuery := RawQuery url; Fragment := Fragment url;
           RawFragment := RawFragment url |}
        (resolvePath (EscapedPath u) (EscapedPath ref)).

(** [Parse] takes no host with a byte outside ASCII, so a comparison of
    two hosts of [GoURL] never comes to the Unicode tables; in their place
    stands the equality of byte strings, which Go's folding includes. *)
#[export] Instance go : NetURL :=
  {| url_Parse := Parse; url_String := String_;
     url_ResolveReference := ResolveReference;
     unicode_EqualFold := String.eqb |}.

End GoURL.

(** ** Package [link] *)

Record Link := mkLink { Href : string; Text : string }.

(** ** The worker-pool revision *)

Module Pool.

Section Policy.
Context {net : NetURL}.

(** [getBaseURL]: [None] is the nil pointer. *)
Definition getBaseURL (urlStr : string) : option URL :=
  match url_Parse urlStr with
  | None => None
  | Some parsedURL => Some parsedURL
  end.

(** The [else if] guard of [resolveURL], on the lowered href. *)
Definition rejectedHref (lowerHref : string) : bool :=
  HasPrefix lowerHref "#" ||
  HasPrefix lowerHref "mailto:" ||
  HasPrefix lowerHref "javascript:" ||
  HasPrefix lowerHref "tel:" ||
  HasPrefix lowerHref "data:" ||
  (Contains lowerHref ":" && negb (HasPrefix lowerHref "http:")
     && negb (HasPrefix lowerHref "https:")).

(** The copy of [base] built for a protocol-relative href. *)
Definition protocolRelative (base : URL) (href : string) : URL :=
  {| Scheme := Scheme base; Opaque := href; User := None; Host := "";
     Path := ""; RawPath := RawPath base; OmitHost := OmitHost base;
     ForceQuery := ForceQuery base; RawQuery := "";
     Fragment := Fragment base; RawFragment := RawFragment base |}.

Definition clearFragment (u : URL) : URL :=
  {| Scheme := Scheme u; Opaque := Opaque u; User := User u; Host := Host u;
     Path := Path u; RawPath := RawPath u; OmitHost := OmitHost u;
     ForceQuery := ForceQuery u; RawQuery := RawQuery u;
     Fragment := ""; RawFragment := RawFragment u |}.

(** The tail of [resolveURL], after the href has been accepted. *)
Definition resolveAccepted (base : URL) (href : string) : string :=
  match url_Parse href with
  | None => ""
  | Some relativeURL =>
      let absoluteURL := url_ResolveReference base relativeURL in
      if negb (String.eqb (Scheme absoluteURL) "http")
         && negb (String.eqb (Scheme absoluteURL) "https")
      then ""
      else url_String (clearFragment absoluteURL)
  end.

(** [resolveURL]: the empty string is the absent result. *)
Definition resolveURL (base : option URL) (link : Link) : string :=
  match base with
  | None => ""
  | Some base =>
      if String.eqb (Href link) "" then ""
      else
        let lowerHref := ToLower (Href link) in
        if HasPrefix (Href link) "//" then
          match url_Parse (url_String (protocolRelative base (Href link))) with
          | None => ""
          | Some relUrl => resolveAccepted base (url_String relUrl)
          end
        else if rejectedHref lowerHref then ""
        else resolveAccepted base (Href link)
  end.

(** [isSameDomain]. *)
Definition isSameDomain (startURLStr targetURLStr : string) : bool :=
  match url_Parse startURLStr with
  | None => false
  | Some start =>
      match url_Parse targetURLStr with
      | None => false
      | Some target => EqualFold unicode_EqualFold (Host start) (Host target)
      end
  end.

End Policy.

(** *** The crawl as a transition system

    One crawl is the shared memory of [buildSitemap] (the [jobs] channel,
    the [tasks] wait group, the [visited] map and the [finalURLs] slice),
    the goroutine that sends the first job, the goroutine that waits on
    [tasks] and closes [jobs], and [numWorkers] workers.  A step is one
    access of one goroutine to the shared memory; the statistics counters
    and the log take no part in the control flow and are left out. *)

Definition ignoredExtensions : list string :=
  [".txt"; ".pdf"; ".doc"; ".docx"; ".xls"; ".xlsx";
   ".ppt"; ".pptx"; ".zip"; ".rar"; ".tar"; ".gz";
   ".jpg"; ".jpeg"; ".png"; ".gif"; ".bmp"; ".svg";
   ".ico"; ".webp"; ".mp3"; ".mp4"; ".avi"; ".mov";
   ".wmv"; ".flv"; ".css"; ".js"; ".json"; ".xml";
   ".rss"; ".atom"; ".webmanifest"; ".map"].

Record job := mkJob { url : string; depth : Z }.

(** The arguments of [buildSitemap], and the network as [getAndParseLinks]
    sees it: [None] is any error (transport, status, content type, parse).
    A crawl asks for a URL once, so the answer is a function of the URL.
    [numWorkers] is a natural number: [make(chan job, numWorkers)] panics on
    a negative one.  Depths stay far from the bounds of Go's [int]. *)
Record config := mkConfig {
  startURL : string;
  maxDepth : Z;
  numWorkers : nat;
  getAndParseLinks : string -> option (list Link)
}.

(** The shared memory: the buffer of [jobs] (capacity [numWorkers]) and
    whether it is closed, the counter of [tasks], the keys of [visited],
    [finalURLs], and whether the program has panicked. *)
Record shared := mkShared {
  jobs : list job;
  closed : bool;
  tasks : Z;
  visited : gset string;
  finalURLs : list string;
  panicked : bool
}.

(** Where a worker stands in the body of [for j := range jobs]:
    - [WIdle]: at the receive from [jobs];
    - [WFetch j]: before [getAndParseLinks(j.url)];
    - [WDone j]: before one of the three [tasks.Done(); continue] (the fetch
      failed, the depth ceiling is met, or the base URL is nil);
    - [WLoop j base rest]: at the head of the loop over [foundLinks], with
      the links [rest] still to come; with no link left, before the
      [tasks.Done()] that ends the body;
    - [WAppend j base abs rest]: [visited.LoadOrStore] has stored [abs];
      before the [append] under the mutex;
    - [WAdd j base abs rest]: before [tasks.Add(1)];
    - [WSend j base abs rest]: before [jobs <- job{abs, j.depth+1}];
    - [WExit]: the range is over. *)
Inductive wstate :=
| WIdle
| WFetch (j : job)
| WDone (j : job)
| WLoop (j : job) (base : URL) (rest : list Link)
| WAppend (j : job) (base : URL) (abs : string) (rest : list Link)
| WAdd (j : job) (base : URL) (abs : string) (rest : list Link)
| WSend (j : job) (base : URL) (abs : string) (rest : list Link)
| WExit.

(** The call a step makes. *)
Inductive label :=
| LRecv (j : job)
| LRangeEnd
| LFetch (u : string) (ok : bool)
| LSkip (l : Link)
| LSkipExt (l : Link)
| LLoadOrStore (u : string) (loaded : bool)
| LAppend (u : string)
| LAdd
| LSend (j : job)
| LDone
| LWait
| LClose.

Inductive verdict :=
| Absent
| Unparsable
| IgnoredExt
| OtherHost
| Candidate (abs : string).

(** The goroutine [tasks.Wait(); close(jobs)]. *)
Inductive cstate := CWait | CClose | CExit.

Record state := mkState {
  mem : shared;
  seeded : bool;
  closer : cstate;
  workers : list wstate
}.

Inductive action :=
| ASeed
| ACloser
| AWorker (i : nat).

Section Crawl.
Context {net : NetURL}.
Variable cfg : config.

(** The body of the loop over [foundLinks], up to [visited.LoadOrStore]. *)
Definition examine (base : URL) (l : Link) : verdict :=
  let abs := resolveURL (Some base) l in
  if String.eqb abs "" then Absent
  else
    match url_Parse abs with
    | None => Unparsable
    | Some parsedAbs =>
        let ext := ToLower (Ext (Path parsedAbs)) in
        if bool_decide (ext ∈ ignoredExtensions) && negb (String.eqb ext "")
        then IgnoredExt
        else if isSameDomain (startURL cfg) abs then Candidate abs
        else OtherHost
    end.

(** From the call of [getAndParseLinks] to the head of the loop. *)
Definition fetched (j : job) : bool * wstate :=
  match getAndParseLinks cfg (url j) with
  | None => (false, WDone j)
  | Some foundLinks =>
      if depth j + 1 >=? maxDepth cfg then (true, WDone j)
      else
        match getBaseURL (url j) with
        | None => (true, WDone j)
        | Some base => (true, WLoop j base foundLinks)
        end
  end.

(** [tasks.Done()]: a negative counter panics. *)
Definition tasks_Done (m : shared) : shared :=
  if tasks m <=? 0
  then mkShared (jobs m) (closed m) (tasks m) (visited m) (finalURLs m) true
  else mkShared (jobs m) (closed m) (tasks m - 1) (visited m) (finalURLs m)
                (panicked m).

(** [jobs <- j]: blocks ([None]) while the buffer is full; a send on a
    closed channel panics. *)
Definition jobs_send (j : job) (m : shared) : option shared :=
  if closed m
  then Some (mkShared (jobs m) (closed m) (tasks m) (visited m) (finalURLs m) true)
  else if (length (jobs m) <? numWorkers cfg)%nat
  then Some (mkShared (jobs m ++ [j]) (closed m) (tasks m) (visited m)
                      (finalURLs m) (panicked m))
  else None.

(** One step of a worker; [None] when the worker is blocked or gone. *)
Definition worker_step (w : wstate) (m : shared)
  : option (label * wstate * shared) :=
  match w with
  | WIdle =>
      match jobs m with
      | j :: q =>
          Some (LRecv j, WFetch j,
                mkShared q (closed m) (tasks m) (visited m) (finalURLs m)
                         (panicked m))
      | [] => if closed m then Some (LRangeEnd, WExit, m) else None
      end
  | WFetch j =>
      let '(ok, w') := fetched j in Some (LFetch (url j) ok, w', m)
  | WDone j => Some (LDone, WIdle, tasks_Done m)
  | WLoop j base [] => Some (LDone, WIdle, tasks_Done m)
  | WLoop j base (l :: rest) =>
      match examine base l with
      | Candidate abs =>
          if bool_decide (abs ∈ visited m)
          then Some (LLoadOrStore abs true, WLoop j base rest, m)
          else Some (LLoadOrStore abs false, WAppend j base abs rest,
                     mkShared (jobs m) (closed m) (tasks m)
                              ({[abs]} ∪ visited m) (finalURLs m)
                              (panicked m))
      | IgnoredExt => Some (LSkipExt l, WLoop j base rest, m)
      | _ => Some (LSkip l, WLoop j base rest, m)
      end
  | WAppend j base abs rest =>
      Some (LAppend abs, WAdd j base abs rest,
            mkShared (jobs m) (closed m) (tasks m) (visited m)
                     (finalURLs m ++ [abs]) (panicked m))
  | WAdd j base abs rest =>
      Some (LAdd, WSend j base abs rest,
            mkShared (jobs m) (closed m) (tasks m + 1) (visited m)
                     (finalURLs m) (panicked m))
  | WSend j base abs rest =>
      match jobs_send (mkJob abs (depth j + 1)) m with
      | Some m' => Some (LSend (mkJob abs (depth j + 1)), WLoop j base rest, m')
      | None => None
      end
  | WExit => None
  end.

(** [buildSitemap] up to [workers.Wait()]: the seed is in [visited] and in
    [finalURLs], [tasks] counts the first job, no goroutine has moved. *)
Definition init : state :=
  mkState (mkShared [] false 1 {[startURL cfg]} [startURL cfg] false)
          false CWait (replicate (numWorkers cfg) WIdle).

(** One step of the crawl: the goroutine [a] moves.  [close] of a closed
    channel panics.  Nothing moves after a panic. *)
Definition step (a : action) (st : state) : option (label * state) :=
  if panicked (mem st) then None
  else
    match a with
    | ASeed =>
        if seeded st then None
        else
          match jobs_send (mkJob (startURL cfg) 0) (mem st) with
          | Some m' =>
              Some (LSend (mkJob (startURL cfg) 0),
                    mkState m' true (closer st) (workers st))
          | None => None
          end
    | ACloser =>
        match closer st with
        | CWait =>
            if tasks (mem st) =? 0
            then Some (LWait, mkState (mem st) (seeded st) CClose (workers st))
            else None
        | CClose =>
            let m := mem st in
            Some (LClose,
                  mkState (mkShared (jobs m) true (tasks m) (visited m)
                                    (finalURLs m) (closed m))
                          (seeded st) CExit (workers st))
        | CExit => None
        end
    | AWorker i =>
        match workers st !! i with
        | None => None
        | Some w =>
            match worker_step w (mem st) with
            | Some (l, w', m') =>
                Some (l, mkState m' (seeded st) (closer st)
                                 (<[i := w']> (workers st)))
            | None => None
            end
        end
    end.

(** [workers.Wait()] returns when every worker has left its loop; then
    [buildSitemap] returns [finalURLs, nil]. *)
Definition is_exit (w : wstate) : bool :=
  match w with WExit => true | _ => false end.

Definition returned (st : state) : option (list string * option string) :=
  if forallb is_exit (workers st) && negb (panicked (mem st))
  then Some (finalURLs (mem st), None)
  else None.

(** Executions, with the calls made so far. *)
Inductive exec : list (action * label) -> state -> Prop :=
| exec_init : exec [] init
| exec_step tr st a l st' :
    exec tr st -> step a st = Some (l, st') -> exec (tr ++ [(a, l)]) st'.

Definition reachable (st : state) : Prop := exists tr, exec tr st.

Inductive reaches : state -> state -> Prop :=
| reaches_refl st : reaches st st
| reaches_step st st' a l st'' :
    reaches st st' -> step a st' = Some (l, st'') -> reaches st st''.

(** Running a schedule from a state. *)
Fixpoint run (sched : list action) (st : state)
  : option (list (action * label) * state) :=
  match sched with
  | [] => Some ([], st)
  | a :: sched' =>
      match step a st with
      | None => None
      | Some (l, st') =>
          match run sched' st' with
          | None => None
          | Some (tr, st'') => Some ((a, l) :: tr, st'')
          end
      end
  end.

(** The state a schedule leads to, from the start of the crawl. *)
Definition final (sched : list action) : option state :=
  option_map snd (run sched init).

(** No goroutine can move and [buildSitemap] has not returned. *)
Definition deadlocked (st : state) : Prop :=
  (forall a, step a st = None) /\ returned st = None.

(** The steps of a worker, case by case. *)
Inductive wcase (m : shared) : wstate -> label -> wstate -> shared -> Prop :=
| wc_recv j q :
    jobs m = j :: q ->
    wcase m WIdle (LRecv j) (WFetch j)
          (mkShared q (closed m) (tasks m) (visited m) (finalURLs m) (panicked m))
| wc_end :
    jobs m = [] -> closed m = true -> wcase m WIdle LRangeEnd WExit m
| wc_fetch j ok w' :
    fetched j = (ok, w') -> wcase m (WFetch j) (LFetch (url j) ok) w' m
| wc_done j : wcase m (WDone j) LDone WIdle (tasks_Done m)
| wc_loop_done j base : wcase m (WLoop j base []) LDone WIdle (tasks_Done m)
| wc_skip j base l rest :
    (forall abs, examine base l <> Candidate abs) ->
    examine base l <> IgnoredExt ->
    wcase m (WLoop j base (l :: rest)) (LSkip l) (WLoop j base rest) m
| wc_skip_ext j base l rest :
    examine base l = IgnoredExt ->
    wcase m (WLoop j base (l :: rest)) (LSkipExt l) (WLoop j base rest) m
| wc_loaded j base l rest abs :
    examine base l = Candidate abs -> abs ∈ visited m ->
    wcase m (WLoop j base (l :: rest)) (LLoadOrStore abs true)
          (WLoop j base rest) m
| wc_stored j base l rest abs :
    examine base l = Candidate abs -> abs ∉ visited m ->
    wcase m (WLoop j base (l :: rest)) (LLoadOrStore abs false)
          (WAppend j base abs rest)
          (mkShared (jobs m) (closed m) (tasks m) ({[abs]} ∪ visited m)
                    (finalURLs m) (panicked m))
| wc_append j base abs rest :
    wcase m (WAppend j base abs rest) (LAppend abs) (WAdd j base abs rest)
          (mkShared (jobs m) (closed m) (tasks m) (visited m)
                    (finalURLs m ++ [abs]) (panicked m))
| wc_add j base abs rest :
    wcase m (WAdd j base abs rest) LAdd (WSend j base abs rest)
          (mkShared (jobs m) (closed m) (tasks m + 1) (visited m)
                    (finalURLs m) (panicked m))
| wc_send j base abs rest m' :
    jobs_send (mkJob abs (depth j + 1)) m = Some m' ->
    wcase m (WSend j base abs rest) (LSend (mkJob abs (depth j + 1)))
          (WLoop j base rest) m'.

(** *** One worker, one job *)

(** The worker, whatever the shared memory holds. *)
Definition wtrans (w : wstate) (l : label) (w' : wstate) : Prop :=
  exists m m', worker_step w m = Some (l, w', m').

(** Runs of the loop body: the worker does not take another job. *)
Inductive body_run : wstate -> list label -> wstate -> Prop :=
| body_nil w : body_run w [] w
| body_cons w l w' tr w'' :
    w <> WIdle -> wtrans w l w' -> body_run w' tr w'' ->
    body_run w (l :: tr) w''.

(** The job a worker holds. *)
Definition job_of (w : wstate) : option job :=
  match w with
  | WFetch j | WDone j | WLoop j _ _ | WAppend j _ _ _ | WAdd j _ _ _
  | WSend j _ _ _ => Some j
  | WIdle | WExit => None
  end.

(** What one link of [foundLinks] makes a worker do on job [j]. *)
Inductive block (j : job) : list label -> Prop :=
| block_skip l : block j [LSkip l]
| block_skip_ext l : block j [LSkipExt l]
| block_loaded u : block j [LLoadOrStore u true]
| block_new u :
    block j [LLoadOrStore u false; LAppend u; LAdd; LSend (mkJob u (depth j + 1))].

(** The calls of a worker from [getAndParseLinks] to [tasks.Done()]. *)
Definition job_trace (j : job) (tr : list label) : Prop :=
  exists ok blocks,
    Forall (block j) blocks /\
    tr = LFetch (url j) ok :: concat blocks ++ [LDone].

Definition job_bound (j : job) : nat :=
  2 + 4 * length (default [] (getAndParseLinks cfg (url j))).

(** The calls of worker [i] in an execution, in order. *)
Definition call_of (i : nat) (e : action * label) : option label :=
  match fst e with
  | AWorker k => if decide (k = i) then Some (snd e) else None
  | _ => None
  end.

Definition calls_of (i : nat) (tr : list (action * label)) : list label :=
  omap (call_of i) tr.

(** The calls of a worker for one job, from the receive to [tasks.Done()];
    on a failed fetch and at the depth ceiling there is nothing in
    between. *)
Definition segment (s : list label) : Prop :=
  exists j t,
    s = LRecv j :: t /\ job_trace j t
    /\ (getAndParseLinks cfg (url j) = None ->
        t = [LFetch (url j) false; LDone])
    /\ (depth j + 1 >= maxDepth cfg ->
        exists ok, t = [LFetch (url j) ok; LDone]).

(** The calls of a worker since its last [tasks.Done()]. *)
Definition current (w : wstate) (cur : list label) : Prop :=
  match job_of w with
  | Some j => exists t, cur = LRecv j :: t /\ body_run (WFetch j) t w
  | None => (w = WIdle /\ cur = []) \/ (w = WExit /\ cur = [LRangeEnd])
  end.

(** Where a run of the body stands: done, with the calls of the links and
    one [tasks.Done()] at the end; or still on the job, without one. *)
Definition run_shape (j : job) (tr : list label) (w : wstate) : Prop :=
  (w = WIdle /\
   exists blocks,
     Forall (block j) blocks /\ tr = (concat blocks ++ [LDone])%list)
  \/ (w <> WIdle /\ job_of w = Some j /\ ~ In LDone tr).

(** A worker that holds a job is stopped by a full [jobs] buffer only. *)
Definition send_free (w : wstate) (m : shared) : Prop :=
  match w with
  | WSend _ _ _ _ => closed m = true \/ (length (jobs m) < numWorkers cfg)%nat
  | _ => True
  end.

(** *** Bookkeeping of an execution *)

(** URLs taken by [LoadOrStore] and not yet appended. *)
Definition pending_of (w : wstate) : option string :=
  match w with
  | WAppend _ _ abs _ => Some abs
  | _ => None
  end.

Definition pending (ws : list wstate) : list string := omap pending_of ws.

Definition stored_of (e : action * label) : option string :=
  match snd e with
  | LLoadOrStore u false => Some u
  | _ => None
  end.

Definition appended_of (e : action * label) : option string :=
  match snd e with
  | LAppend u => Some u
  | _ => None
  end.

(** The URLs first recorded in [visited], and the URLs appended to
    [finalURLs], in the order of the execution. *)
Definition stored (tr : list (action * label)) : list string := omap stored_of tr.
Definition appended (tr : list (action * label)) : list string := omap appended_of tr.

(** [within n u]: [u] is [n] links away from the start URL, along pages
    that [getAndParseLinks] delivers and links that pass [examine]. *)
Inductive within : nat -> string -> Prop :=
| within_start : within 0 (startURL cfg)
| within_link n p foundLinks base l u :
    within n p ->
    getAndParseLinks cfg p = Some foundLinks ->
    getBaseURL p = Some base ->
    In l foundLinks ->
    examine base l = Candidate u ->
    within (S n) u.

(** The extension test of the worker on an absolute URL. *)
Definition ignoredExt (abs : string) : bool :=
  match url_Parse abs with
  | None => false
  | Some parsedAbs =>
      let ext := ToLower (Ext (Path parsedAbs)) in
      bool_decide (ext ∈ ignoredExtensions) && negb (String.eqb ext "")
  end.

(** The jobs in the channel and in the hands of the workers. *)
Definition jobs_of (st : state) : list job :=
  jobs (mem st) ++ omap job_of (workers st).

(** *** Invariants of an execution *)

(** The books of [visited] and [finalURLs] after the calls [tr]. *)
Definition bookkept (tr : list (action * label)) (st : state) : Prop :=
  finalURLs (mem st) = startURL cfg :: appended tr
  /\ stored tr ≡ₚ appended tr ++ pending (workers st)
  /\ NoDup (startURL cfg :: stored tr)
  /\ forall u, u ∈ visited (mem st) <-> u ∈ startURL cfg :: stored tr.

(** A URL that the crawl may list: the start URL, or a URL some links away
    from it, fewer than [maxDepth]. *)
Definition sound (u : string) : Prop :=
  exists n, within n u /\ (n = 0%nat \/ Z.of_nat n < maxDepth cfg).

Definition job_ok (j : job) : Prop :=
  0 <= depth j /\ within (Z.to_nat (depth j)) (url j)
  /\ (depth j = 0 \/ depth j < maxDepth cfg).

(** A worker inside the loop over the links of the page of [j]. *)
Definition looping (j : job) (base : URL) (rest : list Link) : Prop :=
  job_ok j /\ depth j + 1 < maxDepth cfg /\ getBaseURL (url j) = Some base
  /\ exists foundLinks,
       getAndParseLinks cfg (url j) = Some foundLinks /\ incl rest foundLinks.

Definition found (j : job) (base : URL) (abs : string) : Prop :=
  exists foundLinks l,
    getAndParseLinks cfg (url j) = Some foundLinks /\ In l foundLinks
    /\ examine base l = Candidate abs.

Definition worker_ok (w : wstate) : Prop :=
  match w with
  | WIdle | WExit => True
  | WFetch j | WDone j => job_ok j
  | WLoop j base rest => looping j base rest
  | WAppend j base abs rest | WAdd j base abs rest | WSend j base abs rest =>
      looping j base rest /\ found j base abs
  end.

Definition provenance (st : state) : Prop :=
  Forall sound (finalURLs (mem st))
  /\ Forall job_ok (jobs (mem st))
  /\ Forall worker_ok (workers st).

(** Every job is for a URL that is already in the output. *)
Definition listed (out : list string) (w : wstate) : Prop :=
  match w with
  | WIdle | WExit => True
  | WFetch j | WDone j | WLoop j _ _ | WAppend j _ _ _ => In (url j) out
  | WAdd j _ abs _ | WSend j _ abs _ => In (url j) out /\ In abs out
  end.

Definition jobs_listed (st : state) : Prop :=
  Forall (fun j => In (url j) (finalURLs (mem st))) (jobs (mem st))
  /\ Forall (listed (finalURLs (mem st))) (workers st).

(** What a worker contributes to [tasks]: its job, and the job it has
    counted and not yet sent. *)
Definition weight (w : wstate) : nat :=
  match w with
  | WIdle | WExit => 0
  | WSend _ _ _ _ => 2
  | _ => 1
  end.

Definition outstanding (st : state) : nat :=
  length (jobs (mem st)) + sum_list_with weight (workers st)
  + (if seeded st then 0 else 1).

Definition counted (st : state) : Prop :=
  tasks (mem st) = Z.of_nat (outstanding st)
  /\ panicked (mem st) = false
  /\ (closer st <> CWait -> tasks (mem st) = 0)
  /\ (closed (mem st) = true -> closer st = CExit).

(** *** How long a crawl can be *)

(** A bound on the calls that a job and the jobs that come of it take, from
    the fetch on; [n] is the number of levels below the job. *)
Fixpoint job_cost (n : nat) (j : job) : nat :=
  match n with
  | O => 2
  | S n' =>
      match snd (fetched j) with
      | WLoop _ base foundLinks =>
          2 + sum_list_with
                (fun l =>
                   4 + match examine base l with
                       | Candidate abs =>
                           1 + job_cost n' (mkJob abs (depth j + 1))
                       | _ => 0
                       end)%nat
                foundLinks
      | _ => 2
      end
  end%nat.

Definition levels (j : job) : nat := Z.to_nat (maxDepth cfg - 1 - depth j).

Definition cost (j : job) : nat := job_cost (levels j) j.

(** One link: at most four calls, and the job it may send, with its
    receive. *)
Definition link_cost (j : job) (base : URL) (l : Link) : nat :=
  (4 + match examine base l with
       | Candidate abs => 1 + cost (mkJob abs (depth j + 1))
       | _ => 0
       end)%nat.

Definition rest_cost (j : job) (base : URL) (rest : list Link) : nat :=
  (1 + sum_list_with (link_cost j base) rest)%nat.

(** The steps a worker still has to make, the end of the range included. *)
Definition steps_left (w : wstate) : nat :=
  match w with
  | WExit => 0
  | WIdle => 1
  | WFetch j => 1 + cost j
  | WDone j => 2
  | WLoop j base rest => 1 + rest_cost j base rest
  | WAppend j base abs rest =>
      5 + cost (mkJob abs (depth j + 1)) + rest_cost j base rest
  | WAdd j base abs rest =>
      4 + cost (mkJob abs (depth j + 1)) + rest_cost j base rest
  | WSend j base abs rest =>
      3 + cost (mkJob abs (depth j + 1)) + rest_cost j base rest
  end%nat.

Definition queue_cost (q : list job) : nat :=
  sum_list_with (fun j => 1 + cost j)%nat q.

Definition closer_left (c : cstate) : nat :=
  match c with CWait => 2 | CClose => 1 | CExit => 0 end%nat.

(** A number that every step of the crawl makes smaller. *)
Definition potential (st : state) : nat :=
  ((if seeded st then 0 else 2 + cost (mkJob (startURL cfg) 0))
   + closer_left (closer st)
   + queue_cost (jobs (mem st))
   + sum_list_with steps_left (workers st))%nat.

Definition crawl_bound : nat := potential init.

(** Every worker stands at a send and the [jobs] buffer is full. *)
Definition is_send (w : wstate) : bool :=
  match w with WSend _ _ _ _ => true | _ => false end.

Definition blocked (st : state) : Prop :=
  workers st <> []
  /\ Forall (fun w => is_send w = true) (workers st)
  /\ (numWorkers cfg <= length (jobs (mem st)))%nat.

(** The goroutines that can move. *)
Definition can_step (st : state) (a : action) : bool :=
  match step a st with Some _ => true | None => false end.

Definition enabled (st : state) : list action :=
  List.filter (can_step st)
    (ASeed :: ACloser :: map AWorker (seq 0 (length (workers st)))).

(** The crawl under the scheduler that always moves the first goroutine that
    can move, for [n] steps at most. *)
Fixpoint drive (n : nat) (st : state) : state :=
  match n with
  | O => st
  | S n' =>
      match enabled st with
      | [] => st
      | a :: _ =>
          match step a st with
          | Some (_, st') => drive n' st'
          | None => st
          end
      end
  end.

(** The shape of the goroutines. *)
Definition shaped (st : state) : Prop :=
  length (workers st) = numWorkers cfg
  /\ (closer st = CExit -> closed (mem st) = true)
  /\ (closed (mem st) = false -> Forall (fun w => w <> WExit) (workers st)).

End Crawl.

End Pool.

(** ** The sequential revision

    [buildSitemap] keeps the pages still to fetch in a map from URL to depth
    and takes one of its keys per round, in the order Go's map iteration
    happens to give; the order is the schedule of [run]. *)

Module Seq.

Record config := mkConfig {
  startURL : string;
  maxDepth : Z;
  getAndParseLinks : string -> option (list Link)
}.

Record state := mkState {
  queue : gmap string Z;
  visited : gset string;
  finalURLs : list string
}.

Section Crawl.
Context {net : NetURL}.
Variable cfg : config.

Definition getBaseURL (urlStr : string) : option URL :=
  match url_Parse urlStr with
  | None => None
  | Some parsedURL => Some parsedURL
  end.

Definition resolveURL (base : option URL) (link : Link) : string :=
  match base with
  | None => ""
  | Some base =>
      if String.eqb (Href link) "" then ""
      else if HasPrefix (Href link) "#"
              || HasPrefix (ToLower (Href link)) "mailto:"
              || HasPrefix (ToLower (Href link)) "javascript:"
              || HasPrefix (ToLower (Href link)) "tel:"
      then ""
      else
        match url_Parse (Href link) with
        | None => ""
        | Some relativeURL =>
            url_String (Pool.clearFragment (url_ResolveReference base relativeURL))
        end
  end.

Definition isSameDomain (startURLStr targetURLStr : string) : bool :=
  match url_Parse startURLStr with
  | None => false
  | Some start =>
      match url_Parse targetURLStr with
      | None => false
      | Some target => String.eqb (Host start) (Host target)
      end
  end.

(** One round of the loop over [foundLinks]. *)
Definition visit (currentDepth : Z) (base : option URL) (st : state)
  (link : Link) : state :=
  let absoluteURL := resolveURL base link in
  if String.eqb absoluteURL "" then st
  else if isSameDomain (startURL cfg) absoluteURL
          && negb (bool_decide (absoluteURL ∈ visited st))
  then
    mkState
      (if currentDepth + 1 <? maxDepth cfg
       then <[absoluteURL := currentDepth + 1]> (queue st) else queue st)
      ({[absoluteURL]} ∪ visited st)
      (finalURLs st ++ [absoluteURL])
  else st.

(** One round of [for len(queue) > 0] that takes the key [currentURL]. *)
Definition iteration (currentURL : string) (st : state) : option state :=
  match queue st !! currentURL with
  | None => None
  | Some currentDepth =>
      let st := mkState (delete currentURL (queue st)) (visited st) (finalURLs st) in
      if currentDepth >=? maxDepth cfg then Some st
      else
        match getAndParseLinks cfg currentURL with
        | None => Some st
        | Some foundLinks =>
            Some (fold_left (visit currentDepth (getBaseURL currentURL))
                            foundLinks st)
        end
  end.

Definition init : state :=
  mkState {[startURL cfg := 0]} {[startURL cfg]} [startURL cfg].

Fixpoint run (sched : list string) (st : state) : option state :=
  match sched with
  | [] => Some st
  | u :: sched' =>
      match iteration u st with
      | None => None
      | Some st' => run sched' st'
      end
  end.

(** The loop ends on an empty queue, and [buildSitemap] returns
    [finalURLs, nil]. *)
Definition returned (st : state) : option (list string * option string) :=
  if bool_decide (queue st = ∅) then Some (finalURLs st, None) else None.

(** What the sequential loop keeps true of its output. *)
Definition output_ok (st : state) : Prop :=
  NoDup (finalURLs st)
  /\ (forall u, In u (finalURLs st) -> u ∈ visited st)
  /\ exists rest, finalURLs st = (startURL cfg :: rest)%list.

End Crawl.

End Seq.

(** ** Sites used in the scenarios *)

Module Sites.

Definition page (links : list string) : option (list Link) :=
  Some (map (fun h => mkLink h "") links).

(** The chain A -> B -> C -> D. *)
Definition chain (u : string) : option (list Link) :=
  if String.eqb u "http://h/a" then page ["/b"]
  else if String.eqb u "http://h/b" then page ["/c"]
  else if String.eqb u "http://h/c" then page ["/d"]
  else if String.eqb u "http://h/d" then page []
  else None.

Definition chain_pool : Pool.config := Pool.mkConfig "http://h/a" 2 1 chain.
Definition chain_seq : Seq.config := Seq.mkConfig "http://h/a" 2 chain.

(** A page that links to a stylesheet and to [/about]. *)
Definition styled (u : string) : option (list Link) :=
  if String.eqb u "http://h/" then page ["style.css"; "/about"]
  else if String.eqb u "http://h/about" then page []
  else None.

Definition styled_pool : Pool.config := Pool.mkConfig "http://h/" 3 2 styled.

(** A start URL that is itself a stylesheet path and links to itself. *)
Definition sheet (u : string) : option (list Link) :=
  if String.eqb u "http://h/a.css" then page ["a.css"] else None.

Definition sheet_pool : Pool.config := Pool.mkConfig "http://h/a.css" 3 1 sheet.

(** A page with two links, crawled by one worker. *)
Definition fork (u : string) : option (list Link) :=
  if String.eqb u "http://h/" then page ["/a"; "/b"] else page [].

Definition fork_pool : Pool.config := Pool.mkConfig "http://h/" 2 1 fork.

(** A start URL that [url.Parse] refuses; no request can be made for it. *)
Definition unreachable_web (u : string) : option (list Link) := None.

Definition colon_pool : Pool.config := Pool.mkConfig ":" 3 1 unreachable_web.

(** A linked page that answers with status 500. *)
Definition broken (u : string) : option (list Link) :=
  if String.eqb u "http://h/" then page ["/down"] else None.

Definition broken_pool : Pool.config := Pool.mkConfig "http://h/" 3 1 broken.

(** Three links, then two and one: two workers end up at a send each. *)
Definition fork2 (u : string) : option (list Link) :=
  if String.eqb u "http://h/" then page ["/a"; "/b"; "/c"]
  else if String.eqb u "http://h/a" then page ["/d"; "/e"]
  else if String.eqb u "http://h/b" then page ["/f"]
  else page [].

Definition fork2_pool : Pool.config := Pool.mkConfig "http://h/" 3 2 fork2.

(** Schedules: which goroutine moves, step by step. *)
Definition worker (i n : nat) : list Pool.action := replicate n (Pool.AWorker i).

Definition close_and_leave (workers : list nat) : list Pool.action :=
  [Pool.ACloser; Pool.ACloser] ++ map Pool.AWorker workers.

Definition chain_schedule : list Pool.action :=
  Pool.ASeed :: worker 0 10 ++ close_and_leave [0%nat].

Definition styled_schedule : list Pool.action :=
  Pool.ASeed :: worker 0 8 ++ worker 1 3 ++ close_and_leave [0%nat; 1%nat].

Definition sheet_schedule : list Pool.action :=
  Pool.ASeed :: worker 0 4 ++ close_and_leave [0%nat].

Definition colon_schedule : list Pool.action :=
  Pool.ASeed :: worker 0 3 ++ close_and_leave [0%nat].

Definition fork_schedule : list Pool.action := Pool.ASeed :: worker 0 9.

Definition fork2_schedule : list Pool.action :=
  Pool.ASeed :: worker 0 10 ++ worker 1 1 ++ worker 0 6 ++ worker 1 8
  ++ worker 0 4.

Definition broken_schedule : list Pool.action := Pool.ASeed :: worker 0 8.

End Sites.

(** ** Shapes of hrefs used in the statements *)

Module Href.

(** The part of an href before its first slash holds a colon. *)
Definition colonBeforeSlash (href : string) : bool :=
  Contains (fst (GoURL.Cut "/" href)) ":".

(** The href holds a colon, and none before its first slash. *)
Definition colonOnlyAfterSlash (href : string) : bool :=
  Contains href ":" && negb (colonBeforeSlash href).

(** Bytes that are no ASCII letters: [ToLower] neither changes them nor
    produces them from another byte. *)
Definition caseless (c : ascii) : bool :=
  negb (is_upper c)
  && negb ((97 <=? nat_of_ascii c)%nat && (nat_of_ascii c <=? 122)%nat).

End Href.

Import Pool Href.

Local Open Scope list_scope.

(** ** The history of an execution of the worker pool *)

(** *** What has been fetched, and what is still to fetch *)

Section History.
Context {net : NetURL}.
Variable cfg : config.

Definition fetch_of (e : action * label) : option string :=
  match snd e with
  | LFetch u _ => Some u
  | _ => None
  end.

(** The URLs given to [getAndParseLinks], in the order of the calls. *)
Definition fetches (tr : list (action * label)) : list string :=
  omap fetch_of tr.

(** The URL a worker is about to fetch, or has stored and not yet sent as a
    job. *)
Definition awaiting_of (w : wstate) : list string :=
  match w with
  | WFetch j => [url j]
  | WAppend _ _ abs _ | WAdd _ _ abs _ | WSend _ _ abs _ => [abs]
  | _ => []
  end.

(** The URLs with a job that is still to be fetched. *)
Definition awaiting (st : state) : list string :=
  (if seeded st then [] else [startURL cfg])
  ++ map url (jobs (mem st))
  ++ flat_map awaiting_of (workers st).

End History.

(** *** The pages a crawl has been through *)

Section Coverage.
Context {net : NetURL}.
Variable cfg : config.


Definition recv_of (e : action * label) : option job :=
  match snd e with
  | LRecv j => Some j
  | _ => None
  end.

(** The jobs that the workers have received. *)
Definition received (tr : list (action * label)) : list job := omap recv_of tr.




(** The job a worker has listed and is about to send. *)
Definition sending_of (w : wstate) : list job :=
  match w with
  | WAdd j _ abs _ | WSend j _ abs _ => [mkJob abs (depth j + 1)]
  | _ => []
  end.

(** The jobs received, and the jobs on their way to a worker. *)
Definition issued (tr : list (action * label)) (st : state) : list job :=
  received tr
  ++ (if seeded st then [] else [mkJob (startURL cfg) 0])
  ++ jobs (mem st)
  ++ flat_map sending_of (workers st).

(** Every URL of the output has a job, and the only job for the start URL
    is the first one. *)
Definition covered (tr : list (action * label)) (st : state) : Prop :=
  (forall u, In u (finalURLs (mem st)) -> In u (map url (issued tr st)))
  /\ (forall j, In j (issued tr st) ->
                j = mkJob (startURL cfg) 0 \/ In (url j) (stored tr)).

End Coverage.

(** ** The sequential revision: what its loop keeps, and how long it
    runs *)

Module SeqLoop.
Import Seq.

Section Loop.
Context {net : NetURL}.
Variable cfg : config.

(** Where a link leads, if the loop over [foundLinks] takes it up. *)
Definition candidate (base : option URL) (l : Link) : option string :=
  let absoluteURL := resolveURL base l in
  if String.eqb absoluteURL "" then None
  else if isSameDomain (startURL cfg) absoluteURL then Some absoluteURL
  else None.

(** The loop keeps the output without duplicates and in step with
    [visited]; it queues listed URLs only, and below [maxDepth], the first
    entry apart. *)
Definition loop_ok (st : state) : Prop :=
  NoDup (finalURLs st)
  /\ (forall u, u ∈ visited st <-> In u (finalURLs st))
  /\ (exists rest, finalURLs st = (startURL cfg :: rest)%list)
  /\ (forall u d, queue st !! u = Some d ->
                  u ∈ visited st /\ 0 <= d
                  /\ (d < maxDepth cfg \/ (u = startURL cfg /\ d = 0))).

(** The rounds that a queued page can bring about, with [n] levels that
    may still be queued below it. *)
Fixpoint cost (n : nat) (u : string) : nat :=
  match n with
  | O => O
  | S n' =>
      match getAndParseLinks cfg u with
      | None => O
      | Some foundLinks =>
          sum_list_with
            (fun l => match candidate (getBaseURL u) l with
                      | Some abs => S (cost n' abs)
                      | None => O
                      end) foundLinks
      end
  end.

Definition levels (d : Z) : nat := Z.to_nat (maxDepth cfg - 1 - d).

Definition entry_cost (e : string * Z) : nat := S (cost (levels e.2) e.1).

(** A number that every round of the loop makes smaller. *)
Definition potential (st : state) : nat :=
  sum_list_with entry_cost (map_to_list (queue st)).

(** More rounds than this the loop does not make. *)
Definition bound : nat := S (cost (levels 0) (startURL cfg)).

(** The loop, run for at most [fuel] rounds, taking each time the first
    key that the queue lists. *)
Fixpoint drive (fuel : nat) (st : state) : state :=
  match fuel with
  | O => st
  | S fuel' =>
      match map_to_list (queue st) with
      | [] => st
      | (u, _) :: _ =>
          match iteration cfg u st with
          | Some st' => drive fuel' st'
          | None => st
          end
      end
  end.

(** What a link adds to the queue, counted in rounds. *)
Definition link_cost (d : Z) (base : option URL) (l : Link) : nat :=
  match candidate base l with
  | Some abs => if d + 1 <? maxDepth cfg then S (cost (levels (d + 1)) abs) else O
  | None => O
  end.

(** The links of a page, as the loop takes them up. *)
Definition found (p : string) (u : string) : Prop :=
  exists foundLinks l,
    getAndParseLinks cfg p = Some foundLinks /\ In l foundLinks
    /\ candidate (getBaseURL p) l = Some u.

End Loop.

End SeqLoop.

(** ** The first worker pools: an unbuffered channel and ten workers

    The two revisions between the sequential program and the worker pool
    of module [Pool] have the same [buildSitemap], the statistics counters
    apart: [jobs] is made without a buffer, [numWorkers] is the constant
    10, a worker tests [j.depth >= maxDepth] before it fetches, and the URL
    policy is the one of the sequential revision.  A send on [jobs] and the
    receive that takes it are one step; the test of the depth, which reads
    no shared memory, is part of the receive. *)

Module Unbuffered.
Import Seq.

Definition numWorkers : nat := 10.

Record shared := mkShared {
  closed : bool;
  tasks : Z;
  visited : gset string;
  finalURLs : list string;
  panicked : bool
}.

(** Where a worker stands in the body of [for j := range jobs]; [base] is
    nil when the URL of the page does not parse. *)
Inductive wstate :=
| WIdle
| WFetch (j : job)
| WDone (j : job)
| WLoop (j : job) (base : option URL) (rest : list Link)
| WAppend (j : job) (base : option URL) (abs : string) (rest : list Link)
| WAdd (j : job) (base : option URL) (abs : string) (rest : list Link)
| WSend (j : job) (base : option URL) (abs : string) (rest : list Link)
| WExit.

Inductive label :=
| LRangeEnd
| LFetch (j : job) (ok : bool)
| LSkip (l : Link)
| LLoadOrStore (u : string) (loaded : bool)
| LAppend (u : string)
| LAdd
| LSend (j : job)
| LDone
| LWait
| LClose.

(** The goroutine that moves: the one that sends the first job, to the
    worker [k]; the one that waits and closes; the worker [i] on its own;
    the worker [i] that sends a job to the worker [k]. *)
Inductive action :=
| ASeed (k : nat)
| ACloser
| AWorker (i : nat)
| AHand (i k : nat).

Record state := mkState {
  mem : shared;
  seeded : bool;
  closer : cstate;
  workers : list wstate
}.

Section Crawl.
Context {net : NetURL}.
Variable cfg : config.

(** A worker that has received [j]. *)
Definition entered (j : job) : wstate :=
  if depth j >=? maxDepth cfg then WDone j else WFetch j.

(** [tasks.Done()]: a negative counter panics. *)
Definition tasks_Done (m : shared) : shared :=
  if tasks m <=? 0
  then mkShared (closed m) (tasks m) (visited m) (finalURLs m) true
  else mkShared (closed m) (tasks m - 1) (visited m) (finalURLs m) (panicked m).

Definition panic (m : shared) : shared :=
  mkShared (closed m) (tasks m) (visited m) (finalURLs m) true.

(** One step of a worker on its own; [None] when the worker waits for
    another goroutine or is gone.  A send on a closed channel panics. *)
Definition worker_step (w : wstate) (m : shared)
  : option (label * wstate * shared) :=
  match w with
  | WIdle => if closed m then Some (LRangeEnd, WExit, m) else None
  | WFetch j =>
      match getAndParseLinks cfg (url j) with
      | None => Some (LFetch j false, WDone j, m)
      | Some foundLinks =>
          Some (LFetch j true, WLoop j (getBaseURL (url j)) foundLinks, m)
      end
  | WDone j => Some (LDone, WIdle, tasks_Done m)
  | WLoop j base [] => Some (LDone, WIdle, tasks_Done m)
  | WLoop j base (l :: rest) =>
      match SeqLoop.candidate cfg base l with
      | None => Some (LSkip l, WLoop j base rest, m)
      | Some abs =>
          if bool_decide (abs ∈ visited m)
          then Some (LLoadOrStore abs true, WLoop j base rest, m)
          else Some (LLoadOrStore abs false, WAppend j base abs rest,
                     mkShared (closed m) (tasks m) ({[abs]} ∪ visited m)
                              (finalURLs m) (panicked m))
      end
  | WAppend j base abs rest =>
      Some (LAppend abs, WAdd j base abs rest,
            mkShared (closed m) (tasks m) (visited m) (finalURLs m ++ [abs])
                     (panicked m))
  | WAdd j base abs rest =>
      Some (LAdd, WSend j base abs rest,
            mkShared (closed m) (tasks m + 1) (visited m) (finalURLs m)
                     (panicked m))
  | WSend j base abs rest =>
      if closed m
      then Some (LSend (mkJob abs (depth j + 1)), WSend j base abs rest, panic m)
      else None
  | WExit => None
  end.

(** [buildSitemap] up to [workers.Wait()]. *)
Definition init : state :=
  mkState (mkShared false 1 {[startURL cfg]} [startURL cfg] false)
          false CWait (replicate numWorkers WIdle).

(** One step of the crawl.  Nothing moves after a panic. *)
Definition step (a : action) (st : state) : option (label * state) :=
  if panicked (mem st) then None
  else
    match a with
    | ASeed k =>
        if seeded st then None
        else if closed (mem st)
        then Some (LSend (mkJob (startURL cfg) 0),
                   mkState (panic (mem st)) true (closer st) (workers st))
        else
          match workers st !! k with
          | Some WIdle =>
              Some (LSend (mkJob (startURL cfg) 0),
                    mkState (mem st) true (closer st)
                            (<[k := entered (mkJob (startURL cfg) 0)]>
                               (workers st)))
          | _ => None
          end
    | ACloser =>
        match closer st with
        | CWait =>
            if tasks (mem st) =? 0
            then Some (LWait, mkState (mem st) (seeded st) CClose (workers st))
            else None
        | CClose =>
            let m := mem st in
            Some (LClose,
                  mkState (mkShared true (tasks m) (visited m) (finalURLs m)
                                    (closed m))
                          (seeded st) CExit (workers st))
        | CExit => None
        end
    | AWorker i =>
        match workers st !! i with
        | None => None
        | Some w =>
            match worker_step w (mem st) with
            | Some (l, w', m') =>
                Some (l, mkState m' (seeded st) (closer st)
                                 (<[i := w']> (workers st)))
            | None => None
            end
        end
    | AHand i k =>
        if closed (mem st) then None
        else
          match workers st !! i, workers st !! k with
          | Some (WSend j base abs rest), Some WIdle =>
              Some (LSend (mkJob abs (depth j + 1)),
                    mkState (mem st) (seeded st) (closer st)
                            (<[k := entered (mkJob abs (depth j + 1))]>
                               (<[i := WLoop j base rest]> (workers st))))
          | _, _ => None
          end
    end.

Definition is_exit (w : wstate) : bool :=
  match w with WExit => true | _ => false end.

Definition is_send (w : wstate) : bool :=
  match w with WSend _ _ _ _ => true | _ => false end.

(** [workers.Wait()] returns when every worker has left its loop; then
    [buildSitemap] returns [finalURLs, nil]. *)
Definition returned (st : state) : option (list string * option string) :=
  if forallb is_exit (workers st) && negb (panicked (mem st))
  then Some (finalURLs (mem st), None)
  else None.

Inductive exec : list (action * label) -> state -> Prop :=
| exec_init : exec [] init
| exec_step tr st a l st' :
    exec tr st -> step a st = Some (l, st') -> exec (tr ++ [(a, l)]) st'.

Definition reachable (st : state) : Prop := exists tr, exec tr st.

Fixpoint run (sched : list action) (st : state)
  : option (list (action * label) * state) :=
  match sched with
  | [] => Some ([], st)
  | a :: sched' =>
      match step a st with
      | None => None
      | Some (l, st') =>
          match run sched' st' with
          | None => None
          | Some (tr, st'') => Some ((a, l) :: tr, st'')
          end
      end
  end.

(** No goroutine can move and [buildSitemap] has not returned. *)
Definition deadlocked (st : state) : Prop :=
  (forall a, step a st = None) /\ returned st = None.

(** *** The steps, case by case *)

(** What a worker does on its own. *)
Inductive wcase (m : shared) : wstate -> label -> wstate -> shared -> Prop :=
| wcase_end : closed m = true -> wcase m WIdle LRangeEnd WExit m
| wcase_fail j :
    getAndParseLinks cfg (url j) = None ->
    wcase m (WFetch j) (LFetch j false) (WDone j) m
| wcase_fetch j foundLinks :
    getAndParseLinks cfg (url j) = Some foundLinks ->
    wcase m (WFetch j) (LFetch j true)
          (WLoop j (getBaseURL (url j)) foundLinks) m
| wcase_done j : wcase m (WDone j) LDone WIdle (tasks_Done m)
| wcase_loop_done j base : wcase m (WLoop j base []) LDone WIdle (tasks_Done m)
| wcase_skip j base l rest :
    SeqLoop.candidate cfg base l = None ->
    wcase m (WLoop j base (l :: rest)) (LSkip l) (WLoop j base rest) m
| wcase_loaded j base l rest abs :
    SeqLoop.candidate cfg base l = Some abs -> abs ∈ visited m ->
    wcase m (WLoop j base (l :: rest)) (LLoadOrStore abs true)
          (WLoop j base rest) m
| wcase_stored j base l rest abs :
    SeqLoop.candidate cfg base l = Some abs -> abs ∉ visited m ->
    wcase m (WLoop j base (l :: rest)) (LLoadOrStore abs false)
          (WAppend j base abs rest)
          (mkShared (closed m) (tasks m) ({[abs]} ∪ visited m) (finalURLs m)
                    (panicked m))
| wcase_append j base abs rest :
    wcase m (WAppend j base abs rest) (LAppend abs) (WAdd j base abs rest)
          (mkShared (closed m) (tasks m) (visited m) (finalURLs m ++ [abs])
                    (panicked m))
| wcase_add j base abs rest :
    wcase m (WAdd j base abs rest) LAdd (WSend j base abs rest)
          (mkShared (closed m) (tasks m + 1) (visited m) (finalURLs m)
                    (panicked m))
| wcase_send_panic j base abs rest :
    closed m = true ->
    wcase m (WSend j base abs rest) (LSend (mkJob abs (depth j + 1)))
          (WSend j base abs rest) (panic m).

(** The ways a crawl steps, when nothing panics. *)
Inductive stepped (st : state) : label -> state -> Prop :=
| stepped_seed k :
    seeded st = false -> closed (mem st) = false ->
    workers st !! k = Some WIdle ->
    stepped st (LSend (mkJob (startURL cfg) 0))
      (mkState (mem st) true (closer st)
               (<[k := entered (mkJob (startURL cfg) 0)]> (workers st)))
| stepped_seed_panic :
    seeded st = false -> closed (mem st) = true ->
    stepped st (LSend (mkJob (startURL cfg) 0))
      (mkState (panic (mem st)) true (closer st) (workers st))
| stepped_wait :
    closer st = CWait -> tasks (mem st) = 0 ->
    stepped st LWait (mkState (mem st) (seeded st) CClose (workers st))
| stepped_close :
    closer st = CClose ->
    stepped st LClose
      (mkState (mkShared true (tasks (mem st)) (visited (mem st))
                         (finalURLs (mem st)) (closed (mem st)))
               (seeded st) CExit (workers st))
| stepped_worker i w l w' m' :
    workers st !! i = Some w ->
    worker_step w (mem st) = Some (l, w', m') ->
    stepped st l (mkState m' (seeded st) (closer st) (<[i := w']> (workers st)))
| stepped_hand i k j base abs rest :
    closed (mem st) = false ->
    workers st !! i = Some (WSend j base abs rest) ->
    workers st !! k = Some WIdle ->
    stepped st (LSend (mkJob abs (depth j + 1)))
      (mkState (mem st) (seeded st) (closer st)
               (<[k := entered (mkJob abs (depth j + 1))]>
                  (<[i := WLoop j base rest]> (workers st)))).

(** *** Bookkeeping *)

(** The URL a worker has stored in [visited] and not yet appended. *)
Definition pending_of (w : wstate) : list string :=
  match w with
  | WAppend _ _ abs _ => [abs]
  | _ => []
  end.

Definition pending (ws : list wstate) : list string := flat_map pending_of ws.

(** What a worker adds to the counter of [tasks]: its job, and the job it
    has counted and not yet sent. *)
Definition weight (w : wstate) : nat :=
  match w with
  | WIdle | WExit => 0
  | WSend _ _ _ _ => 2
  | _ => 1
  end.

Definition outstanding (st : state) : nat :=
  (if seeded st then 0 else 1) + sum_list_with weight (workers st).

Definition bookkept (st : state) : Prop :=
  NoDup (finalURLs (mem st) ++ pending (workers st))
  /\ (forall u, u ∈ visited (mem st)
                <-> u ∈ finalURLs (mem st) ++ pending (workers st))
  /\ exists rest, finalURLs (mem st) = startURL cfg :: rest.

Definition counted (st : state) : Prop :=
  tasks (mem st) = Z.of_nat (outstanding st)
  /\ panicked (mem st) = false
  /\ (closer st <> CWait -> tasks (mem st) = 0)
  /\ (closed (mem st) = true <-> closer st = CExit)
  /\ length (workers st) = numWorkers
  /\ (closed (mem st) = false -> Forall (fun w => w <> WExit) (workers st)).

(** The job in the hands of a worker has a depth that is not negative; it
    is below [maxDepth] once the worker has gone past the test. *)
Definition held_ok (w : wstate) : Prop :=
  match w with
  | WIdle | WExit => True
  | WDone j => 0 <= depth j
  | WFetch j | WLoop j _ _ | WAppend j _ _ _ | WAdd j _ _ _
  | WSend j _ _ _ => 0 <= depth j < maxDepth cfg
  end.

Definition fetch_of (e : action * label) : option job :=
  match snd e with
  | LFetch j _ => Some j
  | _ => None
  end.

(** The jobs whose page has been asked for. *)
Definition fetches (tr : list (action * label)) : list job := omap fetch_of tr.

(** *** How long a crawl can be *)

(** The steps that a job for [u] brings about, its own and the ones of the
    jobs that follow from it, with [n] levels to go before [maxDepth]. *)
Fixpoint job_cost (n : nat) (u : string) : nat :=
  match n with
  | O => 1
  | S n' =>
      1 + match getAndParseLinks cfg u with
          | None => 1
          | Some foundLinks =>
              sum_list_with
                (fun l => match SeqLoop.candidate cfg (getBaseURL u) l with
                          | None => 1
                          | Some abs => 4 + job_cost n' abs
                          end)%nat foundLinks + 1
          end
  end.

Definition levels (d : Z) : nat := Z.to_nat (maxDepth cfg - d).

Definition link_cost (n : nat) (base : option URL) (l : Link) : nat :=
  match SeqLoop.candidate cfg base l with
  | None => 1
  | Some abs => 4 + job_cost n abs
  end.

Definition rest_cost (j : job) (base : option URL) (rest : list Link) : nat :=
  sum_list_with (link_cost (levels (depth j + 1)) base) rest.

(** The steps a worker has before it, the last one out of its loop. *)
Definition steps_left (w : wstate) : nat :=
  match w with
  | WIdle => 1
  | WExit => 0
  | WDone _ => 2
  | WFetch j =>
      1 + match getAndParseLinks cfg (url j) with
          | None => 1
          | Some foundLinks => rest_cost j (getBaseURL (url j)) foundLinks + 1
          end + 1
  | WLoop j base rest => rest_cost j base rest + 2
  | WAppend j base abs rest =>
      3 + job_cost (levels (depth j + 1)) abs + rest_cost j base rest + 2
  | WAdd j base abs rest =>
      2 + job_cost (levels (depth j + 1)) abs + rest_cost j base rest + 2
  | WSend j base abs rest =>
      1 + job_cost (levels (depth j + 1)) abs + rest_cost j base rest + 2
  end.

Definition closer_left (c : cstate) : nat :=
  match c with CWait => 2 | CClose => 1 | CExit => 0 end.

(** A number that every step makes smaller. *)
Definition potential (st : state) : nat :=
  (if seeded st then 0 else 1 + job_cost (levels 0) (startURL cfg))
  + closer_left (closer st)
  + sum_list_with steps_left (workers st).

(** More steps than this no crawl makes. *)
Definition crawl_bound : nat := potential init.

(** Every move there is, with ten workers. *)
Definition all_actions : list action :=
  map ASeed (seq 0 numWorkers) ++ [ACloser] ++ map AWorker (seq 0 numWorkers)
  ++ flat_map (fun i => map (AHand i) (seq 0 numWorkers)) (seq 0 numWorkers).

Definition enabled (st : state) : list action :=
  List.filter (fun a => match step a st with Some _ => true | None => false end)
              all_actions.

(** The crawl under the scheduler that lets the first goroutine move that
    can. *)
Fixpoint drive (fuel : nat) (st : state) : state :=
  match fuel with
  | O => st
  | S fuel' =>
      match enabled st with
      | [] => st
      | a :: _ =>
          match step a st with
          | Some (_, st') => drive fuel' st'
          | None => st
          end
      end
  end.

Inductive reaches : state -> state -> Prop :=
| reaches_refl st : reaches st st
| reaches_step st st' a l st'' :
    reaches st st' -> step a st' = Some (l, st'') -> reaches st st''.

End Crawl.

End Unbuffered.

(** ** The XML sitemap

    [generateXMLSitemap] of the worker-pool revision.  [url.ParseRequestURI]
    and [xml.MarshalIndent] are outside the repository and are parameters;
    [None] stands for their errors. *)

Module Sitemap.

Record loc := mkLoc { Value : string }.

Record urlset := mkUrlset { Urls : list loc; Xmlns : string }.

Definition xmlns : string := "http://www.sitemaps.org/schemas/sitemap/0.9".

Definition quote : string := String (ascii_of_nat 34) EmptyString.

Definition newline : string := String (ascii_of_nat 10) EmptyString.

(** [xml.Header]. *)
Definition xml_Header : string :=
  ("<?xml version=" ++ quote ++ "1.0" ++ quote ++ " encoding=" ++ quote
   ++ "UTF-8" ++ quote ++ "?>" ++ newline)%string.

Section Generate.
Variable url_ParseRequestURI : string -> option URL.
Variable xml_MarshalIndent : urlset -> string -> string -> string + string.

(** One round of the loop over [pages], on [toXML.Urls] and [addedUrls]. *)
Definition add_page (st : list loc * gset string) (page : string)
  : list loc * gset string :=
  match url_ParseRequestURI page with
  | None => st
  | Some _ =>
      if bool_decide (page ∈ st.2) then st
      else (st.1 ++ [mkLoc page], {[page]} ∪ st.2)
  end.

(** [toXML] after the loop. *)
Definition toXML (pages : list string) : urlset :=
  mkUrlset (fold_left add_page pages ([], ∅)).1 xmlns.

Definition generateXMLSitemap (pages : list string) : string + string :=
  match xml_MarshalIndent (toXML pages) "" "  " with
  | inr err => inr ("failed to marshal XML: " ++ err)%string
  | inl xmlBytes => inl (xml_Header ++ xmlBytes)%string
  end.

(** The pages that [url.ParseRequestURI] accepts. *)
Definition accepted (pages : list string) : list string :=
  List.filter (fun page => match url_ParseRequestURI page with
                           | Some _ => true
                           | None => false
                           end) pages.

End Generate.

End Sitemap.

(** [generateXMLSitemap] of the sequential revision, which lists every
    page. *)
Module SeqSitemap.
Import Sitemap.

Section Generate.
Variable xml_MarshalIndent : urlset -> string -> string -> string + string.

Definition toXML (pages : list string) : urlset :=
  mkUrlset (fold_left (fun urls page => urls ++ [mkLoc page]) pages []) xmlns.

Definition generateXMLSitemap (pages : list string) : string + string :=
  match xml_MarshalIndent (toXML pages) "" "  " with
  | inr err => inr ("failed to marshal XML: " ++ err)%string
  | inl xmlBytes => inl (xml_Header ++ xmlBytes)%string
  end.

End Generate.

End SeqSitemap.

(** [url.ParseRequestURI] on the URLs of [GoURL]: the unexported [parse]
    with [viaRequest = true], which takes the whole string (it cuts no
    fragment), refuses the empty string and a string that neither starts
    with a slash nor has a scheme, and reads an authority only after a
    scheme. *)
Module GoRequestURI.
Import GoURL.

Definition ParseRequestURI (rawURL : string) : option URL :=
  if negb (all_bytes (fun c => negb (is_ctl c)) rawURL) then None
  else if String.eqb rawURL "" then None
  else if String.eqb rawURL "*" then
    Some {| Scheme := ""; Opaque := ""; User := None; Host := ""; Path := "*";
            RawPath := ""; OmitHost := false; ForceQuery := false;
            RawQuery := ""; Fragment := ""; RawFragment := "" |}
  else
    match getScheme rawURL with
    | None => None
    | Some (scheme0, rest0) =>
        let scheme := ToLower scheme0 in
        let '(rest, force, query) :=
          if HasSuffix rest0 "?" && (count_byte "?" rest0 =? 1)%nat
          then (substring 0 (String.length rest0 - 1) rest0, true, EmptyString)
          else let '(r, q) := Cut "?" rest0 in (r, false, default EmptyString q) in
        if negb (HasPrefix rest "/") then
          if negb (String.eqb scheme "") then
            Some {| Scheme := scheme; Opaque := rest; User := None; Host := "";
                    Path := ""; RawPath := ""; OmitHost := false;
                    ForceQuery := force; RawQuery := query;
                    Fragment := ""; RawFragment := "" |}
          else None
        else
          let authority_form :=
            negb (String.eqb scheme "") && HasPrefix rest "//" in
          let parts :=
            if authority_form then
              let after := substring 2 (String.length rest - 2) rest in
              let '(authority, tail) := Cut "/" after in
              match parseAuthority authority with
              | None => None
              | Some host =>
                  Some (host, match tail with
                              | Some t => String "/" t
                              | None => EmptyString
                              end, false)
              end
            else
              Some (EmptyString, rest, negb (String.eqb scheme "")) in
          match parts with
          | None => None
          | Some (host, path, omit) =>
              if all_bytes plain_byte path then
                Some {| Scheme := scheme; Opaque := ""; User := None;
                        Host := host; Path := path; RawPath := "";
                        OmitHost := omit; ForceQuery := force;
                        RawQuery := query; Fragment := ""; RawFragment := "" |}
              else None
          end
    end.

End GoRequestURI.

(** ** White space in package [strings]

    [strings.TrimSpace] and [strings.Fields] work on the white space
    characters of [unicode.IsSpace]: the bytes 9 to 13 and 32, and in UTF-8
    U+0085, U+00A0, U+1680, U+2000 to U+200A, U+2028, U+2029, U+202F, U+205F
    and U+3000.  The first byte of each is no continuation byte, so each
    occurrence of these byte sequences is a character of the string as Go
    decodes it. *)

Module GoText.

Definition ascii_space (n : nat) : bool :=
  ((9 <=? n) && (n <=? 13) || (n =? 32))%nat.

(** The two-byte white space characters: U+0085 and U+00A0. *)
Definition two_byte (n m : nat) : bool :=
  ((n =? 194) && ((m =? 133) || (m =? 160)))%nat.

(** The three-byte ones: U+1680, U+2000 to U+200A, U+2028, U+2029, U+202F,
    U+205F and U+3000. *)
Definition three_byte (n m k : nat) : bool :=
  ((n =? 225) && (m =? 154) && (k =? 128)
   || (n =? 226) && (m =? 128)
      && ((128 <=? k) && (k <=? 138) || (k =? 168) || (k =? 169) || (k =? 175))
   || (n =? 226) && (m =? 129) && (k =? 159)
   || (n =? 227) && (m =? 128) && (k =? 128))%nat.

(** The length in bytes of the white space character that [s] starts with;
    0 when it starts with none. *)
Definition space_width (s : string) : nat :=
  match s with
  | EmptyString => 0%nat
  | String c s1 =>
      if ascii_space (nat_of_ascii c) then 1%nat
      else
        match s1 with
        | EmptyString => 0%nat
        | String d s2 =>
            if two_byte (nat_of_ascii c) (nat_of_ascii d) then 2%nat
            else
              match s2 with
              | EmptyString => 0%nat
              | String e _ =>
                  if three_byte (nat_of_ascii c) (nat_of_ascii d)
                                (nat_of_ascii e)
                  then 3%nat else 0%nat
              end
        end
  end.

(** A string as Go's loops over its characters see it: its white space
    characters, with their bytes, and its other bytes. *)
Inductive sym :=
| Sp (w : string)
| By (c : ascii).

Fixpoint lex (s : string) : list sym :=
  match s with
  | EmptyString => []
  | String c s1 =>
      match space_width s with
      | 0%nat => By c :: lex s1
      | 1%nat => Sp (String c EmptyString) :: lex s1
      | 2%nat =>
          match s1 with
          | String d s2 => Sp (String c (String d EmptyString)) :: lex s2
          | EmptyString => [By c]
          end
      | _ =>
          match s1 with
          | String d (String e s3) =>
              Sp (String c (String d (String e EmptyString))) :: lex s3
          | _ => [By c]
          end
      end
  end.

Definition sym_bytes (x : sym) : string :=
  match x with
  | Sp w => w
  | By c => String c EmptyString
  end.

Fixpoint unlex (l : list sym) : string :=
  match l with
  | [] => EmptyString
  | x :: l' => (sym_bytes x ++ unlex l')%string
  end.

(** [strings.TrimLeftFunc(s, unicode.IsSpace)], on characters. *)
Fixpoint drop_space (l : list sym) : list sym :=
  match l with
  | Sp _ :: l' => drop_space l'
  | _ => l
  end.

(** [strings.TrimSpace]: the white space characters at both ends go. *)
Definition TrimSpace (s : string) : string :=
  unlex (rev (drop_space (rev (drop_space (lex s))))).

Definition flush (cur : string) : list string :=
  if String.eqb cur "" then [] else [cur].

(** The loop of [strings.FieldsFunc(s, unicode.IsSpace)]; [cur] is the
    field that has begun. *)
Fixpoint fields_of (l : list sym) (cur : string) : list string :=
  match l with
  | [] => flush cur
  | Sp _ :: l' => flush cur ++ fields_of l' EmptyString
  | By c :: l' => fields_of l' (cur ++ String c EmptyString)%string
  end.

(** [strings.Fields]. *)
Definition Fields (s : string) : list string := fields_of (lex s) EmptyString.

(** [strings.Join]. *)
Fixpoint Join (elems : list string) (sep : string) : string :=
  match elems with
  | [] => EmptyString
  | e :: rest =>
      match rest with
      | [] => e
      | _ :: _ => (e ++ sep ++ Join rest sep)%string
      end
  end.

(** No white space character begins anywhere in [s]. *)
Fixpoint spaceless (s : string) : bool :=
  match s with
  | EmptyString => true
  | String _ s' => (space_width s =? 0)%nat && spaceless s'
  end.

(** A word: not empty, and without white space. *)
Definition word (w : string) : Prop := w <> EmptyString /\ spaceless w = true.

(** Bytes 128 to 191, which UTF-8 has after the first byte of a character
    only. *)
Definition continuation (c : ascii) : bool :=
  ((128 <=? nat_of_ascii c) && (nat_of_ascii c <=? 191))%nat.

(** [b] does not start with a continuation byte. *)
Definition starts_clean (b : string) : Prop :=
  match b with
  | EmptyString => True
  | String c _ => continuation c = false
  end.

Definition is_Sp (x : sym) : Prop :=
  match x with Sp _ => True | By _ => False end.

(** The characters of words joined by single spaces. *)
Fixpoint symbols (ws : list string) : list sym :=
  match ws with
  | [] => []
  | w :: rest =>
      match rest with
      | [] => map By (list_ascii_of_string w)
      | _ :: _ => map By (list_ascii_of_string w) ++ Sp " " :: symbols rest
      end
  end.

End GoText.

(** ** Package [golang.org/x/net/html]: the node tree

    Of a node the package [link] reads the type, the data, the attributes
    and the children, from [FirstChild] along [NextSibling]. *)

Module Html.

Inductive NodeType :=
| ErrorNode
| TextNode
| DocumentNode
| ElementNode
| CommentNode
| DoctypeNode
| RawNode.

Record Attribute := mkAttribute {
  Namespace : string;
  Key : string;
  Val : string
}.

Inductive Node :=
| mkNode (type : NodeType) (data : string) (attr : list Attribute)
         (children : list Node).

Definition Type_ (n : Node) : NodeType :=
  match n with mkNode type _ _ _ => type end.

Definition Data (n : Node) : string :=
  match n with mkNode _ data _ _ => data end.

Definition Attr (n : Node) : list Attribute :=
  match n with mkNode _ _ attr _ => attr end.

Definition Children (n : Node) : list Node :=
  match n with mkNode _ _ _ children => children end.

End Html.

(** ** Package [link]

    A Go slice is [None] when it is nil. *)

Module LinkPkg.
Import Html GoText.

Definition slice (A : Type) : Type := option (list A).

Definition elems {A : Type} (s : slice A) : list A := default [] s.

(** [append(s, xs...)]: with nothing to append it returns [s], nil or
    not. *)
Definition append_ {A : Type} (s : slice A) (xs : list A) : slice A :=
  match xs with
  | [] => s
  | _ :: _ => Some (elems s ++ xs)
  end.

(** A slice built by [append] from nil is nil until something is
    appended. *)
Definition proper {A : Type} (s : slice A) : Prop := s <> Some [].

Definition is_anchor (n : Node) : bool :=
  match Type_ n with
  | ElementNode => String.eqb (Data n) "a"
  | _ => false
  end.

(** [linkNodes]: the [<a>] nodes of the tree, depth first; the search does
    not go below an [<a>] node. *)
Fixpoint linkNodes (n : Node) : slice Node :=
  match n with
  | mkNode type data attr children =>
      if is_anchor (mkNode type data attr children)
      then Some [mkNode type data attr children]
      else
        fold_left (fun nodes c => append_ nodes (elems (linkNodes c)))
                  children None
  end.

(** One round of the loop of [extractText] on the builder [sb]. *)
Definition write_text (sb extracted : string) : string :=
  if String.eqb extracted "" then sb
  else ((if (0 <? String.length sb)%nat then sb ++ " " else sb)
        ++ extracted)%string.

(** [extractText]. *)
Fixpoint extractText (n : Node) : string :=
  match n with
  | mkNode type data attr children =>
      match type with
      | TextNode => TrimSpace data
      | ElementNode =>
          let sb :=
            fold_left (fun sb c => write_text sb (extractText c))
                      children EmptyString in
          Join (Fields sb) " "
      | _ => EmptyString
      end
  end.

(** The loop over the attributes in [buildLink]. *)
Fixpoint href_of (attrs : list Attribute) : string :=
  match attrs with
  | [] => EmptyString
  | attr :: rest =>
      if String.eqb (Key attr) "href" then Val attr else href_of rest
  end.

(** [buildLink]. *)
Definition buildLink (n : Node) : Link :=
  mkLink (href_of (Attr n)) (extractText n).

(** [Parse], after [html.Parse]. *)
Definition links_of (doc : Node) : slice Link :=
  fold_left (fun links node => append_ links [buildLink node])
            (elems (linkNodes doc)) None.

Section Parse.
Variable Reader : Type.
Variable html_Parse : Reader -> option Node.

(** [Parse]; [None] is the error of [html.Parse]. *)
Definition Parse (r : Reader) : option (slice Link) :=
  match html_Parse r with
  | None => None
  | Some doc => Some (links_of doc)
  end.

End Parse.

#[global] Instance Link_eq_dec : EqDecision Link.
Proof. solve_decision. Defined.

(** [reflect.DeepEqual] on two slices of [Link]: a nil slice and an empty
    slice that is not nil are not deeply equal. *)
Definition DeepEqual (a b : slice Link) : bool :=
  match a, b with
  | None, None => true
  | Some x, Some y => bool_decide (x = y)
  | _, _ => false
  end.

(** The outermost [<a>] nodes, in the order of the document. *)
Fixpoint anchors (n : Node) : list Node :=
  match n with
  | mkNode type data attr children =>
      if is_anchor (mkNode type data attr children)
      then [mkNode type data attr children]
      else flat_map anchors children
  end.

(** The words of the text nodes below a node, in the order of the
    document; what is below a node that is neither an element nor a text
    does not count. *)
Fixpoint node_words (n : Node) : list string :=
  match n with
  | mkNode type data attr children =>
      match type with
      | TextNode => Fields data
      | ElementNode => flat_map node_words children
      | _ => []
      end
  end.

End LinkPkg.

(** ** [getAndParseLinks]

    The HTTP client and [html.Parse] are parameters: [http_Get] is
    [client.Get], with [None] for its error; of the response the function
    reads the status code, the [Content-Type] header and the body. *)

Module Fetch.
Import Html LinkPkg.

Record Response (Reader : Type) := mkResponse {
  StatusCode : Z;
  ContentType : string;
  Body : Reader
}.

Arguments mkResponse {Reader}.
Arguments StatusCode {Reader}.
Arguments ContentType {Reader}.
Arguments Body {Reader}.

(** The four errors of [getAndParseLinks]. *)
Inductive fetch_error :=
| FailedGet
| NonOK (code : Z)
| NotHTML (contentType : string)
| FailedParse.

Section GetAndParse.
Variable Reader : Type.
Variable http_Get : string -> option (Response Reader).
Variable html_Parse : Reader -> option Node.

Definition getAndParseLinks (urlStr : string) : slice Link + fetch_error :=
  match http_Get urlStr with
  | None => inr FailedGet
  | Some resp =>
      if (StatusCode resp <? 200) || (StatusCode resp >=? 300)
      then inr (NonOK (StatusCode resp))
      else if negb (HasPrefix (ToLower (ContentType resp)) "text/html")
      then inr (NotHTML (ContentType resp))
      else
        match Parse Reader html_Parse (Body resp) with
        | None => inr FailedParse
        | Some links => inl links
        end
  end.

(** What the worker does with the result: [err != nil] or a range over the
    links. *)
Definition found_links (urlStr : string) : option (list Link) :=
  match getAndParseLinks urlStr with
  | inl links => Some (elems links)
  | inr _ => None
  end.

(** [buildSitemap] of the worker-pool revision on this
    [getAndParseLinks]. *)
Definition crawl_config (startURL : string) (maxDepth : Z) (numWorkers : nat)
  : Pool.config :=
  Pool.mkConfig startURL maxDepth numWorkers found_links.

End GetAndParse.

End Fetch.

(** ** Further sites and documents used in the scenarios *)

Module Samples.
Import Html LinkPkg Fetch Sitemap.

(** The styled site with no worker, and with a depth of one. *)
Definition idle_pool : Pool.config :=
  Pool.mkConfig "http://h/" 3 0 Sites.styled.

Definition shallow_pool : Pool.config :=
  Pool.mkConfig "http://h/" 1 2 Sites.styled.

Definition text (data : string) : Node := mkNode TextNode data [] [].

Definition element (tag : string) (attr : list Attribute)
  (children : list Node) : Node :=
  mkNode ElementNode tag attr children.

(** An anchor whose text is spread over three nodes, with white space
    around the words and a line break at the end. *)
Definition about_anchor : Node :=
  element "a" [mkAttribute "" "class" "nav"; mkAttribute "" "href" "/about"]
    [text "  About "; element "b" [] [text "this"];
     text (" site" ++ newline)%string].

(** A page with one link, and a page with none. *)
Definition home_doc : Node :=
  mkNode DocumentNode "" []
    [element "html" []
       [element "head" [] [];
        element "body" [] [element "p" [] [text "Welcome. "; about_anchor]]]].

Definition about_doc : Node :=
  mkNode DocumentNode "" []
    [element "html" []
       [element "head" [] [];
        element "body" [] [mkNode CommentNode " <a href=/x>x</a> " [] []]]].

(** A web of two pages; the body of a response is its document, which
    [html.Parse] has only to hand over. *)
Definition web (u : string) : option (Response Node) :=
  if String.eqb u "http://h/"
  then Some (mkResponse 200 "text/html; charset=utf-8" home_doc)
  else if String.eqb u "http://h/about"
  then Some (mkResponse 200 "Text/HTML" about_doc)
  else None.

Definition web_pool : Pool.config :=
  crawl_config Node web Some "http://h/" 3 1.

Definition web_schedule : list Pool.action :=
  Pool.ASeed :: Sites.worker 0 10 ++ Sites.close_and_leave [0%nat].

(** A stand-in for [xml.MarshalIndent] on a [urlset] of URLs that XML
    writes as they are; on the others it answers with an error, which Go
    does not. *)
Definition xml_plain (c : ascii) : bool :=
  let n := nat_of_ascii c in
  ((32 <=? n) && (n <? 127))%nat
  && negb (GoURL.byte_in "&<>'" c) && negb (Ascii.eqb c (ascii_of_nat 34)).

Definition marshal_loc (prefix indent : string) (l : loc) : string :=
  (newline ++ prefix ++ indent ++ "<url>"
   ++ newline ++ prefix ++ indent ++ indent ++ "<loc>" ++ Value l ++ "</loc>"
   ++ newline ++ prefix ++ indent ++ "</url>")%string.

Definition marshal (v : urlset) (prefix indent : string) : string + string :=
  if forallb (fun l => GoURL.all_bytes xml_plain (Value l)) (Urls v)
  then
    inl (prefix ++ "<urlset xmlns=" ++ quote ++ Xmlns v ++ quote ++ ">"
         ++ fold_right (fun l s => marshal_loc prefix indent l ++ s)
              (match Urls v with
               | [] => EmptyString
               | _ :: _ => newline ++ prefix
               end ++ "</urlset>") (Urls v))%string
  else inr "unsupported character".

(** A page with ten links, each to a page with a link of its own: work for
    more than ten workers at a time. *)
Definition fan (u : string) : option (list Link) :=
  if String.eqb u "http://h/"
  then Sites.page ["/1"; "/2"; "/3"; "/4"; "/5"; "/6"; "/7"; "/8"; "/9"; "/10"]
  else Sites.page [(u ++ "/x")%string].

Definition fan_first : Seq.config := Seq.mkConfig "http://h/" 3 fan.

(** The first worker hands nine pages to the other workers and comes to
    the send of the tenth; the others come to the send of what their page
    links to. *)
Definition fan_schedule : list Unbuffered.action :=
  [Unbuffered.ASeed 0; Unbuffered.AWorker 0]
  ++ flat_map (fun k => replicate 3 (Unbuffered.AWorker 0)
                        ++ [Unbuffered.AHand 0 k]) (seq 1 9)
  ++ replicate 3 (Unbuffered.AWorker 0)
  ++ flat_map (fun k => replicate 4 (Unbuffered.AWorker k)) (seq 1 9).

(** The chain with a depth of zero. *)
Definition flat_first : Seq.config := Seq.mkConfig "http://h/a" 0 Sites.chain.

Definition flat_schedule : list Unbuffered.action :=
  [Unbuffered.ASeed 0; Unbuffered.AWorker 0; Unbuffered.ACloser;
   Unbuffered.ACloser]
  ++ map Unbuffered.AWorker (seq 0 10).

End Samples.

(** * Facts about [strings] *)

Section StringFacts.

Lemma lower_byte_fixes (c d : ascii) :
  caseless d = true -> lower_byte c = d -> c = d.
Proof.
  intros Hd <-. unfold lower_byte in *.
  destruct (is_upper c) eqn:Hc; [|reflexivity].
  exfalso. revert Hc Hd.
  destruct c as [[] [] [] [] [] [] [] []]; vm_compute; congruence.
Qed.

Lemma lower_byte_keeps (c : ascii) : caseless c = true -> lower_byte c = c.
Proof.
  intros H. unfold lower_byte. unfold caseless in H.
  destruct (is_upper c); [discriminate | reflexivity].
Qed.

Lemma eqb_lower_byte (c d : ascii) :
  caseless d = true -> Ascii.eqb d (lower_byte c) = Ascii.eqb d c.
Proof.
  intros Hd. destruct (Ascii.eqb_spec d c) as [->|Hne].
  - rewrite lower_byte_keeps by assumption. apply Ascii.eqb_refl.
  - apply Ascii.eqb_neq. intros Heq. apply Hne. symmetry.
    now apply lower_byte_fixes.
Qed.

(** A one-byte prefix that is no letter is seen through [ToLower]. *)
Lemma HasPrefix_ToLower_byte (s : string) (c : ascii) :
  caseless c = true ->
  HasPrefix (ToLower s) (String c EmptyString) = HasPrefix s (String c EmptyString).
Proof.
  intros Hc. destruct s as [|b s]; simpl; [reflexivity|].
  rewrite eqb_lower_byte by assumption.
  destruct (Ascii.eqb c b); [now destruct s | reflexivity].
Qed.

Lemma Contains_ToLower_byte (s : string) (c : ascii) :
  caseless c = true ->
  Contains (ToLower s) (String c EmptyString) = Contains s (String c EmptyString).
Proof.
  intros Hc. induction s as [|b s IH]; [reflexivity|].
  cbn [ToLower Contains]. rewrite IH. f_equal.
  change (String (lower_byte b) (ToLower s)) with (ToLower (String b s)).
  now apply HasPrefix_ToLower_byte.
Qed.

Lemma HasPrefix_cons (s : string) (c : ascii) (p : string) :
  HasPrefix s (String c p) = true ->
  exists s', s = String c s' /\ HasPrefix s' p = true.
Proof.
  destruct s as [|b s]; simpl; [discriminate|].
  destruct (Ascii.eqb_spec c b) as [->|]; [eauto | discriminate].
Qed.

Lemma HasPrefix_Contains (s p : string) : HasPrefix s p = true -> Contains s p = true.
Proof. intros H. destruct s; simpl in *; rewrite H; reflexivity. Qed.




(** A colon before the first slash is a colon of the href, and the href
    does not start with a slash. *)
Lemma colonBeforeSlash_Contains (href : string) :
  colonBeforeSlash href = true ->
  Contains href ":" = true /\ HasPrefix href "/" = false.
Proof.
  unfold colonBeforeSlash. induction href as [|c s IH]; [discriminate|].
  cbn [GoURL.Cut]. destruct (Ascii.eqb_spec c "/") as [->|Hne].
  - discriminate.
  - destruct (GoURL.Cut "/" s) as [before after]. cbn [fst] in *.
    assert (Hslash : Ascii.eqb "/" c = false)
      by (apply Ascii.eqb_neq; congruence).
    cbn [Contains HasPrefix]. rewrite Hslash.
    intros H. split; [|reflexivity].
    apply orb_true_iff in H as [H|H].
    + cbn [HasPrefix] in H.
      destruct (Ascii.eqb ":" c); [|discriminate H].
      now destruct s.
    + destruct (IH H) as [-> _]. apply orb_true_r.
Qed.

Lemma HasPrefix_slash_slash (href : string) :
  HasPrefix href "/" = false -> HasPrefix href "//" = false.
Proof.
  destruct href as [|c s]; [reflexivity|]. cbn [HasPrefix].
  destruct (Ascii.eqb "/" c); [|reflexivity].
  intros H. destruct s; discriminate H.
Qed.

(** A prefix that holds a colon puts it in the string. *)
Lemma prefix_colon (l p : string) :
  HasPrefix l p = true -> Contains p ":" = true -> Contains l ":" = true.
Proof.
  revert l. induction p as [|c p IH]; intros l Hp Hin.
  - discriminate Hin.
  - apply HasPrefix_cons in Hp as (l' & -> & Hp).
    cbn [Contains] in Hin |- *. apply orb_true_iff in Hin as [Hin|Hin].
    + cbn [HasPrefix] in Hin |- *.
      destruct (Ascii.eqb ":" c); [|discriminate Hin]. now destruct l'.
    + rewrite (IH l' Hp Hin). apply orb_true_r.
Qed.

(** Two prefixes of one string agree on their first four bytes. *)
Lemma prefix_not_http (l p : string) :
  HasPrefix l p = true -> (4 <= String.length p)%nat ->
  HasPrefix p "http" = false -> HasPrefix l "http" = false.
Proof.
  intros Hp Hlen Hno.
  destruct (HasPrefix l "http") eqn:Hl; [|reflexivity].
  exfalso. revert p Hp Hlen Hno.
  repeat (apply HasPrefix_cons in Hl as (? & -> & Hl)).
  intros p Hp Hlen Hno.
  destruct p as [|c1 p]; [cbn in Hlen; lia|].
  apply HasPrefix_cons in Hp as (? & Heq & Hp). injection Heq as <- <-.
  destruct p as [|c2 p]; [cbn in Hlen; lia|].
  apply HasPrefix_cons in Hp as (? & Heq & Hp). injection Heq as <- <-.
  destruct p as [|c3 p]; [cbn in Hlen; lia|].
  apply HasPrefix_cons in Hp as (? & Heq & Hp). injection Heq as <- <-.
  destruct p as [|c4 p]; [cbn in Hlen; lia|].
  apply HasPrefix_cons in Hp as (? & Heq & Hp). injection Heq as <- <-.
  simpl in Hno. destruct p; discriminate Hno.
Qed.

Lemma longer_prefix (l p q : string) :
  HasPrefix l p = false -> HasPrefix l (p ++ q) = false.
Proof.
  revert l. induction p as [|a p IH]; intros l Hl.
  - now destruct l.
  - change (String a p +:+ q) with (String a (p +:+ q)).
    destruct l as [|b l]; [reflexivity|]. cbn [HasPrefix] in *.
    destruct (Ascii.eqb a b); [auto | reflexivity].
Qed.

End StringFacts.

(** * The URL policy of the worker-pool revision *)

Section PolicyFacts.
Context {net : NetURL}.

Lemma resolveURL_rejected (base : option URL) (href text : string) :
  HasPrefix href "//" = false ->
  rejectedHref (ToLower href) = true ->
  resolveURL base (mkLink href text) = "".
Proof.
  intros Hrel Hrej. unfold resolveURL. cbn [Href].
  destruct base as [base|]; [|reflexivity].
  destruct (String.eqb href ""); [reflexivity|].
  rewrite Hrel, Hrej. reflexivity.
Qed.

(** The guard in terms of the href itself: a leading [#], or a colon
    anywhere in an href that does not start with [http:] or [https:]. *)
Lemma rejectedHref_eq (l : string) :
  rejectedHref l =
  HasPrefix l "#" ||
  (Contains l ":" && negb (HasPrefix l "http:") && negb (HasPrefix l "https:")).
Proof.
  unfold rejectedHref.
  destruct (HasPrefix l "#"); [reflexivity|]. cbn [orb].
  assert (Hexcl : forall p : string,
             HasPrefix l p = true -> Contains p ":" = true ->
             (4 <= String.length p)%nat -> HasPrefix p "http" = false ->
             Contains l ":" && negb (HasPrefix l "http:")
               && negb (HasPrefix l "https:") = true).
  { intros p Hp Hin Hlen Hno.
    pose proof (prefix_not_http l p Hp Hlen Hno) as Hh.
    rewrite (prefix_colon l p Hp Hin).
    pose proof (longer_prefix l "http" ":" Hh) as H5.
    pose proof (longer_prefix l "http" "s:" Hh) as H6.
    change ("http" +:+ ":") with "http:" in H5.
    change ("http" +:+ "s:") with "https:" in H6.
    rewrite H5, H6. reflexivity. }
  destruct (HasPrefix l "mailto:") eqn:H1.
  { symmetry. apply (Hexcl "mailto:"); auto; cbn; lia. }
  destruct (HasPrefix l "javascript:") eqn:H2.
  { symmetry. apply (Hexcl "javascript:"); auto; cbn; lia. }
  destruct (HasPrefix l "tel:") eqn:H3.
  { symmetry. apply (Hexcl "tel:"); auto; cbn; lia. }
  destruct (HasPrefix l "data:") eqn:H4.
  { symmetry. apply (Hexcl "data:"); auto; cbn; lia. }
  reflexivity.
Qed.

Lemma rejectedHref_colon (href : string) :
  rejectedHref (ToLower href) =
  HasPrefix href "#" ||
  (Contains href ":" && negb (HasPrefix (ToLower href) "http:")
     && negb (HasPrefix (ToLower href) "https:")).
Proof.
  rewrite rejectedHref_eq.
  rewrite (HasPrefix_ToLower_byte href "#") by reflexivity.
  rewrite (Contains_ToLower_byte href ":") by reflexivity.
  reflexivity.
Qed.

(** A lowered href that starts with a byte other than a slash is not
    protocol-relative. *)
Lemma lowered_prefix_not_relative (href : string) (c : ascii) (p : string) :
  HasPrefix (ToLower href) (String c p) = true -> c <> "/"%char ->
  HasPrefix href "//" = false.
Proof.
  intros Hp Hc. destruct (HasPrefix href "//") eqn:E; [exfalso|reflexivity].
  apply HasPrefix_cons in E as (s' & -> & _).
  apply HasPrefix_cons in Hp as (l' & Heq & _).
  change (ToLower (String "/" s')) with (String "/" (ToLower s')) in Heq.
  injection Heq as Heq _. congruence.
Qed.

Lemma rejected_prefix (href p : string) :
  HasPrefix (ToLower href) p = true ->
  In p ["mailto:"; "javascript:"; "tel:"; "data:"] ->
  rejectedHref (ToLower href) = true.
Proof.
  intros Hp Hin. unfold rejectedHref.
  cbn [In] in Hin. destruct Hin as [<-|[<-|[<-|[<-|[]]]]]; rewrite Hp;
    rewrite ?orb_true_r; reflexivity.
Qed.

(** C7, as amended: [resolveURL] is absent for an href whose lowered form
    starts with [mailto:], [javascript:], [tel:] or [data:], for an href that
    starts with [#], and for an href with a colon before its first slash that
    does not start with [http:] or [https:]; an href whose colons all come
    after the first slash is absent by the same guard, unless it starts with
    [//], [http:] or [https:]. *)
Theorem resolveURL_rejects_colon (base : option URL) (href text : string) :
  (((exists p, In p ["mailto:"; "javascript:"; "tel:"; "data:"]
                /\ HasPrefix (ToLower href) p = true)
    \/ HasPrefix href "#" = true) ->
   resolveURL base (mkLink href text) = "")
  /\ (colonBeforeSlash href = true ->
      HasPrefix (ToLower href) "http:" = false ->
      HasPrefix (ToLower href) "https:" = false ->
      resolveURL base (mkLink href text) = "")
  /\ (colonOnlyAfterSlash href = true ->
      HasPrefix href "//" = false ->
      HasPrefix (ToLower href) "http:" = false ->
      HasPrefix (ToLower href) "https:" = false ->
      resolveURL base (mkLink href text) = "").
Proof.
  split; [|split].
  - intros [Hin|Hhash].
    + destruct Hin as (p & Hin & Hp).
      apply resolveURL_rejected.
      * cbn [In] in Hin.
        destruct Hin as [<-|[<-|[<-|[<-|[]]]]];
          eapply lowered_prefix_not_relative; try exact Hp; discriminate.
      * eapply rejected_prefix; eauto.
    + apply resolveURL_rejected.
      * apply HasPrefix_cons in Hhash as (s' & -> & _). reflexivity.
      * rewrite rejectedHref_colon, Hhash. reflexivity.
  - intros Hcolon Hhttp Hhttps.
    apply colonBeforeSlash_Contains in Hcolon as [Hc Hs].
    apply resolveURL_rejected; [now apply HasPrefix_slash_slash|].
    rewrite rejectedHref_colon, Hc, Hhttp, Hhttps. apply orb_true_r.
  - intros Hcolon Hrel Hhttp Hhttps.
    unfold colonOnlyAfterSlash in Hcolon.
    apply andb_true_iff in Hcolon as [Hc _].
    apply resolveURL_rejected; [assumption|].
    rewrite rejectedHref_colon, Hc, Hhttp, Hhttps. apply orb_true_r.
Qed.


End PolicyFacts.

(** Witnesses and counterexamples of the policy, on [GoURL]. *)

Lemma resolveURL_rejects_colon_witness :
  @resolveURL GoURL.go (GoURL.Parse "http://h/") (mkLink "mailto:x@y.com" "") = ""
  /\ @resolveURL GoURL.go (GoURL.Parse "http://h/") (mkLink "ftp://h/x" "") = ""
  /\ @resolveURL GoURL.go (GoURL.Parse "http://h/") (mkLink "/a:b" "") = "".
Proof.
  split; [|split].
  - apply (proj1 (@resolveURL_rejects_colon GoURL.go
                    (GoURL.Parse "http://h/") "mailto:x@y.com" "")).
    left. exists "mailto:". split; [left|]; reflexivity.
  - apply (proj1 (proj2 (@resolveURL_rejects_colon GoURL.go
                           (GoURL.Parse "http://h/") "ftp://h/x" "")));
      reflexivity.
  - apply (proj2 (proj2 (@resolveURL_rejects_colon GoURL.go
                           (GoURL.Parse "http://h/") "/a:b" "")));
      reflexivity.
Defined.

(** The href [/a:b] has its only colon after the first slash; the guard
    rejects it, and without the guard it would resolve. *)
Lemma colon_after_slash_rejected :
  colonOnlyAfterSlash "/a:b" = true
  /\ rejectedHref (ToLower "/a:b") = true
  /\ @resolveURL GoURL.go (GoURL.Parse "http://h/") (mkLink "/a:b" "") = ""
  /\ option_map (fun base => @resolveAccepted GoURL.go base "/a:b")
       (GoURL.Parse "http://h/") = Some "http://h/a:b".
Proof. repeat split; vm_compute; reflexivity. Qed.



(** The sequential revision lets [data:] through, and a colon after the
    first slash. *)
Lemma seq_resolveURL_keeps_data :
  @Seq.resolveURL GoURL.go (GoURL.Parse "http://h/") (mkLink "data:text/plain,hi" "")
  = "data:text/plain,hi"
  /\ @Seq.resolveURL GoURL.go (GoURL.Parse "http://h/") (mkLink "/a:b" "")
     = "http://h/a:b".
Proof. split; reflexivity. Qed.

(** * Executions of the worker pool *)

Section ExecFacts.
Context {net : NetURL}.
Variable cfg : config.

Lemma split_insert (ws : list wstate) (i : nat) (w w' : wstate) :
  ws !! i = Some w ->
  exists l1 l2 : list wstate,
    ws = (l1 ++ w :: l2)%list /\ <[i := w']> ws = (l1 ++ w' :: l2)%list.
Proof.
  intros Hi. exists (take i ws), (drop (S i) ws). split.
  - symmetry. now apply take_drop_middle.
  - apply insert_take_drop. eapply lookup_lt_Some; eauto.
Qed.

(** The four ways a crawl steps. *)
Lemma step_inv (a : action) (st : state) (l : label) (st' : state) :
  step cfg a st = Some (l, st') ->
  panicked (mem st) = false /\
  ((a = ASeed /\ seeded st = false /\ l = LSend (mkJob (startURL cfg) 0) /\
    exists m', jobs_send cfg (mkJob (startURL cfg) 0) (mem st) = Some m' /\
               st' = mkState m' true (closer st) (workers st))
   \/ (a = ACloser /\ closer st = CWait /\ tasks (mem st) = 0 /\ l = LWait /\
       st' = mkState (mem st) (seeded st) CClose (workers st))
   \/ (a = ACloser /\ closer st = CClose /\ l = LClose /\
       st' = mkState (mkShared (jobs (mem st)) true (tasks (mem st))
                               (visited (mem st)) (finalURLs (mem st))
                               (closed (mem st)))
                     (seeded st) CExit (workers st))
   \/ (exists i w w' m',
         a = AWorker i /\ workers st !! i = Some w /\
         worker_step cfg w (mem st) = Some (l, w', m') /\
         st' = mkState m' (seeded st) (closer st) (<[i := w']> (workers st)))).
Proof.
  unfold step. intros H.
  destruct (panicked (mem st)); [discriminate|]. split; [reflexivity|].
  destruct a as [| |i].
  - left. destruct (seeded st); [discriminate|].
    destruct (jobs_send cfg _ (mem st)) as [m'|] eqn:Hs; [|discriminate].
    injection H as <- <-. eauto 10.
  - right. destruct (closer st); [left|right; left|discriminate].
    + destruct (tasks (mem st) =? 0) eqn:Ht; [|discriminate].
      injection H as <- <-. apply Z.eqb_eq in Ht. auto.
    + injection H as <- <-. auto.
  - right. right. right.
    destruct (workers st !! i) as [w|] eqn:Hw; [|discriminate].
    destruct (worker_step cfg w (mem st)) as [[[l0 w'] m']|] eqn:Hs;
      [|discriminate].
    injection H as <- <-. eauto 10.
Qed.

Lemma exec_inv (P : list (action * label) -> state -> Prop) :
  P [] (init cfg) ->
  (forall tr st a l st',
      exec cfg tr st -> P tr st -> step cfg a st = Some (l, st') ->
      P (tr ++ [(a, l)]) st') ->
  forall tr st, exec cfg tr st -> P tr st.
Proof. intros H0 Hs tr st H. induction H; eauto. Qed.

Lemma worker_step_case (w : wstate) (m : shared) l w' m' :
  worker_step cfg w m = Some (l, w', m') -> wcase cfg m w l w' m'.
Proof.
  intros H. destruct w; cbn [worker_step] in H.
  - destruct (jobs m) as [|j q] eqn:Hj.
    + destruct (closed m) eqn:Hc; [|discriminate].
      injection H as <- <- <-. now constructor.
    + injection H as <- <- <-. now constructor.
  - destruct (fetched cfg j) as [ok w0] eqn:Hf. injection H as <- <- <-.
    now constructor.
  - injection H as <- <- <-. constructor.
  - destruct rest as [|l0 rest]; [injection H as <- <- <-; constructor|].
    destruct (examine cfg base l0) as [| | | |abs] eqn:He;
      try (injection H as <- <- <-; constructor; congruence).
    destruct (bool_decide (abs ∈ visited m)) eqn:Hv; injection H as <- <- <-.
    + apply bool_decide_eq_true in Hv. now constructor.
    + apply bool_decide_eq_false in Hv. now constructor.
  - injection H as <- <- <-. constructor.
  - injection H as <- <- <-. constructor.
  - destruct (jobs_send cfg _ m) as [m0|] eqn:Hs; [|discriminate].
    injection H as <- <- <-. now constructor.
  - discriminate.
Qed.

Lemma wcase_step (w : wstate) (m : shared) l w' m' :
  wcase cfg m w l w' m' -> worker_step cfg w m = Some (l, w', m').
Proof.
  intros H. destruct H; cbn [worker_step];
    rewrite ?H, ?H0; try reflexivity.
  - destruct (examine cfg base l) as [| | | |abs]; try reflexivity;
      [contradiction | exfalso; eapply H; reflexivity].
  - rewrite bool_decide_eq_true_2 by assumption. reflexivity.
  - rewrite bool_decide_eq_false_2 by assumption. reflexivity.
Qed.

(** What a send does to the memory. *)
Lemma jobs_send_cases (j : job) (m m' : shared) :
  jobs_send cfg j m = Some m' ->
  (closed m = true /\
   m' = mkShared (jobs m) (closed m) (tasks m) (visited m) (finalURLs m) true)
  \/ (closed m = false /\ (length (jobs m) < numWorkers cfg)%nat /\
      m' = mkShared (jobs m ++ [j]) (closed m) (tasks m) (visited m)
                    (finalURLs m) (panicked m)).
Proof.
  unfold jobs_send. intros H. destruct (closed m); [left; now injection H as <-|].
  right. destruct (length (jobs m) <? numWorkers cfg)%nat eqn:Hl; [|discriminate].
  apply Nat.ltb_lt in Hl. injection H as <-. auto.
Qed.

Lemma jobs_send_mem (j : job) (m m' : shared) :
  jobs_send cfg j m = Some m' ->
  finalURLs m' = finalURLs m /\ visited m' = visited m /\ tasks m' = tasks m
  /\ closed m' = closed m.
Proof.
  unfold jobs_send. intros H.
  destruct (closed m); [injection H as <-; auto|].
  destruct (length (jobs m) <? numWorkers cfg)%nat; [|discriminate].
  injection H as <-. auto.
Qed.

Lemma tasks_Done_mem (m : shared) :
  finalURLs (tasks_Done m) = finalURLs m /\ visited (tasks_Done m) = visited m
  /\ jobs (tasks_Done m) = jobs m /\ closed (tasks_Done m) = closed m.
Proof. unfold tasks_Done. destruct (tasks m <=? 0); auto. Qed.

(** What [fetched] hands to the worker. *)
Lemma fetched_cases (j : job) (ok : bool) (w' : wstate) :
  fetched cfg j = (ok, w') ->
  (w' = WDone j /\
   (ok = false /\ getAndParseLinks cfg (url j) = None
    \/ ok = true /\ is_Some (getAndParseLinks cfg (url j))
       /\ (depth j + 1 >= maxDepth cfg \/ getBaseURL (url j) = None)))
  \/ (exists base foundLinks,
         ok = true /\ w' = WLoop j base foundLinks /\
         getAndParseLinks cfg (url j) = Some foundLinks /\
         depth j + 1 < maxDepth cfg /\ getBaseURL (url j) = Some base).
Proof.
  unfold fetched. intros H.
  destruct (getAndParseLinks cfg (url j)) as [foundLinks|].
  - destruct (depth j + 1 >=? maxDepth cfg) eqn:Hd.
    + injection H as <- <-. left. split; [reflexivity|]. right.
      repeat split; eauto. left. lia.
    + destruct (getBaseURL (url j)) as [base|] eqn:Hb; injection H as <- <-.
      * right. exists base, foundLinks. repeat split; auto. lia.
      * left. split; [reflexivity|]. right. repeat split; eauto.
  - injection H as <- <-. left. auto.
Qed.

Lemma run_exec (sched : list action) :
  forall tr0 st0 tr st,
    exec cfg tr0 st0 -> run cfg sched st0 = Some (tr, st) ->
    exec cfg (tr0 ++ tr) st.
Proof.
  induction sched as [|a sched IH]; intros tr0 st0 tr st H0 Hrun; cbn in Hrun.
  - injection Hrun as <- <-. now rewrite app_nil_r.
  - destruct (step cfg a st0) as [[l st1]|] eqn:Hstep; [|discriminate].
    destruct (run cfg sched st1) as [[tr1 st2]|] eqn:Hrest; [|discriminate].
    injection Hrun as <- <-.
    replace (tr0 ++ (a, l) :: tr1) with ((tr0 ++ [(a, l)]) ++ tr1)
      by now rewrite <- app_assoc.
    eapply IH; [|eassumption]. econstructor; eassumption.
Qed.

Lemma run_reachable (sched : list action) tr st :
  run cfg sched (init cfg) = Some (tr, st) -> reachable cfg st.
Proof.
  intros H. exists ([] ++ tr). eapply run_exec; [constructor | eassumption].
Qed.

Lemma final_reachable (sched : list action) st :
  final cfg sched = Some st -> reachable cfg st.
Proof.
  unfold final. destruct (run cfg sched (init cfg)) as [[tr st0]|] eqn:Hrun;
    [|discriminate].
  intros H. injection H as <-. eapply run_reachable; eauto.
Qed.

Lemma reaches_head a st l st' st'' :
  step cfg a st = Some (l, st') -> reaches cfg st' st'' -> reaches cfg st st''.
Proof.
  intros Hstep H. induction H as [st'|st' st1 b l1 st2 _ IH Hnext].
  - econstructor; [constructor | eassumption].
  - econstructor; [exact (IH Hstep) | eassumption].
Qed.

Lemma run_reaches (sched : list action) :
  forall st0 tr st, run cfg sched st0 = Some (tr, st) -> reaches cfg st0 st.
Proof.
  induction sched as [|a sched IH]; intros st0 tr st Hrun; cbn in Hrun.
  - injection Hrun as <- <-. constructor.
  - destruct (step cfg a st0) as [[l st1]|] eqn:Hstep; [|discriminate].
    destruct (run cfg sched st1) as [[tr1 st2]|] eqn:Hrest; [|discriminate].
    injection Hrun as <- <-. eapply reaches_head; eauto.
Qed.

Lemma reaches_reachable st st' :
  reachable cfg st -> reaches cfg st st' -> reachable cfg st'.
Proof.
  intros Hst H. induction H as [|st st' a l st'' _ IH Hstep]; [assumption|].
  destruct (IH Hst) as [tr Htr]. eexists. econstructor; eassumption.
Qed.

End ExecFacts.

(** * Invariants of the crawl *)

Section Bookkeeping.
Context {net : NetURL}.
Variable cfg : config.

Lemma pending_idle (n : nat) : pending (replicate n WIdle) = [].
Proof. induction n; [reflexivity | exact IHn]. Qed.

Lemma pending_middle (l1 l2 : list wstate) (w : wstate) :
  pending (l1 ++ w :: l2)
  = pending l1 ++ option_list (pending_of w) ++ pending l2.
Proof.
  unfold pending. rewrite omap_app. f_equal.
  destruct (pending_of w) eqn:E; cbn; rewrite E; reflexivity.
Qed.

Lemma stored_snoc (tr : list (action * label)) (e : action * label) :
  stored (tr ++ [e]) = stored tr ++ option_list (stored_of e).
Proof.
  unfold stored. rewrite omap_app. reflexivity.
Qed.

Lemma appended_snoc (tr : list (action * label)) (e : action * label) :
  appended (tr ++ [e]) = appended tr ++ option_list (appended_of e).
Proof.
  unfold appended. rewrite omap_app. reflexivity.
Qed.

(** A worker step that neither stores nor appends leaves the books alone. *)
Lemma bookkept_quiet tr st e st' :
  bookkept cfg tr st ->
  stored_of e = None -> appended_of e = None ->
  finalURLs (mem st') = finalURLs (mem st) ->
  visited (mem st') = visited (mem st) ->
  pending (workers st') = pending (workers st) ->
  bookkept cfg (tr ++ [e]) st'.
Proof.
  intros (Hf & Hp & Hn & Hv) Hs Ha Hf' Hv' Hp'. unfold bookkept.
  rewrite stored_snoc, appended_snoc, Hs, Ha. cbn [option_list option_rect].
  rewrite !app_nil_r, Hf', Hv', Hp'. auto.
Qed.

Lemma fetched_pending (j : job) (ok : bool) (w' : wstate) :
  fetched cfg j = (ok, w') -> pending_of w' = None.
Proof.
  intros H. apply fetched_cases in H as [[-> _]|(? & ? & _ & -> & _)]; reflexivity.
Qed.

(** The books are kept: [finalURLs] is the start URL followed by the
    appended URLs, each stored URL is appended or about to be, no URL is
    stored twice, and [visited] holds the start URL and the stored ones. *)
Lemma exec_bookkept tr st : exec cfg tr st -> bookkept cfg tr st.
Proof.
  revert tr st. apply exec_inv.
  - unfold bookkept, init. cbn. rewrite pending_idle.
    split; [reflexivity|]. split; [reflexivity|].
    split; [apply NoDup_singleton|]. intros u.
    rewrite elem_of_singleton, list_elem_of_singleton. tauto.
  - intros tr st a l st' Hex IH Hstep.
    apply step_inv in Hstep as (Hpanic & [H|[H|[H|H]]]).
    + destruct H as (-> & Hseed & -> & m' & Hsend & ->).
      apply jobs_send_mem in Hsend as (Hf & Hv & _).
      now apply (bookkept_quiet tr st).
    + destruct H as (-> & _ & _ & -> & ->). now apply (bookkept_quiet tr st).
    + destruct H as (-> & _ & -> & ->). now apply (bookkept_quiet tr st).
    + destruct H as (i & w & w' & m' & -> & Hw & Hs & ->).
      destruct (split_insert _ _ _ w' Hw) as (l1 & l2 & Hws & Hins).
      apply worker_step_case in Hs.
      destruct Hs as [ | |j ok w' Hf| | | | | |j base l rest abs Hex' Hnew
                     |j base abs rest| |];
        try (apply (bookkept_quiet tr st);
             [assumption | reflexivity | reflexivity
             | first [reflexivity | apply tasks_Done_mem
                     | eapply jobs_send_mem; eassumption]
             | first [reflexivity | apply tasks_Done_mem
                     | eapply jobs_send_mem; eassumption]
             | cbn [workers]; rewrite Hins, Hws, !pending_middle;
               erewrite ?fetched_pending by eassumption; reflexivity]).
      all: destruct IH as (Hf & Hp & Hn & Hv); unfold bookkept;
        rewrite stored_snoc, appended_snoc, Hins; rewrite Hws in Hp.
      all: cbn [mem workers finalURLs visited option_list option_rect stored_of
                appended_of snd] in *;
             rewrite pending_middle in Hp |- *;
             cbn [pending_of option_list option_rect] in *; rewrite ?app_nil_r.
      * assert (Hfresh : abs ∉ startURL cfg :: stored tr)
          by (intros Hin; apply Hnew, Hv, Hin).
        split; [assumption|]. split; [|split].
        -- rewrite Hp. rewrite <- !app_assoc.
           do 2 apply Permutation_app_head. cbn.
           symmetry. apply Permutation_cons_append.
        -- rewrite app_comm_cons.
           apply NoDup_app. split; [assumption|]. split.
           ++ intros u Hu Hu'. apply list_elem_of_singleton in Hu'. now subst.
           ++ apply NoDup_singleton.
        -- intros u. rewrite elem_of_union, elem_of_singleton, Hv.
           rewrite !elem_of_cons, elem_of_app, list_elem_of_singleton. tauto.
      * split; [now rewrite Hf|]. split; [|split; assumption].
        rewrite Hp. rewrite <- !app_assoc.
        apply Permutation_app_head. cbn.
        symmetry. apply Permutation_middle.
Qed.

End Bookkeeping.

Section Provenance.
Context {net : NetURL}.
Variable cfg : config.

Lemma job_ok_child (j : job) (base : URL) (abs : string) (rest : list Link) :
  looping cfg j base rest -> found cfg j base abs ->
  job_ok cfg (mkJob abs (depth j + 1))
  /\ within cfg (S (Z.to_nat (depth j))) abs.
Proof.
  intros ((Hd & Hw & _) & Hmax & Hbase & _) (links & l & Hget & Hin & Hex).
  assert (Hchild : within cfg (S (Z.to_nat (depth j))) abs)
    by (eapply within_link; eauto).
  split; [|assumption]. unfold job_ok. cbn [url depth].
  replace (Z.to_nat (depth j + 1)) with (S (Z.to_nat (depth j))) by lia.
  repeat split; [lia | assumption | right; assumption].
Qed.

Lemma sound_child (j : job) (base : URL) (abs : string) (rest : list Link) :
  looping cfg j base rest -> found cfg j base abs -> sound cfg abs.
Proof.
  intros Hl Hf. destruct (job_ok_child j base abs rest Hl Hf) as [_ Hw].
  destruct Hl as ((Hd & _) & Hmax & _).
  exists (S (Z.to_nat (depth j))). split; [assumption|]. right. lia.
Qed.

Lemma looping_tail (j : job) (base : URL) (l : Link) (rest : list Link) :
  looping cfg j base (l :: rest) ->
  looping cfg j base rest /\
  forall abs, examine cfg base l = Candidate abs -> found cfg j base abs.
Proof.
  intros (Hj & Hmax & Hbase & links & Hget & Hincl). split.
  - split; [assumption|]. split; [assumption|]. split; [assumption|].
    exists links. split; [assumption|].
    intros x Hx. apply Hincl. now right.
  - intros abs Hex. exists links, l. split; [assumption|].
    split; [|assumption]. apply Hincl. now left.
Qed.

Lemma exec_provenance tr st : exec cfg tr st -> provenance cfg st.
Proof.
  revert tr st. apply (exec_inv cfg (fun _ st => provenance cfg st)).
  - unfold provenance, init. cbn. repeat split.
    + constructor; [|constructor]. exists 0%nat. split; [constructor | now left].
    + constructor.
    + apply Forall_replicate. exact I.
  - intros tr st a l st' _ (Hout & Hjobs & Hws) Hstep.
    apply step_inv in Hstep as (Hpanic & [H|[H|[H|H]]]).
    + destruct H as (-> & _ & -> & m' & Hsend & ->).
      apply jobs_send_cases in Hsend as [[_ ->]|(_ & _ & ->)];
        unfold provenance; cbn; repeat split; try assumption.
      apply Forall_app. split; [assumption|]. constructor; [|constructor].
      unfold job_ok. cbn. repeat split; [lia | constructor | now left].
    + destruct H as (-> & _ & _ & -> & ->). now repeat split.
    + destruct H as (-> & _ & -> & ->). now repeat split.
    + destruct H as (i & w & w' & m' & -> & Hw & Hs & ->).
      assert (Hwok : worker_ok cfg w)
        by (eapply Forall_lookup_1; eauto).
      apply worker_step_case in Hs. unfold provenance. cbn [mem workers].
      destruct Hs; cbn [finalURLs jobs worker_ok] in *.
      * rewrite H in Hjobs. apply Forall_cons in Hjobs as [Hj Hq].
        repeat split; try assumption. now apply Forall_insert.
      * repeat split; try assumption. now apply Forall_insert.
      * repeat split; try assumption. apply Forall_insert; [assumption|].
        apply fetched_cases in H as [[-> _]|(base & links & _ & -> & Hg & Hd & Hb)];
          [assumption|].
        cbn. split; [assumption|]. split; [assumption|]. split; [assumption|].
        exists links. split; [assumption|]. apply incl_refl.
      * destruct (tasks_Done_mem (mem st)) as (-> & _ & -> & _).
        repeat split; try assumption. now apply Forall_insert.
      * destruct (tasks_Done_mem (mem st)) as (-> & _ & -> & _).
        repeat split; try assumption. now apply Forall_insert.
      * repeat split; try assumption. apply Forall_insert; [assumption|].
        now apply looping_tail in Hwok.
      * repeat split; try assumption. apply Forall_insert; [assumption|].
        now apply looping_tail in Hwok.
      * repeat split; try assumption. apply Forall_insert; [assumption|].
        now apply looping_tail in Hwok.
      * repeat split; try assumption. apply Forall_insert; [assumption|].
        apply looping_tail in Hwok as [Hl Hf]. cbn. auto.
      * destruct Hwok as [Hl Hf]. repeat split; try assumption.
        -- apply Forall_app. split; [assumption|]. constructor; [|constructor].
           eapply sound_child; eauto.
        -- apply Forall_insert; [assumption|]. cbn. auto.
      * repeat split; try assumption. now apply Forall_insert.
      * destruct Hwok as [Hl Hf].
        apply jobs_send_cases in H as [[_ ->]|(_ & _ & ->)]; cbn;
          repeat split; try assumption;
          try (apply Forall_insert; [assumption|]; exact Hl).
        apply Forall_app. split; [assumption|]. constructor; [|constructor].
        eapply job_ok_child; eauto.
Qed.

End Provenance.

Section Listed.
Context {net : NetURL}.
Variable cfg : config.

Lemma listed_grows (out : list string) (x : string) (w : wstate) :
  listed out w -> listed (out ++ [x]) w.
Proof.
  destruct w; cbn; try tauto; rewrite ?in_app_iff; tauto.
Qed.

Lemma exec_jobs_listed tr st : exec cfg tr st -> jobs_listed st.
Proof.
  revert tr st. apply (exec_inv cfg (fun _ st => jobs_listed st)).
  - unfold jobs_listed, init. cbn. split; [constructor|].
    apply Forall_replicate. exact I.
  - intros tr st a l st' Hex (Hjobs & Hws) Hstep.
    pose proof (exec_bookkept cfg tr st Hex) as (Hout & _).
    apply step_inv in Hstep as (Hpanic & [H|[H|[H|H]]]).
    + destruct H as (-> & _ & -> & m' & Hsend & ->).
      apply jobs_send_cases in Hsend as [[_ ->]|(_ & _ & ->)];
        unfold jobs_listed; cbn; split; try assumption.
      apply Forall_app. split; [assumption|]. constructor; [|constructor].
      cbn. rewrite Hout. now left.
    + destruct H as (-> & _ & _ & -> & ->). now split.
    + destruct H as (-> & _ & -> & ->). now split.
    + destruct H as (i & w & w' & m' & -> & Hw & Hs & ->).
      assert (Hwok : listed (finalURLs (mem st)) w)
        by (eapply Forall_lookup_1; eauto).
      apply worker_step_case in Hs. unfold jobs_listed. cbn [mem workers].
      destruct Hs; cbn [finalURLs jobs listed] in *;
        rewrite ?(proj1 (tasks_Done_mem (mem st))),
                ?(proj1 (proj2 (proj2 (tasks_Done_mem (mem st)))));
        try (split; [assumption | now apply Forall_insert]).
      * rewrite H in Hjobs. apply Forall_cons in Hjobs as [Hj Hq].
        split; [assumption | now apply Forall_insert].
      * split; [assumption|]. apply Forall_insert; [assumption|].
        apply fetched_cases in H as [[-> _]|(base & links & _ & -> & _)];
          assumption.
      * split.
        -- eapply Forall_impl; [exact Hjobs|]. cbn. intros j0 Hj0.
           apply in_app_iff. now left.
        -- apply Forall_insert.
           ++ eapply Forall_impl; [exact Hws|]. intros w. apply listed_grows.
           ++ cbn. rewrite !in_app_iff. cbn. tauto.
      * destruct Hwok as [Hj Habs].
        apply jobs_send_cases in H as [[_ ->]|(_ & _ & ->)]; cbn;
          (split; [|now apply Forall_insert]); [assumption|].
        apply Forall_app. split; [assumption|]. constructor; [|constructor].
        assumption.
Qed.

End Listed.

Section Counter.
Context {net : NetURL}.
Variable cfg : config.

Lemma weight_middle (l1 l2 : list wstate) (w : wstate) :
  sum_list_with weight (l1 ++ w :: l2)
  = (sum_list_with weight l1 + weight w + sum_list_with weight l2)%nat.
Proof. rewrite sum_list_with_app. cbn. lia. Qed.

Lemma weight_idle (n : nat) : sum_list_with weight (replicate n WIdle) = 0%nat.
Proof. induction n; [reflexivity | exact IHn]. Qed.

Lemma fetched_weight (j : job) (ok : bool) (w' : wstate) :
  fetched cfg j = (ok, w') -> weight w' = 1%nat.
Proof.
  intros H. apply fetched_cases in H as [[-> _]|(? & ? & _ & -> & _)]; reflexivity.
Qed.

Lemma exec_counted tr st : exec cfg tr st -> counted st.
Proof.
  revert tr st. apply (exec_inv cfg (fun _ st => counted st)).
  - unfold counted, outstanding, init. cbn. rewrite weight_idle.
    repeat split; try reflexivity; congruence.
  - intros tr st a l st' Hex (Htasks & Hpanic & Hcl & Hclosed) Hstep.
    apply step_inv in Hstep as (_ & [H|[H|[H|H]]]).
    + destruct H as (-> & Hseed & -> & m' & Hsend & ->).
      unfold outstanding in Htasks. rewrite Hseed in Htasks.
      assert (Hopen : closed (mem st) = false).
      { destruct (closed (mem st)) eqn:Hc; [|reflexivity].
        destruct (closer st) eqn:Hcs; try (specialize (Hclosed eq_refl); congruence).
        assert (tasks (mem st) = 0) by (apply Hcl; congruence). lia. }
      apply jobs_send_cases in Hsend as [[Hc _]|(_ & _ & ->)]; [congruence|].
      unfold counted, outstanding. cbn. rewrite length_app. cbn.
      repeat split; try assumption. lia.
    + destruct H as (-> & Hcs & Ht & -> & ->).
      unfold counted, outstanding in *. cbn.
      split; [assumption|]. split; [assumption|]. split; [auto|].
      intros Hc. specialize (Hclosed Hc). congruence.
    + destruct H as (-> & Hcs & -> & ->).
      assert (Hopen : closed (mem st) = false).
      { destruct (closed (mem st)) eqn:Hc; [|reflexivity].
        specialize (Hclosed eq_refl). congruence. }
      unfold counted, outstanding in *. cbn. rewrite Hopen.
      split; [assumption|]. split; [reflexivity|]. split; [|reflexivity].
      intros _. apply Hcl. congruence.
    + destruct H as (i & w & w' & m' & -> & Hw & Hs & ->).
      destruct (split_insert _ _ _ w' Hw) as (l1 & l2 & Hws & Hins).
      unfold counted, outstanding in *. cbn [mem workers seeded closer].
      rewrite Hins. rewrite Hws in Htasks. rewrite weight_middle in *.
      apply worker_step_case in Hs.
      assert (Hopen : 0 < tasks (mem st) -> closed (mem st) = false).
      { intros Hpos. destruct (closed (mem st)) eqn:Hc; [|reflexivity].
        specialize (Hclosed eq_refl).
        assert (tasks (mem st) = 0) by (apply Hcl; congruence). lia. }
      destruct Hs; cbn [weight jobs tasks panicked closed] in *;
        try erewrite fetched_weight by eassumption;
        try (unfold tasks_Done;
             destruct (Z.leb_spec (tasks (mem st)) 0) as [Hle|Hgt];
             [exfalso; lia | cbn [jobs tasks panicked closed]]);
        try match goal with
            | Hs : jobs_send _ _ _ = Some _ |- _ =>
                apply jobs_send_cases in Hs as [[Hc _]|(_ & _ & ->)];
                [rewrite Hopen in Hc by lia; discriminate Hc
                |cbn [jobs tasks panicked closed]; rewrite length_app;
                 cbn [length]]
            end;
        try match goal with
            | Hj : jobs (mem st) = _ :: _ |- _ =>
                rewrite Hj in Htasks; cbn [length] in Htasks
            end;
        (split; [lia|]); (split; [assumption|]);
        (split; [intros Hc; specialize (Hcl Hc); lia | assumption]).
Qed.

(** No [tasks.Done()] drives the counter below zero, and nothing is sent
    on the closed channel. *)
Lemma reachable_no_panic st : reachable cfg st -> panicked (mem st) = false.
Proof. intros [tr H]. now apply exec_counted in H as (_ & ? & _). Qed.

End Counter.

(** * The length of a crawl, and where it stops *)

Section Progress.
Context {net : NetURL}.
Variable cfg : config.

Lemma steps_left_middle (l1 l2 : list wstate) (w : wstate) :
  sum_list_with (steps_left cfg) (l1 ++ w :: l2)
  = (sum_list_with (steps_left cfg) l1 + steps_left cfg w
     + sum_list_with (steps_left cfg) l2)%nat.
Proof. rewrite sum_list_with_app. cbn. lia. Qed.

Lemma cost_child (j : job) (n : nat) (abs : string) :
  levels cfg j = S n -> levels cfg (mkJob abs (depth j + 1)) = n.
Proof. unfold levels. cbn. lia. Qed.

(** The fetch costs one step. *)
Lemma fetched_cost (j : job) (ok : bool) (w' : wstate) :
  fetched cfg j = (ok, w') ->
  (steps_left cfg w' < steps_left cfg (WFetch j))%nat.
Proof.
  intros Hf. cbn [steps_left]. unfold cost.
  pose proof (fetched_cases cfg j ok w' Hf) as
    [[-> _]|(base & links & -> & -> & Hget & Hdepth & Hbase)].
  - cbn [steps_left]. destruct (levels cfg j); cbn [job_cost]; [lia|].
    destruct (snd (fetched cfg j)); lia.
  - destruct (levels cfg j) as [|n] eqn:Hl; [unfold levels in Hl; lia|].
    cbn [job_cost]. rewrite Hf. cbn [snd steps_left]. unfold rest_cost.
    enough (sum_list_with (link_cost cfg j base) links
            = sum_list_with
                (fun l =>
                   4 + match examine cfg base l with
                       | Candidate abs =>
                           1 + job_cost cfg n (mkJob abs (depth j + 1))
                       | _ => 0
                       end)%nat links) as -> by lia.
    clear Hf Hget. induction links as [|l links IH]; [reflexivity|]. cbn.
    rewrite IH. f_equal. unfold link_cost, cost.
    destruct (examine cfg base l); try reflexivity.
    now rewrite (cost_child j n abs Hl).
Qed.

Lemma queue_cost_snoc (q : list job) (j : job) :
  queue_cost cfg (q ++ [j]) = (queue_cost cfg q + 1 + cost cfg j)%nat.
Proof. unfold queue_cost. rewrite sum_list_with_app. cbn. lia. Qed.

(** Every step of a worker takes one from what it and the queue have left. *)
Lemma wcase_potential (w : wstate) (m : shared) l w' m' :
  wcase cfg m w l w' m' ->
  (steps_left cfg w' + queue_cost cfg (jobs m')
   < steps_left cfg w + queue_cost cfg (jobs m))%nat.
Proof.
  intros H.
  destruct H; cbn [jobs];
    rewrite ?(proj1 (proj2 (proj2 (tasks_Done_mem m))));
    try (cbn [steps_left sum_list_with]; unfold rest_cost, link_cost;
         cbn [sum_list_with]; lia).
  - rewrite H. cbn [steps_left]. unfold queue_cost. cbn [sum_list_with]. lia.
  - apply fetched_cost in H. lia.
  - cbn [steps_left]. unfold rest_cost. cbn [sum_list_with].
    unfold link_cost at 2. rewrite H. lia.
  - cbn [steps_left]. unfold rest_cost.
    apply jobs_send_cases in H as [[_ ->]|(_ & _ & ->)]; cbn [jobs];
      rewrite ?queue_cost_snoc; lia.
Qed.

Lemma step_potential a st l st' :
  step cfg a st = Some (l, st') -> (potential cfg st' < potential cfg st)%nat.
Proof.
  intros Hstep. apply step_inv in Hstep as (_ & [H|[H|[H|H]]]).
  - destruct H as (_ & Hseed & _ & m' & Hsend & ->).
    unfold potential. cbn [mem seeded closer workers]. rewrite Hseed.
    apply jobs_send_cases in Hsend as [[_ ->]|(_ & _ & ->)]; cbn [jobs];
      rewrite ?queue_cost_snoc; lia.
  - destruct H as (_ & Hc & _ & _ & ->). unfold potential.
    cbn [mem seeded closer workers]. rewrite Hc. cbn. lia.
  - destruct H as (_ & Hc & _ & ->). unfold potential.
    cbn [mem seeded closer workers jobs]. rewrite Hc. cbn. lia.
  - destruct H as (i & w & w' & m' & _ & Hw & Hs & ->).
    destruct (split_insert _ _ _ w' Hw) as (l1 & l2 & Hws & Hins).
    unfold potential. cbn [mem seeded closer workers].
    rewrite Hins, Hws, !steps_left_middle.
    apply worker_step_case, wcase_potential in Hs. lia.
Qed.

(** The length of an execution is bounded. *)
Lemma exec_potential tr st :
  exec cfg tr st -> (length tr + potential cfg st <= crawl_bound cfg)%nat.
Proof.
  revert tr st. apply exec_inv.
  - unfold crawl_bound. cbn [length]. lia.
  - intros tr st a l st' _ IH Hstep. apply step_potential in Hstep.
    rewrite length_app. cbn [length]. lia.
Qed.

Lemma reaches_potential st st' :
  reaches cfg st st' -> (potential cfg st' <= potential cfg st)%nat.
Proof.
  induction 1 as [|st st' a l st'' _ IH Hstep]; [lia|].
  apply step_potential in Hstep. lia.
Qed.

(** The goroutines keep their shape. *)
Lemma exec_shaped tr st : exec cfg tr st -> shaped cfg st.
Proof.
  revert tr st. apply (exec_inv cfg (fun _ st => shaped cfg st)).
  - unfold shaped, init. cbn. rewrite length_replicate.
    split; [reflexivity|]. split; [discriminate|]. intros _.
    apply Forall_forall. intros w Hw.
    apply elem_of_replicate in Hw as [-> _]. discriminate.
  - intros tr st a l st' _ (Hlen & Hexit & Hopen) Hstep.
    apply step_inv in Hstep as (_ & [H|[H|[H|H]]]).
    + destruct H as (_ & _ & _ & m' & Hsend & ->).
      apply jobs_send_mem in Hsend as (_ & _ & _ & Hc).
      unfold shaped. cbn [mem workers closer]. now rewrite Hc.
    + destruct H as (_ & Hc & _ & _ & ->). unfold shaped.
      cbn [mem workers closer]. split; [assumption|]. split; [discriminate|].
      assumption.
    + destruct H as (_ & Hc & _ & ->). unfold shaped.
      cbn [mem workers closer closed]. split; [assumption|].
      split; [reflexivity | discriminate].
    + destruct H as (i & w & w' & m' & _ & Hw & Hs & ->).
      apply worker_step_case in Hs. unfold shaped.
      cbn [mem workers closer]. rewrite length_insert.
      assert (Hc : closed m' = closed (mem st)).
      { destruct Hs; cbn [closed]; try reflexivity;
          try apply tasks_Done_mem.
        now apply jobs_send_mem in H. }
      rewrite Hc. split; [assumption|]. split; [assumption|].
      intros Hcl. apply Forall_insert; [now apply Hopen|].
      destruct Hs; try discriminate; [congruence|].
      apply fetched_cases in H as [[-> _]|(? & ? & _ & -> & _)]; discriminate.
Qed.

Lemma blocked_worker_case (w : wstate) (m : shared) :
  worker_step cfg w m = None ->
  w = WExit
  \/ (w = WIdle /\ jobs m = [] /\ closed m = false)
  \/ (is_send w = true /\ closed m = false
      /\ (numWorkers cfg <= length (jobs m))%nat).
Proof.
  destruct w; cbn [worker_step]; try discriminate; auto.
  - destruct (jobs m); [|discriminate].
    destruct (closed m); [discriminate|]. auto.
  - destruct (fetched cfg j); discriminate.
  - destruct rest as [|l rest]; [discriminate|].
    destruct (examine cfg base l); try discriminate.
    destruct (bool_decide _); discriminate.
  - unfold jobs_send. destruct (closed m); [discriminate|].
    destruct (Nat.ltb_spec (length (jobs m)) (numWorkers cfg));
      [discriminate|]. auto.
Qed.

(** A crawl in which no goroutine can move has returned, unless every worker
    is blocked at a send. *)
Lemma stuck_cases (st : state) :
  reachable cfg st -> (forall a, step cfg a st = None) ->
  is_Some (returned st) \/ blocked cfg st.
Proof.
  intros [tr Hex] Hstuck.
  pose proof (exec_shaped _ _ Hex) as (Hlen & Hexit & Hopen).
  pose proof (exec_counted cfg _ _ Hex) as (Htasks & Hpanic & Hcl & Hclosed).
  assert (Hws : forall i w, workers st !! i = Some w ->
                            worker_step cfg w (mem st) = None).
  { intros i w Hw. specialize (Hstuck (AWorker i)). unfold step in Hstuck.
    rewrite Hpanic, Hw in Hstuck.
    now destruct (worker_step cfg w (mem st)) as [[[? ?] ?]|]. }
  assert (Hall : forall w, w ∈ workers st ->
             w = WExit
             \/ (w = WIdle /\ jobs (mem st) = [] /\ closed (mem st) = false)
             \/ (is_send w = true /\ closed (mem st) = false
                 /\ (numWorkers cfg <= length (jobs (mem st)))%nat)).
  { intros w Hw. apply list_elem_of_lookup_1 in Hw as [i Hi].
    apply blocked_worker_case. eauto. }
  destruct (closed (mem st)) eqn:Hc.
  - left. unfold returned. rewrite Hpanic.
    replace (forallb is_exit (workers st)) with true; [cbn; eauto|].
    symmetry. apply forallb_forall. intros w Hw. apply list_elem_of_In in Hw.
    destruct (Hall w Hw) as [->|[(_ & _ & ?)|(_ & ? & _)]];
      [reflexivity | discriminate | discriminate].
  - destruct (workers st) as [|w0 ws] eqn:Hwl.
    { left. unfold returned. rewrite Hwl, Hpanic. cbn. eauto. }
    assert (Hpos : (0 < numWorkers cfg)%nat) by (cbn in Hlen; lia).
    assert (Hnoexit : forall w, w ∈ w0 :: ws -> w <> WExit).
    { intros w Hw. specialize (Hopen eq_refl).
      rewrite Forall_forall in Hopen. auto. }
    right. unfold blocked. rewrite Hwl. split; [discriminate|].
    destruct (jobs (mem st)) as [|j0 q] eqn:Hq.
    + exfalso.
      assert (Hidle : forall w, w ∈ w0 :: ws -> w = WIdle).
      { intros w Hw. destruct (Hall w Hw) as [->|[(-> & _)|(_ & _ & Hle)]];
          [now apply Hnoexit in Hw | reflexivity | cbn in Hle; lia]. }
      assert (Hzero : sum_list_with weight (w0 :: ws) = 0%nat).
      { clear -Hidle. induction (w0 :: ws) as [|w l IH]; [reflexivity|].
        cbn. rewrite (Hidle w) by left. cbn. apply IH.
        intros w' Hw'. apply Hidle. now right. }
      unfold outstanding in Htasks. rewrite Hwl, Hq, Hzero in Htasks.
      pose proof (Hstuck ASeed) as Hseed. unfold step in Hseed.
      rewrite Hpanic in Hseed. destruct (seeded st).
      * pose proof (Hstuck ACloser) as Hcloser. unfold step in Hcloser.
        rewrite Hpanic in Hcloser. cbn in Htasks. rewrite Htasks in Hcloser.
        destruct (closer st) eqn:Hcs; cbn in Hcloser; try discriminate Hcloser.
        specialize (Hexit eq_refl). congruence.
      * unfold jobs_send in Hseed. rewrite Hc, Hq in Hseed.
        cbn [length] in Hseed.
        destruct (Nat.ltb_spec 0 (numWorkers cfg)); [discriminate Hseed | lia].
    + assert (Hsend : forall w, w ∈ w0 :: ws ->
                  is_send w = true
                  /\ (numWorkers cfg <= length (j0 :: q))%nat).
      { intros w Hw. destruct (Hall w Hw) as [->|[(_ & ? & _)|(? & _ & ?)]];
          [now apply Hnoexit in Hw | discriminate | auto]. }
      split.
      * apply Forall_forall. intros w Hw. now apply Hsend.
      * apply (Hsend w0). left.
Qed.

Lemma enabled_step (st : state) (a : action) :
  a ∈ enabled cfg st <-> is_Some (step cfg a st).
Proof.
  unfold enabled. rewrite list_elem_of_In, filter_In. unfold can_step.
  split.
  - intros [_ H]. destruct (step cfg a st); [eauto | discriminate].
  - intros [[l st'] H]. rewrite H. split; [|reflexivity].
    destruct a as [| |i]; [now left | right; now left |].
    right. right. apply in_map, in_seq. split; [lia|]. cbn.
    unfold step in H. destruct (panicked (mem st)); [discriminate|].
    destruct (workers st !! i) as [w|] eqn:Hw; [|discriminate].
    eapply lookup_lt_Some; eauto.
Qed.

Lemma enabled_nil (st : state) :
  enabled cfg st = [] -> forall a, step cfg a st = None.
Proof.
  intros Hnil a. destruct (step cfg a st) as [p|] eqn:Hs; [|reflexivity].
  assert (Hin : a ∈ enabled cfg st) by (apply enabled_step; rewrite Hs; eauto).
  rewrite Hnil in Hin. now apply elem_of_nil in Hin.
Qed.

(** [drive] makes steps of the crawl, and stops only where no goroutine can
    move, if it is given steps enough. *)
Lemma drive_reaches (n : nat) (st : state) : reaches cfg st (drive cfg n st).
Proof.
  revert st. induction n as [|n IH]; intros st; cbn [drive];
    [apply reaches_refl|].
  destruct (enabled cfg st) as [|a rest]; [apply reaches_refl|].
  destruct (step cfg a st) as [[l st']|] eqn:Hs; [|apply reaches_refl].
  eapply reaches_head; eauto.
Qed.

Lemma drive_stuck (n : nat) (st : state) :
  (potential cfg st <= n)%nat -> forall a, step cfg a (drive cfg n st) = None.
Proof.
  revert st. induction n as [|n IH]; intros st Hle; cbn [drive].
  - intros a. destruct (step cfg a st) as [[l st']|] eqn:Hs; [|reflexivity].
    apply step_potential in Hs. lia.
  - destruct (enabled cfg st) as [|a rest] eqn:Hen; [now apply enabled_nil|].
    assert (Hin : a ∈ enabled cfg st) by (rewrite Hen; left).
    apply enabled_step in Hin as [[l st'] Hs]. rewrite Hs.
    apply IH. apply step_potential in Hs. lia.
Qed.

End Progress.

(** * One worker, one job *)

Section WorkerFacts.
Context {net : NetURL}.
Variable cfg : config.

Lemma wtrans_case (w : wstate) (l : label) (w' : wstate) :
  wtrans cfg w l w' -> exists m m', wcase cfg m w l w' m'.
Proof. intros (m & m' & H). exists m, m'. now apply worker_step_case. Qed.

(** A run of the body stops where the worker is idle again. *)
Lemma body_run_idle (tr : list label) (w : wstate) :
  body_run cfg WIdle tr w -> tr = [] /\ w = WIdle.
Proof. intros H. inversion H; subst; [auto | contradiction]. Qed.

Ltac body_head H :=
  let Hne := fresh "Hne" in
  let Ht := fresh "Ht" in
  let Hr := fresh "Hr" in
  let m := fresh "m" in
  let m' := fresh "m'" in
  inversion H as [|? ? ? ? ? Hne Ht Hr]; subst; clear H;
  [|apply wtrans_case in Ht as (m & m' & Ht); inversion Ht; subst; clear Ht].

Lemma run_shape_block (j : job) (b tr : list label) (w : wstate) :
  block j b -> run_shape j tr w -> run_shape j (b ++ tr) w.
Proof.
  intros Hb [(-> & blocks & Hbl & ->)|(Hne & Hj & Hno)].
  - left. split; [reflexivity|]. exists (b :: blocks).
    split; [now constructor|]. cbn. now rewrite app_assoc.
  - right. repeat split; try assumption. intros Hin.
    apply in_app_iff in Hin as [Hin|Hin]; [|contradiction].
    destruct Hb; cbn in Hin; intuition discriminate.
Qed.

Lemma loop_run (j : job) (base : URL) (rest : list Link) :
  forall tr w,
    body_run cfg (WLoop j base rest) tr w ->
    (length tr <= 4 * length rest + 1)%nat /\ run_shape j tr w.
Proof.
  induction rest as [|x rest IH]; intros tr w H.
  - body_head H.
    + split; [cbn; lia|]. right. repeat split; [discriminate | tauto].
    + apply body_run_idle in Hr as [-> ->]. split; [cbn; lia|].
      left. split; [reflexivity|]. exists []. split; [constructor | reflexivity].
  - body_head H.
    + split; [cbn; lia|]. right. repeat split; [discriminate | tauto].
    + destruct (IH _ _ Hr) as [Hlen Hsh]. split; [cbn in *; lia|].
      apply (run_shape_block j [LSkip x]); [constructor | assumption].
    + destruct (IH _ _ Hr) as [Hlen Hsh]. split; [cbn in *; lia|].
      apply (run_shape_block j [LSkipExt x]); [constructor | assumption].
    + destruct (IH _ _ Hr) as [Hlen Hsh]. split; [cbn in *; lia|].
      apply (run_shape_block j [LLoadOrStore abs true]);
        [constructor | assumption].
    + body_head Hr.
      { split; [cbn; lia|]. right. repeat split; [discriminate|].
        cbn. intuition discriminate. }
      body_head Hr0.
      { split; [cbn; lia|]. right. repeat split; [discriminate|].
        cbn. intuition discriminate. }
      body_head Hr.
      { split; [cbn; lia|]. right. repeat split; [discriminate|].
        cbn. intuition discriminate. }
      destruct (IH _ _ Hr0) as [Hlen Hsh]. split; [cbn in *; lia|].
      apply (run_shape_block j
               [LLoadOrStore abs false; LAppend abs; LAdd;
                LSend (mkJob abs (depth j + 1))]);
        [constructor | assumption].
Qed.

(** A worker that holds a job can always go on, unless it stands at the
    send with the channel full. *)
Lemma busy_progress (w : wstate) (j : job) (m : shared) :
  job_of w = Some j -> send_free cfg w m -> is_Some (worker_step cfg w m).
Proof.
  intros Hj Hfree. destruct w; try discriminate Hj; cbn [worker_step].
  - destruct (fetched cfg j0); eauto.
  - eauto.
  - destruct rest as [|x rest]; [eauto|].
    destruct (examine cfg base x); eauto.
    destruct (bool_decide (abs ∈ visited m)); eauto.
  - eauto.
  - eauto.
  - cbn in Hfree. unfold jobs_send. destruct (closed m); [eauto|].
    destruct Hfree as [Hc|Hlt]; [discriminate|].
    apply Nat.ltb_lt in Hlt. rewrite Hlt. eauto.
Qed.

Lemma block_no_done (j : job) (blocks : list (list label)) :
  Forall (block j) blocks -> ~ In LDone (concat blocks).
Proof.
  induction 1 as [|b blocks Hb _ IH]; cbn; [tauto|].
  intros Hin. apply in_app_iff in Hin as [Hin|Hin]; [|contradiction].
  destruct Hb; cbn in Hin; intuition discriminate.
Qed.

(** Every step of a worker in a crawl is a step of [wtrans], and the steps
    of the other goroutines leave the worker where it is. *)
Lemma step_is_worker_step a st l st' (i : nat) :
  step cfg a st = Some (l, st') ->
  (a = AWorker i /\ exists w w',
      workers st !! i = Some w /\ workers st' !! i = Some w'
      /\ wtrans cfg w l w')
  \/ (a <> AWorker i /\ workers st' !! i = workers st !! i).
Proof.
  intros Hstep. apply step_inv in Hstep as (_ & [H|[H|[H|H]]]).
  - destruct H as (-> & _ & _ & m' & _ & ->). right. now split.
  - destruct H as (-> & _ & _ & _ & ->). right. now split.
  - destruct H as (-> & _ & _ & ->). right. now split.
  - destruct H as (i0 & w & w' & m' & -> & Hw & Hs & ->).
    destruct (decide (i0 = i)) as [->|Hne].
    + left. split; [reflexivity|]. exists w, w'. split; [assumption|].
      split; [|now exists (mem st), m'].
      cbn. apply list_lookup_insert_eq. eapply lookup_lt_Some; eauto.
    + right. split; [congruence|]. cbn. now apply list_lookup_insert_ne.
Qed.

(** The loop body on one job.  From the call of [getAndParseLinks] on, the
    calls are bounded in number; when the worker is idle again they are the
    fetch, then one block for each link, then [tasks.Done()].  Before that
    the worker still holds the job and has not called [tasks.Done()]. *)
Lemma body_run_calls (j : job) (tr : list label) (w : wstate) :
  body_run cfg (WFetch j) tr w ->
  (length tr <= job_bound cfg j)%nat
  /\ (w = WIdle ->
      job_trace j tr
      /\ (exists pre, tr = pre ++ [LDone] /\ ~ In LDone pre)
      /\ (getAndParseLinks cfg (url j) = None ->
          tr = [LFetch (url j) false; LDone])
      /\ (depth j + 1 >= maxDepth cfg ->
          exists ok, tr = [LFetch (url j) ok; LDone]))
  /\ (w <> WIdle ->
      job_of w = Some j /\ ~ In LDone tr
      /\ forall m, send_free cfg w m -> is_Some (worker_step cfg w m)).
Proof.
  intros H.
  assert (Hmain :
    (length tr <= job_bound cfg j)%nat /\
    ((w = WIdle /\ exists ok blocks,
        Forall (block j) blocks /\
        tr = LFetch (url j) ok :: concat blocks ++ [LDone] /\
        (getAndParseLinks cfg (url j) = None -> ok = false /\ blocks = []) /\
        (depth j + 1 >= maxDepth cfg -> blocks = []))
     \/ (w <> WIdle /\ job_of w = Some j /\ ~ In LDone tr))).
  { unfold job_bound. body_head H.
    - split; [cbn; lia|]. right. repeat split; [discriminate | tauto].
    - match goal with Hf : fetched _ _ = _ |- _ =>
        apply fetched_cases in Hf
          as [[-> Hwhy]|(base & links & -> & -> & Hget & Hdepth & Hbase)]
      end.
      + body_head Hr.
        * split; [cbn; lia|]. right. repeat split; [discriminate|].
          cbn. intuition discriminate.
        * apply body_run_idle in Hr0 as [-> ->]. split; [cbn; lia|].
          left. split; [reflexivity|]. exists ok, [].
          split; [constructor|]. split; [reflexivity|]. split; [|reflexivity].
          intros Hnone. split; [|reflexivity].
          destruct Hwhy as [[-> _]|(_ & [x Hx] & _)]; [reflexivity | congruence].
      + rewrite Hget. cbn [default].
        destruct (loop_run j base links _ _ Hr) as [Hlen Hsh].
        split; [cbn; lia|].
        destruct Hsh as [(-> & blocks & Hbl & ->)|(Hne' & Hj & Hno)].
        * left. split; [reflexivity|]. exists true, blocks.
          split; [assumption|]. split; [reflexivity|].
          split; [congruence | lia].
        * right. repeat split; try assumption. cbn. intuition discriminate. }
  destruct Hmain as [Hlen Hsh]. split; [assumption|]. split.
  - intros ->. destruct Hsh as [(_ & ok & blocks & Hbl & -> & Hnone & Hceil)|(Hne & _)];
      [|contradiction].
    split; [now exists ok, blocks|]. split; [|split].
    + exists (LFetch (url j) ok :: concat blocks). split; [reflexivity|].
      cbn. intros [Hd|Hin]; [discriminate|]. now apply block_no_done in Hbl.
    + intros Hn. destruct (Hnone Hn) as [-> ->]. reflexivity.
    + intros Hd. exists ok. now rewrite (Hceil Hd).
  - intros Hne. destruct Hsh as [(-> & _)|(_ & Hj & Hno)]; [contradiction|].
    repeat split; try assumption. intros m. now apply busy_progress with j.
Qed.

Lemma body_run_snoc (w : wstate) (tr : list label) (w' : wstate) l w'' :
  body_run cfg w tr w' -> w' <> WIdle -> wtrans cfg w' l w'' ->
  body_run cfg w (tr ++ [l]) w''.
Proof.
  induction 1 as [w|w l0 w0 tr w1 Hne Ht _ IH]; intros Hne' Ht'; cbn.
  - eapply body_cons; [assumption | eassumption | apply body_nil].
  - eapply body_cons; [assumption | eassumption | now apply IH].
Qed.

Lemma calls_of_own (i : nat) tr (l : label) :
  calls_of i (tr ++ [(AWorker i, l)]) = calls_of i tr ++ [l].
Proof.
  unfold calls_of. rewrite omap_app. cbn. unfold call_of. cbn.
  now rewrite decide_True.
Qed.

Lemma calls_of_other (i : nat) tr (a : action) (l : label) :
  a <> AWorker i -> calls_of i (tr ++ [(a, l)]) = calls_of i tr.
Proof.
  intros Hne. unfold calls_of. rewrite omap_app. cbn. unfold call_of. cbn.
  destruct a as [| |k]; cbn; try now rewrite app_nil_r.
  rewrite decide_False by congruence. now rewrite app_nil_r.
Qed.

(** C1: in every execution the calls of a worker are, job after job, the
    receive of the job, its fetch, one block for each link (in which
    [tasks.Add] comes right before the send of the new job) and then one
    [tasks.Done()], which ends the job: so on the paths where the fetch fails
    or the depth ceiling is met, where there is no block at all.  In the job
    it holds now the worker has not called [tasks.Done()]; its calls are
    bounded in number, and it can go on unless the [jobs] buffer is full at a
    send. *)
Theorem worker_completes_job_once tr st (i : nat) (w : wstate) :
  exec cfg tr st -> workers st !! i = Some w ->
  exists segs cur,
    calls_of i tr = concat segs ++ cur
    /\ Forall (segment cfg) segs
    /\ match job_of w with
       | Some j =>
           exists t,
             cur = LRecv j :: t /\ ~ In LDone t
             /\ (length t <= job_bound cfg j)%nat
             /\ forall m, send_free cfg w m -> is_Some (worker_step cfg w m)
       | None => cur = [] \/ cur = [LRangeEnd]
       end.
Proof.
  intros Hex Hw.
  assert (Hinv : exists segs cur,
             calls_of i tr = concat segs ++ cur
             /\ Forall (segment cfg) segs /\ current cfg w cur).
  { revert w Hw. pattern tr, st. revert tr st Hex. apply exec_inv.
    - intros w Hw. cbn in Hw. apply lookup_replicate in Hw as [-> _].
      exists [], []. split; [reflexivity|]. split; [constructor|].
      left. now split.
    - intros tr st a l st' _ IH Hstep w' Hw'.
      destruct (step_is_worker_step _ _ _ _ i Hstep)
        as [(-> & w & w0 & Hw & Hw0 & Ht)|(Hne & Heq)].
      2:{ rewrite calls_of_other by assumption. apply IH. congruence. }
      assert (w0 = w') as -> by congruence.
      destruct (IH w Hw) as (segs & cur & Hcalls & Hsegs & Hcur).
      rewrite calls_of_own, Hcalls. unfold current in Hcur.
      destruct (job_of w) as [j|] eqn:Hj.
      + destruct Hcur as (t & -> & Hrun).
        assert (Hidle : w <> WIdle) by (intros ->; discriminate Hj).
        pose proof (body_run_snoc _ _ _ _ _ Hrun Hidle Ht) as Hrun'.
        destruct (body_run_calls _ _ _ Hrun') as (_ & Hdone & Hbusy).
        assert (Hcase : w' = WIdle \/ w' <> WIdle)
          by (destruct w'; (now left) || (right; discriminate)).
        destruct Hcase as [->|Hne].
        * destruct (Hdone eq_refl) as (Htr & _ & Hfail & Hceil).
          exists (segs ++ [LRecv j :: t ++ [l]]), [].
          split; [rewrite concat_app; cbn; now rewrite !app_nil_r, <- app_assoc|].
          split; [|left; now split].
          apply Forall_app. split; [assumption|]. constructor; [|constructor].
          exists j, (t ++ [l]). split; [reflexivity|]. now split.
        * destruct (Hbusy Hne) as (Hj' & _).
          exists segs, (LRecv j :: t ++ [l]).
          split; [now rewrite <- app_assoc|]. split; [assumption|].
          unfold current. rewrite Hj'. now exists (t ++ [l]).
      + apply wtrans_case in Ht as (m & m' & Ht).
        destruct Hcur as [[-> ->]|[-> ->]]; inversion Ht; subst.
        * exists segs, [LRecv j]. split; [now rewrite app_nil_r|].
          split; [assumption|].
          exists []. split; [reflexivity | apply body_nil].
        * exists segs, [LRangeEnd]. split; [now rewrite app_nil_r|].
          split; [assumption|]. right. now split. }
  destruct Hinv as (segs & cur & Hcalls & Hsegs & Hcur).
  exists segs, cur. split; [assumption|]. split; [assumption|].
  unfold current in Hcur. destruct (job_of w) as [j|] eqn:Hj.
  - destruct Hcur as (t & -> & Hrun).
    assert (Hidle : w <> WIdle) by (intros ->; discriminate Hj).
    destruct (body_run_calls _ _ _ Hrun) as (Hlen & _ & Hbusy).
    destruct (Hbusy Hidle) as (_ & Hno & Hgo).
    exists t. now repeat split.
  - destruct Hcur as [[_ ->]|[_ ->]]; [now left | now right].
Qed.

End WorkerFacts.

(** * What every crawl guarantees *)

Section CrawlFacts.
Context {net : NetURL}.
Variable cfg : config.

(** [finalURLs] only grows. *)
Lemma step_output_grows a st l st' :
  step cfg a st = Some (l, st') ->
  exists more, finalURLs (mem st') = finalURLs (mem st) ++ more.
Proof.
  intros Hstep. apply step_inv in Hstep as (_ & [H|[H|[H|H]]]).
  - destruct H as (_ & _ & _ & m' & Hsend & ->). cbn [mem].
    apply jobs_send_mem in Hsend as (-> & _). exists []. now rewrite app_nil_r.
  - destruct H as (_ & _ & _ & _ & ->). exists []. now rewrite app_nil_r.
  - destruct H as (_ & _ & _ & ->). exists []. now rewrite app_nil_r.
  - destruct H as (i & w & w' & m' & _ & _ & Hs & ->).
    apply worker_step_case in Hs. cbn [mem].
    destruct Hs; cbn [finalURLs];
      rewrite ?(proj1 (tasks_Done_mem (mem st)));
      try (exists []; now rewrite app_nil_r).
    + now exists [abs].
    + apply jobs_send_mem in H as (-> & _). exists []. now rewrite app_nil_r.
Qed.

Lemma reaches_output_grows st st' :
  reaches cfg st st' ->
  exists more, finalURLs (mem st') = finalURLs (mem st) ++ more.
Proof.
  induction 1 as [|st st' a l st'' _ [more IH] Hstep].
  - exists []. now rewrite app_nil_r.
  - apply step_output_grows in Hstep as [more' ->]. rewrite IH.
    exists (more ++ more'). now rewrite app_assoc.
Qed.

Lemma returned_output st out err :
  returned st = Some (out, err) ->
  out = finalURLs (mem st) /\ err = None
  /\ Forall (fun w => w = WExit) (workers st).
Proof.
  unfold returned. intros H.
  destruct (forallb is_exit (workers st)) eqn:Hall; [|discriminate].
  destruct (panicked (mem st)); [discriminate|]. injection H as <- <-.
  repeat split. apply Forall_forall. intros w Hw.
  rewrite forallb_forall in Hall. apply list_elem_of_In in Hw.
  specialize (Hall w Hw). now destruct w.
Qed.

(** C10: the output of every crawl starts with the start URL: it is there
    before any goroutine moves and nothing is ever put before it, so a
    crawl that returns returns a list whose first element is the start
    URL. *)
Theorem start_url_heads_output (st : state) :
  reachable cfg st ->
  finalURLs (mem (init cfg)) = [startURL cfg]
  /\ (exists rest, finalURLs (mem st) = startURL cfg :: rest)
  /\ (forall out err,
        returned st = Some (out, err) ->
        exists rest, out = startURL cfg :: rest).
Proof.
  intros [tr Hex]. apply exec_bookkept in Hex as (Hout & _).
  split; [reflexivity|]. split; [eauto|].
  intros out err Hret. apply returned_output in Hret as (-> & _). eauto.
Qed.

(** C3: in every execution the output has no duplicate.  A URL is recorded
    in [visited] by one [LoadOrStore] at most, which is one step; the start
    URL is never recorded again; and the appended URLs are among the
    recorded ones, in the order of their [append]. *)
Theorem output_has_no_duplicates (tr : list (action * label)) (st : state) :
  exec cfg tr st ->
  NoDup (finalURLs (mem st))
  /\ finalURLs (mem st) = startURL cfg :: appended tr
  /\ NoDup (startURL cfg :: stored tr)
  /\ (forall u, In u (appended tr) -> In u (stored tr))
  /\ (forall u, In u (finalURLs (mem st)) -> u ∈ visited (mem st))
  /\ (forall out err, returned st = Some (out, err) -> NoDup out).
Proof.
  intros Hex. apply exec_bookkept in Hex as (Hout & Hperm & Hnodup & Hvis).
  assert (Hsub : forall u, In u (appended tr) -> In u (stored tr)).
  { intros u Hu. apply list_elem_of_In. rewrite Hperm.
    apply elem_of_app. left. now apply list_elem_of_In. }
  assert (Hnd : NoDup (finalURLs (mem st))).
  { rewrite Hout. apply NoDup_cons in Hnodup as [Hstart Hst].
    apply NoDup_cons. split.
    - intros Hin. apply Hstart. apply list_elem_of_In, Hsub.
      now apply list_elem_of_In.
    - rewrite Hperm in Hst. now apply NoDup_app in Hst as [? _]. }
  repeat split; try assumption.
  - intros u Hu. apply Hvis. rewrite Hout in Hu. cbn in Hu.
    destruct Hu as [<-|Hu]; [left|right].
    apply list_elem_of_In. auto.
  - intros out err Hret. now apply returned_output in Hret as (-> & _).
Qed.

(** What [examine] has checked when it lets a link through. *)
Lemma examine_candidate (base : URL) (l : Link) (abs : string) :
  examine cfg base l = Candidate abs ->
  abs = resolveURL (Some base) l /\ abs <> ""
  /\ ignoredExt abs = false /\ isSameDomain (startURL cfg) abs = true.
Proof.
  unfold examine, ignoredExt.
  generalize (resolveURL (Some base) l). intros r.
  destruct (String.eqb_spec r "") as [|Hne]; [discriminate|].
  destruct (url_Parse r) as [parsedAbs|] eqn:Hp; [|discriminate].
  destruct (bool_decide _ && negb _) eqn:Hi; [discriminate|].
  destruct (isSameDomain _ r) eqn:Hsame; [|discriminate].
  intros H. injection H as <-. rewrite Hp, Hi. auto.
Qed.

Lemma examine_ignored (base : URL) (l : Link) :
  resolveURL (Some base) l <> "" ->
  ignoredExt (resolveURL (Some base) l) = true ->
  examine cfg base l = IgnoredExt.
Proof.
  unfold examine, ignoredExt. intros Hne.
  destruct (String.eqb_spec (resolveURL (Some base) l) ""); [contradiction|].
  destruct (url_Parse (resolveURL (Some base) l)); [|discriminate].
  now intros ->.
Qed.

(** Beyond the start URL, a URL within reach has passed [examine]. *)
Lemma within_examined (n : nat) (u : string) :
  within cfg n u ->
  (n = 0%nat /\ u = startURL cfg)
  \/ (ignoredExt u = false /\ isSameDomain (startURL cfg) u = true).
Proof.
  intros H. destruct H as [|n p links base l u _ _ _ _ Hex]; [auto|].
  right. now apply examine_candidate in Hex.
Qed.

(** Nothing is within reach of a start page that cannot be fetched. *)
Lemma within_unfetched (n : nat) (u : string) :
  getAndParseLinks cfg (startURL cfg) = None ->
  within cfg n u -> n = 0%nat /\ u = startURL cfg.
Proof.
  intros Hnone H. induction H as [|n p links base l u _ IH Hget _ _ _];
    [auto|].
  destruct IH as [_ ->]. congruence.
Qed.

Lemma jobs_of_ok (st : state) :
  provenance cfg st -> Forall (job_ok cfg) (jobs_of st).
Proof.
  intros (_ & Hjobs & Hws). unfold jobs_of. apply Forall_app.
  split; [assumption|]. apply Forall_forall. intros j Hj.
  apply list_elem_of_omap in Hj as (w & Hw & Hjw).
  rewrite Forall_forall in Hws. specialize (Hws w Hw).
  destruct w; try discriminate Hjw; injection Hjw as <-; cbn in Hws;
    try assumption; try apply Hws.
Qed.

(** C8, as amended (the general part): a link whose resolved URL has an
    ignored extension makes the worker skip to the next link, with no
    access to [visited], [finalURLs], [tasks] or [jobs]; so every URL of the
    output and every job, other than the start URL, has an extension that is
    not ignored. *)
Lemma ignored_extension_skipped (st : state) :
  reachable cfg st ->
  (forall u, In u (finalURLs (mem st)) -> u <> startURL cfg ->
             ignoredExt u = false)
  /\ (forall j, In j (jobs_of st) -> url j <> startURL cfg ->
                ignoredExt (url j) = false)
  /\ (forall i j base l rest,
        workers st !! i = Some (WLoop j base (l :: rest)) ->
        resolveURL (Some base) l <> "" ->
        ignoredExt (resolveURL (Some base) l) = true ->
        step cfg (AWorker i) st
        = Some (LSkipExt l,
                mkState (mem st) (seeded st) (closer st)
                        (<[i := WLoop j base rest]> (workers st)))).
Proof.
  intros [tr Hex]. pose proof (exec_provenance cfg tr st Hex) as Hprov.
  pose proof (exec_counted cfg tr st Hex) as (_ & Hpanic & _).
  split; [|split].
  - intros u Hu Hne. destruct Hprov as (Hout & _).
    rewrite Forall_forall in Hout.
    destruct (Hout u) as (n & Hw & _); [now apply list_elem_of_In|].
    apply within_examined in Hw as [[_ ->]|[? _]]; [contradiction | assumption].
  - intros j Hj Hne. apply jobs_of_ok in Hprov.
    rewrite Forall_forall in Hprov.
    destruct (Hprov j) as (_ & Hw & _); [now apply list_elem_of_In|].
    apply within_examined in Hw as [[_ Heq]|[? _]]; [contradiction | assumption].
  - intros i j base l rest Hw Hne Hign. unfold step.
    rewrite Hpanic, Hw. cbn [worker_step].
    now rewrite (examine_ignored base l Hne Hign).
Qed.

(** With [maxDepth] at most one, no link is ever examined: the output is
    the start URL alone. *)
Lemma depth_one_lists_start_only (st : state) :
  maxDepth cfg <= 1 -> reachable cfg st ->
  finalURLs (mem st) = [startURL cfg].
Proof.
  intros Hmax [tr Hex].
  pose proof (exec_provenance cfg tr st Hex) as (Hsound & _).
  apply exec_bookkept in Hex as (Hout & Hperm & Hnodup & _).
  rewrite Hout. f_equal.
  destruct (appended tr) as [|u rest] eqn:Happ; [reflexivity|]. exfalso.
  rewrite Hout in Hsound. apply Forall_cons in Hsound as [_ Hsound].
  apply Forall_cons in Hsound as [(n & Hw & Hn) _].
  assert (n = 0%nat) as -> by lia.
  inversion Hw; subst.
  apply NoDup_cons in Hnodup as [Hstart _]. apply Hstart.
  rewrite Hperm. apply elem_of_app. left. left.
Qed.

(** What [buildSitemap] returns. *)
Lemma returned_result (st : state) (out : list string) (err : option string) :
  reachable cfg st ->
  returned st = Some (out, err) ->
  err = None
  /\ (exists rest, out = startURL cfg :: rest)
  /\ (getAndParseLinks cfg (startURL cfg) = None -> out = [startURL cfg]).
Proof.
  intros [tr Hex] Hret.
  apply returned_output in Hret as (-> & -> & _).
  pose proof (exec_provenance cfg tr st Hex) as (Hsound & _).
  apply exec_bookkept in Hex as (Hout & Hperm & Hnodup & _).
  split; [reflexivity|]. split; [eauto|].
  intros Hnone. rewrite Hout. f_equal.
  destruct (appended tr) as [|u rest] eqn:Happ; [reflexivity|]. exfalso.
  rewrite Hout in Hsound. apply Forall_cons in Hsound as [_ Hsound].
  apply Forall_cons in Hsound as [(n & Hw & _) _].
  apply (within_unfetched _ _ Hnone) in Hw as [_ ->].
  apply NoDup_cons in Hnodup as [Hstart _]. apply Hstart.
  rewrite Hperm. apply elem_of_app. left. left.
Qed.

(** The calls of a worker for a job whose fetch fails. *)
Lemma failed_fetch_calls (j : job) (tr : list label) :
  getAndParseLinks cfg (url j) = None ->
  body_run cfg (WFetch j) tr WIdle ->
  tr = [LFetch (url j) false; LDone].
Proof.
  intros Hnone H.
  inversion H as [|? ? ? ? ? _ Ht Hr]; subst; clear H.
  destruct Ht as (m & m' & Ht). cbn [worker_step] in Ht.
  unfold fetched in Ht. rewrite Hnone in Ht. injection Ht as <- <- <-.
  inversion Hr as [|? ? ? ? ? _ Ht Hr']; subst; clear Hr.
  destruct Ht as (m1 & m1' & Ht). cbn [worker_step] in Ht.
  injection Ht as <- <- <-.
  inversion Hr' as [|? ? ? ? ? Hne]; subst; [reflexivity | contradiction].
Qed.

(** C9: a job whose fetch fails.  Its URL is in the output already; the
    worker goes from the failed [getAndParseLinks] straight to
    [tasks.Done()], so its calls for the job are these two and it looks at
    no link; the [tasks.Done()] is ready in every state the crawl can be in,
    takes one from the counter and does not panic; the URL stays in the
    output from then on, and a crawl that returns returns it with a nil
    error. *)
Theorem failed_fetch_is_absorbed (st : state) (i : nat) (j : job) :
  reachable cfg st ->
  workers st !! i = Some (WFetch j) ->
  getAndParseLinks cfg (url j) = None ->
  In (url j) (finalURLs (mem st))
  /\ step cfg (AWorker i) st
     = Some (LFetch (url j) false,
             mkState (mem st) (seeded st) (closer st)
                     (<[i := WDone j]> (workers st)))
  /\ (forall tr w, body_run cfg (WFetch j) tr w -> w = WIdle ->
                   tr = [LFetch (url j) false; LDone])
  /\ (forall st1, reachable cfg st1 -> workers st1 !! i = Some (WDone j) ->
        exists m2,
          step cfg (AWorker i) st1
          = Some (LDone, mkState m2 (seeded st1) (closer st1)
                                 (<[i := WIdle]> (workers st1)))
          /\ tasks m2 = tasks (mem st1) - 1 /\ panicked m2 = false
          /\ finalURLs m2 = finalURLs (mem st1) /\ jobs m2 = jobs (mem st1))
  /\ (forall st', reaches cfg st st' ->
        In (url j) (finalURLs (mem st'))
        /\ forall out err, returned st' = Some (out, err) ->
                           In (url j) out /\ err = None).
Proof.
  intros Hreach Hw Hnone.
  assert (Hin : In (url j) (finalURLs (mem st))).
  { destruct Hreach as [tr Hex].
    apply exec_jobs_listed in Hex as (_ & Hws).
    rewrite Forall_forall in Hws. apply (Hws (WFetch j)).
    eapply list_elem_of_lookup_2; eauto. }
  split; [assumption|]. split; [|split; [|split]].
  - destruct Hreach as [tr Hex].
    apply exec_counted in Hex as (_ & Hpanic & _).
    unfold step. rewrite Hpanic, Hw. cbn [worker_step]. unfold fetched.
    now rewrite Hnone.
  - intros tr w Hrun ->. now apply failed_fetch_calls.
  - intros st1 [tr1 Hex1] Hw1.
    apply exec_counted in Hex1 as (Htasks & Hpanic & _).
    destruct (split_insert _ _ _ WIdle Hw1) as (l1 & l2 & Hws & _).
    unfold outstanding in Htasks. rewrite Hws, weight_middle in Htasks.
    cbn [weight] in Htasks.
    exists (tasks_Done (mem st1)). unfold step. rewrite Hpanic, Hw1.
    cbn [worker_step]. split; [reflexivity|]. unfold tasks_Done.
    destruct (Z.leb_spec (tasks (mem st1)) 0); [lia|]. cbn. auto.
  - intros st' Hst'. apply reaches_output_grows in Hst' as [more Hmore].
    assert (Hin' : In (url j) (finalURLs (mem st')))
      by (rewrite Hmore; apply in_app_iff; now left).
    split; [assumption|]. intros out err Hret.
    now apply returned_output in Hret as (-> & -> & _).
Qed.

(** Every worker stands at a send and the buffer is full: nothing can move
    any more, and [buildSitemap] has not returned. *)
Lemma blocked_is_deadlock (st : state) :
  reachable cfg st -> blocked cfg st -> deadlocked cfg st.
Proof.
  intros [tr Hex] (Hne & Hall & Hfull).
  apply exec_counted in Hex as (Htasks & Hpanic & Hcl & Hclosed).
  destruct (workers st) as [|w ws] eqn:Hws; [contradiction|].
  assert (Hw : is_send w = true) by now apply Forall_cons in Hall as [? _].
  destruct w; try discriminate Hw.
  assert (Hpos : 0 < tasks (mem st)).
  { unfold outstanding in Htasks. rewrite Hws in Htasks. cbn in Htasks. lia. }
  assert (Hwait : closer st = CWait).
  { destruct (closer st) eqn:Hc; [reflexivity| |];
      assert (tasks (mem st) = 0) by (apply Hcl; congruence); lia. }
  assert (Hopen : closed (mem st) = false).
  { destruct (closed (mem st)) eqn:Hc; [|reflexivity].
    specialize (Hclosed eq_refl). congruence. }
  assert (Hsend : forall j0, jobs_send cfg j0 (mem st) = None).
  { intros j0. unfold jobs_send. rewrite Hopen.
    destruct (Nat.ltb_spec (length (jobs (mem st))) (numWorkers cfg));
      [lia | reflexivity]. }
  split.
  - intros a. unfold step. rewrite Hpanic. destruct a as [| |i].
    + destruct (seeded st); [reflexivity|]. now rewrite Hsend.
    + rewrite Hwait. destruct (Z.eqb_spec (tasks (mem st)) 0); [lia|reflexivity].
    + rewrite Hws. destruct ((WSend j base abs rest :: ws) !! i) as [w|] eqn:Hi;
        [|reflexivity].
      rewrite Forall_forall in Hall.
      assert (Hw' : is_send w = true)
        by (apply Hall; eapply list_elem_of_lookup_2; eauto).
      destruct w; try discriminate Hw'.
      cbn [worker_step]. now rewrite Hsend.
  - unfold returned. rewrite Hws. reflexivity.
Qed.

(** No worker comes to a send when the start page cannot be fetched, or
    when [maxDepth] is at most one. *)
Lemma never_blocked (st : state) :
  reachable cfg st ->
  getAndParseLinks cfg (startURL cfg) = None \/ maxDepth cfg <= 1 ->
  ~ blocked cfg st.
Proof.
  intros [tr Hex] Hwhy (Hne & Hall & _).
  apply exec_provenance in Hex as (_ & _ & Hws).
  destruct (workers st) as [|w ws]; [contradiction|].
  apply Forall_cons in Hall as [Hw _]. apply Forall_cons in Hws as [Hok _].
  destruct w; try discriminate Hw. cbn in Hok.
  destruct Hok as (((Hd & Hin & _) & Hceil & _ & links & Hget & _) & _).
  destruct Hwhy as [Hnone|Hmax]; [|lia].
  apply (within_unfetched _ _ Hnone) in Hin as [_ Hu]. congruence.
Qed.

(** C5, as amended: [buildSitemap] has no error to return, and it does not
    look at the start URL before it crawls.  Whatever the start URL, a
    string that [url.Parse] accepts or not: a crawl makes [crawl_bound]
    steps at most; what it returns is its list with a nil error, and the
    list starts with the start URL; where no goroutine can move it has
    returned, unless every worker is blocked at a send; and driven on until
    no goroutine can move, it returns the start URL alone when the start
    page cannot be fetched. *)
Theorem crawl_returns_no_error (tr : list (action * label)) (st : state) :
  exec cfg tr st ->
  (length tr + potential cfg st <= crawl_bound cfg)%nat
  /\ (forall out err,
        returned st = Some (out, err) ->
        err = None /\ exists rest, out = startURL cfg :: rest)
  /\ ((forall a, step cfg a st = None) ->
      (exists rest, returned st = Some (startURL cfg :: rest, None))
      \/ blocked cfg st)
  /\ reaches cfg st (drive cfg (potential cfg st) st)
  /\ (forall a, step cfg a (drive cfg (potential cfg st) st) = None)
  /\ (getAndParseLinks cfg (startURL cfg) = None ->
      returned (drive cfg (potential cfg st) st)
      = Some ([startURL cfg], None)).
Proof.
  intros Hex.
  assert (Hreach : reachable cfg st) by now exists tr.
  assert (Hend : forall s, reachable cfg s -> (forall a, step cfg a s = None) ->
                   (exists rest, returned s = Some (startURL cfg :: rest, None))
                   \/ blocked cfg s).
  { intros s Hs Hstuck.
    destruct (stuck_cases cfg s Hs Hstuck) as [[[out err] Hret]|Hb];
      [left | now right].
    destruct (returned_result _ _ _ Hs Hret) as (-> & [rest ->] & _).
    now exists rest. }
  pose proof (drive_reaches cfg (potential cfg st) st) as Hdrive.
  pose proof (drive_stuck cfg (potential cfg st) st (Nat.le_refl _)) as Hstuck.
  set (st' := drive cfg (potential cfg st) st) in *.
  assert (Hreach' : reachable cfg st') by now apply reaches_reachable with st.
  split; [now apply exec_potential|]. split.
  { intros out err Hret.
    now destruct (returned_result _ _ _ Hreach Hret) as (? & ? & _). }
  split; [now apply Hend|]. split; [assumption|]. split; [assumption|].
  intros Hnone. destruct (Hend st' Hreach' Hstuck) as [[rest Hret]|Hb].
  - destruct (returned_result _ _ _ Hreach' Hret) as (_ & _ & Hout).
    specialize (Hout Hnone). congruence.
  - exfalso. apply (never_blocked st' Hreach'); [now left | assumption].
Qed.

End CrawlFacts.

(** * The sequential revision *)

Section SeqFacts.
Context {net : NetURL}.
Variable cfg : Seq.config.

Lemma seq_visit_inv (d : Z) (base : option URL) (st : Seq.state) (link : Link) :
  Seq.output_ok cfg st -> Seq.output_ok cfg (Seq.visit cfg d base st link).
Proof.
  intros (Hnd & Hvis & rest & Hout). unfold Seq.visit.
  destruct (String.eqb _ ""); [now repeat split; eauto|].
  destruct (Seq.isSameDomain _ _); cbn [andb]; [|now repeat split; eauto].
  destruct (bool_decide _) eqn:Hv; cbn [negb]; [now repeat split; eauto|].
  apply bool_decide_eq_false in Hv.
  unfold Seq.output_ok. cbn [Seq.finalURLs Seq.visited]. split; [|split].
  - apply NoDup_app. split; [assumption|]. split; [|apply NoDup_singleton].
    intros u Hu Hu'. apply list_elem_of_singleton in Hu'. subst.
    apply Hv, Hvis. now apply list_elem_of_In.
  - intros u Hu. apply in_app_iff in Hu as [Hu|[<-|[]]].
    + apply elem_of_union. right. auto.
    + apply elem_of_union. left. now apply elem_of_singleton.
  - exists (rest ++ [Seq.resolveURL base link]). now rewrite Hout.
Qed.

Lemma seq_fold_inv (d : Z) (base : option URL) (links : list Link) :
  forall st, Seq.output_ok cfg st -> Seq.output_ok cfg (fold_left (Seq.visit cfg d base) links st).
Proof.
  induction links as [|l links IH]; intros st Hst; [assumption|].
  cbn. apply IH. now apply seq_visit_inv.
Qed.

Lemma seq_iteration_inv (u : string) (st st' : Seq.state) :
  Seq.iteration cfg u st = Some st' -> Seq.output_ok cfg st -> Seq.output_ok cfg st'.
Proof.
  unfold Seq.iteration. intros H Hst.
  destruct (Seq.queue st !! u) as [d|]; [|discriminate].
  assert (Hdel : Seq.output_ok cfg (Seq.mkState (delete u (Seq.queue st))
                                      (Seq.visited st) (Seq.finalURLs st)))
    by exact Hst.
  destruct (d >=? Seq.maxDepth cfg); [now injection H as <-|].
  destruct (Seq.getAndParseLinks cfg u); injection H as <-;
    [now apply seq_fold_inv | assumption].
Qed.

Lemma seq_run_inv (sched : list string) :
  forall st st',
    Seq.output_ok cfg st -> Seq.run cfg sched st = Some st' ->
    Seq.output_ok cfg st'.
Proof.
  induction sched as [|u sched IH]; intros st st' Hst Hrun; cbn in Hrun.
  - now injection Hrun as <-.
  - destruct (Seq.iteration cfg u st) as [st1|] eqn:Hit; [|discriminate].
    eapply IH; [|eassumption]. eapply seq_iteration_inv; eauto.
Qed.

Lemma seq_init_inv : Seq.output_ok cfg (Seq.init cfg).
Proof.
  unfold Seq.output_ok, Seq.init. cbn. split; [apply NoDup_singleton|]. split.
  - intros u [<-|[]]. now apply elem_of_singleton.
  - now exists [].
Qed.

(** The sequential revision lists no URL twice and lists the start URL
    first, whatever the order in which the queue is emptied. *)
Lemma seq_output_has_no_duplicates (sched : list string) (st : Seq.state) :
  Seq.run cfg sched (Seq.init cfg) = Some st ->
  NoDup (Seq.finalURLs st)
  /\ exists rest, Seq.finalURLs st = Seq.startURL cfg :: rest.
Proof.
  intros Hrun.
  destruct (seq_run_inv sched _ _ seq_init_inv Hrun) as (Hnd & _ & Hhead).
  auto.
Qed.

End SeqFacts.

(** * The counter, the channel, and where the output comes from *)

Section CrawlSafety.
Context {net : NetURL}.
Variable cfg : config.

Lemma weight_zero (ws : list wstate) :
  sum_list_with weight ws = 0%nat ->
  Forall (fun w => w = WIdle \/ w = WExit) ws.
Proof.
  induction ws as [|w ws IH]; cbn; intros H; constructor.
  - destruct w; cbn in H; auto; lia.
  - apply IH. lia.
Qed.

(** The wait group and the channel are used as [sync] and the runtime
    demand: the counter is the number of jobs sent or about to be sent and
    not yet done, so no [tasks.Done()] makes it negative; the channel is
    closed only when no job is left, so nothing is sent on it afterwards
    and it is not closed again. *)
Theorem crawl_never_panics (tr : list (action * label)) (st : state) :
  exec cfg tr st ->
  panicked (mem st) = false
  /\ tasks (mem st) = Z.of_nat (outstanding st)
  /\ (forall a l st', step cfg a st = Some (l, st') ->
                      panicked (mem st') = false /\ 0 <= tasks (mem st'))
  /\ (closed (mem st) = true ->
      tasks (mem st) = 0 /\ jobs (mem st) = [] /\ seeded st = true
      /\ Forall (fun w => w = WIdle \/ w = WExit) (workers st)).
Proof.
  intros Hex.
  pose proof (exec_counted cfg tr st Hex) as (Htasks & Hpanic & Hcl & Hclosed).
  split; [assumption|]. split; [assumption|]. split.
  - intros a l st' Hstep.
    assert (Hex' : exec cfg (tr ++ [(a, l)]) st') by (econstructor; eauto).
    apply exec_counted in Hex' as (Ht' & Hp' & _). split; [assumption | lia].
  - intros Hc. specialize (Hclosed Hc).
    assert (Hz : tasks (mem st) = 0) by (apply Hcl; congruence).
    rewrite Hz in Htasks. unfold outstanding in Htasks.
    split; [assumption|].
    split; [destruct (jobs (mem st)); [reflexivity | cbn in Htasks; lia]|].
    split; [destruct (seeded st); [reflexivity | lia]|].
    apply weight_zero. lia.
Qed.

(** What a step does to [finalURLs]. *)
Lemma step_output_cases a st l st' :
  step cfg a st = Some (l, st') ->
  finalURLs (mem st') = finalURLs (mem st)
  \/ exists i j base abs rest,
       workers st !! i = Some (WAppend j base abs rest)
       /\ finalURLs (mem st') = finalURLs (mem st) ++ [abs].
Proof.
  intros Hstep. apply step_inv in Hstep as (_ & [H|[H|[H|H]]]).
  - destruct H as (_ & _ & _ & m' & Hsend & ->). cbn [mem].
    apply jobs_send_mem in Hsend as (-> & _). now left.
  - destruct H as (_ & _ & _ & _ & ->). now left.
  - destruct H as (_ & _ & _ & ->). now left.
  - destruct H as (i & w & w' & m' & _ & Hw & Hs & ->).
    apply worker_step_case in Hs. cbn [mem].
    destruct Hs; cbn [finalURLs];
      rewrite ?(proj1 (tasks_Done_mem (mem st)));
      try (now left).
    + right. eauto 10.
    + apply jobs_send_mem in H as (-> & _). now left.
Qed.

(** Every job is for a URL that the output lists already, and so is the
    job a worker is about to send; the output is within [visited]; and when
    [buildSitemap] returns, the output is all of [visited]. *)
Theorem job_url_is_listed_first (tr : list (action * label)) (st : state) :
  exec cfg tr st ->
  (forall j, In j (jobs_of st) -> In (url j) (finalURLs (mem st)))
  /\ (forall i j base abs rest,
        workers st !! i = Some (WSend j base abs rest) ->
        In abs (finalURLs (mem st)))
  /\ (forall u, In u (finalURLs (mem st)) -> u ∈ visited (mem st))
  /\ (forall out err,
        returned st = Some (out, err) ->
        forall u, u ∈ visited (mem st) <-> In u out).
Proof.
  intros Hex.
  pose proof (exec_jobs_listed cfg tr st Hex) as (Hjobs & Hws).
  pose proof (exec_bookkept cfg tr st Hex) as (Hout & Hperm & Hnodup & Hvis).
  rewrite Forall_forall in Hjobs. rewrite Forall_forall in Hws.
  split; [|split; [|split]].
  - intros j Hj. unfold jobs_of in Hj. apply in_app_iff in Hj as [Hj|Hj].
    + apply Hjobs. now apply list_elem_of_In.
    + apply list_elem_of_In, list_elem_of_omap in Hj as (w & Hw & Hjw).
      specialize (Hws w Hw).
      destruct w; try discriminate Hjw; injection Hjw as <-; cbn in Hws;
        tauto.
  - intros i j base abs rest Hw.
    assert (Hin : WSend j base abs rest ∈ workers st)
      by (eapply list_elem_of_lookup_2; eauto).
    now destruct (Hws _ Hin).
  - intros u Hu. apply Hvis. rewrite Hout in Hu. apply list_elem_of_In in Hu.
    apply elem_of_cons in Hu as [->|Hu]; [left|right].
    rewrite Hperm. apply elem_of_app. now left.
  - intros out err Hret u.
    apply returned_output in Hret as (-> & _ & Hexit).
    assert (Hpend : pending (workers st) = []).
    { clear -Hexit. induction Hexit as [|w ws -> _ IH]; [reflexivity|].
      exact IH. }
    rewrite Hpend, app_nil_r in Hperm.
    rewrite Hvis, Hout, <- list_elem_of_In, !elem_of_cons, Hperm. tauto.
Qed.

(** Where the URLs of the output come from. *)
Lemma exec_linked (tr : list (action * label)) (st : state) :
  exec cfg tr st ->
  forall pre u post,
    finalURLs (mem st) = pre ++ u :: post ->
    (pre = [] /\ u = startURL cfg)
    \/ exists p base foundLinks l,
         In p pre
         /\ getAndParseLinks cfg p = Some foundLinks
         /\ getBaseURL p = Some base
         /\ In l foundLinks
         /\ u = resolveURL (Some base) l /\ u <> ""
         /\ isSameDomain (startURL cfg) u = true
         /\ ignoredExt u = false.
Proof.
  revert tr st. apply (exec_inv cfg (fun _ st =>
    forall pre u post,
      finalURLs (mem st) = pre ++ u :: post ->
      (pre = [] /\ u = startURL cfg)
      \/ exists p base foundLinks l,
           In p pre
           /\ getAndParseLinks cfg p = Some foundLinks
           /\ getBaseURL p = Some base
           /\ In l foundLinks
           /\ u = resolveURL (Some base) l /\ u <> ""
           /\ isSameDomain (startURL cfg) u = true
           /\ ignoredExt u = false)).
  - intros pre u post H. cbn in H. left.
    destruct pre as [|x pre]; [injection H as <- _; auto|].
    injection H as _ H. now destruct pre.
  - intros tr st a l st' Hex IH Hstep pre u post Hout.
    destruct (step_output_cases _ _ _ _ Hstep)
      as [Heq|(i & j & base & abs & rest & Hw & Heq)];
      rewrite Heq in Hout; [now apply (IH pre u post)|].
    destruct post as [|y post'] using rev_ind.
    + clear IH. apply (f_equal (@rev string)) in Hout.
      rewrite !rev_app_distr in Hout. cbn in Hout.
      injection Hout as <- Hpre. apply (f_equal (@rev string)) in Hpre.
      rewrite !rev_involutive in Hpre. subst pre. right.
      assert (Hin : WAppend j base abs rest ∈ workers st)
        by (eapply list_elem_of_lookup_2; eauto).
      pose proof (exec_jobs_listed cfg tr st Hex) as (_ & Hws).
      pose proof (exec_provenance cfg tr st Hex) as (_ & _ & Hok).
      rewrite Forall_forall in Hws. rewrite Forall_forall in Hok.
      specialize (Hws _ Hin). specialize (Hok _ Hin). cbn in Hws, Hok.
      destruct Hok as ((_ & _ & Hbase & _) & links & l0 & Hget & Hl & Hex0).
      apply examine_candidate in Hex0 as (-> & Hne & Hign & Hsame).
      exists (url j), base, links, l0. auto 10.
    + clear IHpost'. rewrite app_comm_cons, app_assoc in Hout.
      apply app_inj_tail in Hout as [Hout _]. now apply (IH pre u post').
Qed.

(** Every URL of the output but the first comes from a link of a page that
    the output lists before it: it is what [resolveURL] makes of the link,
    it is on the host of the start URL, and its extension is not ignored.
    The first URL is the start URL, which is nowhere else in the output. *)
Theorem output_urls_are_linked (tr : list (action * label)) (st : state) :
  exec cfg tr st ->
  forall pre u post,
    finalURLs (mem st) = pre ++ u :: post ->
    ~ In u pre /\ ~ In u post
    /\ (pre = [] <-> u = startURL cfg)
    /\ (pre <> [] ->
        exists p base foundLinks l,
          In p pre
          /\ getAndParseLinks cfg p = Some foundLinks
          /\ getBaseURL p = Some base
          /\ In l foundLinks
          /\ u = resolveURL (Some base) l /\ u <> ""
          /\ isSameDomain (startURL cfg) u = true
          /\ ignoredExt u = false).
Proof.
  intros Hex pre u post Hout.
  pose proof (exec_bookkept cfg _ _ Hex) as (Hhead & Hperm & Hnodup & _).
  assert (Hnd : NoDup (finalURLs (mem st))).
  { rewrite Hhead. apply NoDup_cons in Hnodup as [Hstart Hst].
    apply NoDup_cons. split.
    - intros Hin. apply Hstart. rewrite Hperm. apply elem_of_app. now left.
    - rewrite Hperm in Hst. now apply NoDup_app in Hst as [? _]. }
  rewrite Hout in Hnd. apply NoDup_app in Hnd as (_ & Hpre & Hpost).
  apply NoDup_cons in Hpost as [Hpost _].
  assert (Hno : ~ In u pre).
  { intros Hin. apply (Hpre u); [now apply list_elem_of_In | left]. }
  split; [assumption|].
  split; [intros Hin; apply Hpost; now apply list_elem_of_In|].
  destruct (exec_linked _ _ Hex pre u post Hout) as [[-> ->]|Hsrc].
  - split; [tauto|]. intros H. now contradiction H.
  - split.
    + split; [|intros ->; rewrite Hhead in Hout].
      * intros ->. destruct Hsrc as (p & ? & ? & ? & [] & _).
      * destruct pre as [|x pre]; [reflexivity|]. injection Hout as <- _.
        exfalso. apply Hno. now left.
    + intros _. exact Hsrc.
Qed.

(** With no worker, [buildSitemap] returns the start URL at once; no
    goroutine ever moves: the send of the first job finds no receiver. *)
Theorem no_worker_no_crawl (st : state) :
  numWorkers cfg = 0%nat -> reachable cfg st ->
  st = init cfg
  /\ returned st = Some ([startURL cfg], None)
  /\ forall a, step cfg a st = None.
Proof.
  intros Hn Hreach.
  assert (Hstuck : forall a, step cfg a (init cfg) = None).
  { intros a. unfold step, init. cbn. rewrite Hn.
    destruct a as [| |i]; cbn; reflexivity. }
  assert (Heq : st = init cfg).
  { destruct Hreach as [tr Hex]. revert tr st Hex.
    apply (exec_inv cfg (fun _ st => st = init cfg)); [reflexivity|].
    intros tr st a l st' _ -> Hstep. rewrite Hstuck in Hstep. discriminate. }
  subst st. split; [reflexivity|]. split; [|assumption].
  unfold returned, init. cbn. now rewrite Hn.
Qed.

(** With [maxDepth] at most one the crawl is the fetch of the start page:
    the output stays the start URL alone, nothing else is ever fetched, no
    worker comes to a send, and the crawl driven to its end returns the
    start URL. *)
Theorem shallow_crawl_lists_start_only (tr : list (action * label))
  (st : state) :
  maxDepth cfg <= 1 -> exec cfg tr st ->
  finalURLs (mem st) = [startURL cfg]
  /\ (forall a u ok, In (a, LFetch u ok) tr -> u = startURL cfg)
  /\ ~ blocked cfg st
  /\ returned (drive cfg (potential cfg st) st) = Some ([startURL cfg], None).
Proof.
  intros Hmax Hex.
  assert (Hreach : reachable cfg st) by now exists tr.
  split; [now apply depth_one_lists_start_only|]. split; [|split].
  - revert tr st Hex Hreach. apply (exec_inv cfg (fun tr st =>
      reachable cfg st ->
      forall a u ok, In (a, LFetch u ok) tr -> u = startURL cfg)).
    + intros _ a u ok [].
    + intros tr st a l st' Hex IH Hstep _ a0 u ok Hin.
      apply in_app_iff in Hin as [Hin|[Heq|[]]];
        [apply (IH (ex_intro _ tr Hex) a0 u ok Hin)|].
      injection Heq as -> ->.
      apply step_inv in Hstep as (_ & [H|[H|[H|H]]]);
        try (destruct H as (_ & _ & Hl & _); discriminate Hl);
        try (destruct H as (_ & _ & _ & Hl & _); discriminate Hl).
      destruct H as (i & w & w' & m' & -> & Hw & Hs & ->).
      apply worker_step_case in Hs. inversion Hs; subst.
      pose proof (exec_provenance cfg tr st Hex) as (_ & _ & Hok).
      rewrite Forall_forall in Hok.
      assert (Hj : job_ok cfg j)
        by (apply (Hok (WFetch j)); eapply list_elem_of_lookup_2; eauto).
      destruct Hj as (Hd & Hwithin & Hlt).
      assert (Hz : depth j = 0) by lia. rewrite Hz in Hwithin.
      now inversion Hwithin.
  - apply never_blocked; [assumption | now right].
  - pose proof (drive_reaches cfg (potential cfg st) st) as Hdrive.
    pose proof (drive_stuck cfg (potential cfg st) st (Nat.le_refl _)) as Hstuck.
    set (st' := drive cfg (potential cfg st) st) in *.
    assert (Hreach' : reachable cfg st') by now apply reaches_reachable with st.
    destruct (stuck_cases cfg st' Hreach' Hstuck) as [[[out err] Hret]|Hb].
    + rewrite Hret.
      pose proof (returned_output _ _ _ Hret) as (-> & -> & _).
      now rewrite (depth_one_lists_start_only cfg st' Hmax Hreach').
    + exfalso. apply (never_blocked cfg st' Hreach'); [now right | assumption].
Qed.

End CrawlSafety.

(** * What is fetched *)

Section HistoryFacts.
Context {net : NetURL}.
Variable cfg : config.

Lemma fetches_snoc (tr : list (action * label)) (e : action * label) :
  fetches (tr ++ [e]) = fetches tr ++ option_list (fetch_of e).
Proof.
  unfold fetches. rewrite omap_app. cbn.
  destruct (fetch_of e); reflexivity.
Qed.

Lemma awaiting_middle (l1 l2 : list wstate) (w : wstate) :
  flat_map awaiting_of (l1 ++ w :: l2)
  ≡ₚ (awaiting_of w ++ flat_map awaiting_of (l1 ++ l2)).
Proof.
  rewrite !flat_map_app. cbn. rewrite !app_assoc.
  apply Permutation_app_tail, Permutation_app_comm.
Qed.

Lemma awaiting_idle (n : nat) : flat_map awaiting_of (replicate n WIdle) = [].
Proof. induction n; [reflexivity | exact IHn]. Qed.

(** A step moves a URL from the queue to a worker, from a worker to the
    fetched ones or to the queue, or takes in a URL that [visited] did not
    hold. *)
Lemma step_awaiting tr st a l st' :
  exec cfg tr st -> step cfg a st = Some (l, st') ->
  (fetches (tr ++ [(a, l)]) ++ awaiting cfg st' ≡ₚ fetches tr ++ awaiting cfg st)
  \/ exists abs,
       (abs ∉ visited (mem st))
       /\ stored (tr ++ [(a, l)]) = stored tr ++ [abs]
       /\ (fetches (tr ++ [(a, l)]) ++ awaiting cfg st'
           ≡ₚ abs :: fetches tr ++ awaiting cfg st).
Proof.
  intros Hex Hstep. rewrite fetches_snoc.
  pose proof (exec_counted cfg tr st Hex) as (Htasks & _ & Hcl & Hclosed).
  assert (Hopen : 0 < tasks (mem st) -> closed (mem st) = false).
  { intros Hpos. destruct (closed (mem st)) eqn:Hc; [|reflexivity].
    specialize (Hclosed eq_refl).
    assert (tasks (mem st) = 0) by (apply Hcl; congruence). lia. }
  apply step_inv in Hstep as (_ & [H|[H|[H|H]]]).
  - destruct H as (-> & Hseed & -> & m' & Hsend & ->). left.
    unfold awaiting. cbn [mem seeded workers fetch_of snd option_list option_rect].
    rewrite Hseed, app_nil_r.
    unfold outstanding in Htasks. rewrite Hseed in Htasks.
    apply jobs_send_cases in Hsend as [[Hc _]|(_ & _ & ->)];
      [rewrite Hopen in Hc by lia; discriminate|].
    cbn [jobs]. rewrite map_app. cbn [map app].
    apply Permutation_app_head.
    rewrite <- app_assoc. cbn [app].
    symmetry. apply Permutation_middle.
  - destruct H as (-> & _ & _ & -> & ->). left. cbn. now rewrite app_nil_r.
  - destruct H as (-> & _ & -> & ->). left. cbn. now rewrite app_nil_r.
  - destruct H as (i & w & w' & m' & -> & Hw & Hs & ->).
    destruct (split_insert _ _ _ w' Hw) as (l1 & l2 & Hws & Hins).
    unfold awaiting. cbn [mem seeded workers]. rewrite Hins, Hws.
    unfold outstanding in Htasks. rewrite Hws, weight_middle in Htasks.
    apply worker_step_case in Hs.
    set (S0 := if seeded st then [] else [startURL cfg]).
    destruct Hs; cbn [jobs fetch_of snd option_list option_rect];
      rewrite ?(proj1 (proj2 (proj2 (tasks_Done_mem (mem st)))));
      rewrite ?app_nil_r.
    + (* receive *)
      left. rewrite H. cbn [map]. rewrite !awaiting_middle. cbn [awaiting_of app].
      apply Permutation_app_head, Permutation_app_head.
      symmetry. apply Permutation_middle.
    + left. now rewrite !awaiting_middle.
    + (* fetch *)
      left. rewrite !awaiting_middle. cbn [awaiting_of].
      assert (Hw' : awaiting_of w' = []).
      { apply fetched_cases in H as [[-> _]|(? & ? & _ & -> & _)]; reflexivity. }
      rewrite Hw'. cbn [app]. rewrite <- !app_assoc. apply Permutation_app_head.
      cbn [app]. rewrite (app_assoc S0), (app_assoc S0).
      apply Permutation_cons_app. reflexivity.
    + left. now rewrite !awaiting_middle.
    + left. now rewrite !awaiting_middle.
    + left. now rewrite !awaiting_middle.
    + left. now rewrite !awaiting_middle.
    + left. now rewrite !awaiting_middle.
    + (* store *)
      right. exists abs. split; [assumption|]. split.
      { unfold stored. rewrite omap_app. reflexivity. }
      rewrite !awaiting_middle. cbn [awaiting_of app].
      rewrite (app_assoc S0), (app_assoc (fetches tr)).
      rewrite <- Permutation_middle.
      now rewrite <- !app_assoc.
    + left. now rewrite !awaiting_middle.
    + left. now rewrite !awaiting_middle.
    + (* send *)
      left. cbn [weight] in Htasks.
      apply jobs_send_cases in H as [[Hc _]|(_ & _ & ->)];
        [rewrite Hopen in Hc by lia; discriminate|].
      cbn [jobs]. rewrite map_app. cbn [map].
      rewrite !awaiting_middle. cbn [awaiting_of app url].
      apply Permutation_app_head, Permutation_app_head.
      rewrite <- app_assoc. reflexivity.
Qed.

(** The URLs given to [getAndParseLinks] are different from each other and
    from the URLs of the jobs still to fetch, and all of them are in
    [visited]. *)
Lemma exec_fetches_nodup (tr : list (action * label)) (st : state) :
  exec cfg tr st ->
  NoDup (fetches tr ++ awaiting cfg st)
  /\ (forall u, In u (fetches tr ++ awaiting cfg st) -> u ∈ visited (mem st))
  /\ NoDup (fetches tr).
Proof.
  intros Hex.
  enough (H : NoDup (fetches tr ++ awaiting cfg st)
              /\ forall u, u ∈ fetches tr ++ awaiting cfg st ->
                           u ∈ startURL cfg :: stored tr).
  { destruct H as [Hnd Hin]. split; [assumption|]. split.
    - intros u Hu. apply exec_bookkept in Hex as (_ & _ & _ & Hvis).
      apply Hvis, Hin. now apply list_elem_of_In.
    - now apply NoDup_app in Hnd as [? _]. }
  revert tr st Hex. apply (exec_inv cfg (fun tr st =>
    NoDup (fetches tr ++ awaiting cfg st)
    /\ forall u, u ∈ fetches tr ++ awaiting cfg st ->
                 u ∈ startURL cfg :: stored tr)).
  - unfold awaiting, init. cbn. rewrite awaiting_idle. cbn.
    split; [apply NoDup_singleton|]. intros u Hu. exact Hu.
  - intros tr st a l st' Hex [Hnd Hin] Hstep.
    pose proof (exec_bookkept cfg tr st Hex) as (_ & _ & _ & Hvis).
    assert (Hmono : forall u, u ∈ startURL cfg :: stored tr ->
                              u ∈ startURL cfg :: stored (tr ++ [(a, l)])).
    { intros u Hu. unfold stored. rewrite omap_app.
      apply elem_of_cons in Hu as [->|Hu]; [left|right].
      apply elem_of_app. now left. }
    destruct (step_awaiting _ _ _ _ _ Hex Hstep)
      as [Hperm|(abs & Hnew & Hst & Hperm)].
    + split; [now rewrite Hperm|]. intros u Hu. rewrite Hperm in Hu.
      now apply Hmono, Hin.
    + split.
      * rewrite Hperm. apply NoDup_cons. split; [|assumption].
        intros Habs. apply Hnew, Hvis. auto.
      * intros u Hu. rewrite Hperm in Hu.
        apply elem_of_cons in Hu as [->|Hu]; [|now apply Hmono, Hin].
        rewrite Hst. right. apply elem_of_app. right. left.
Qed.

End HistoryFacts.

(** * What is listed when the crawl returns *)

Section CoverageFacts.
Context {net : NetURL}.
Variable cfg : config.

Lemma received_snoc (tr : list (action * label)) (e : action * label) :
  received (tr ++ [e]) = received tr ++ option_list (recv_of e).
Proof.
  unfold received. rewrite omap_app. cbn. destruct (recv_of e); reflexivity.
Qed.








Lemma sending_middle (l1 l2 : list wstate) (w : wstate) :
  flat_map sending_of (l1 ++ w :: l2)
  ≡ₚ (sending_of w ++ flat_map sending_of (l1 ++ l2)).
Proof.
  rewrite !flat_map_app. cbn. rewrite !app_assoc.
  apply Permutation_app_tail, Permutation_app_comm.
Qed.

Lemma sending_idle (n : nat) : flat_map sending_of (replicate n WIdle) = [].
Proof. induction n; [reflexivity | exact IHn]. Qed.

(** A step moves a job towards a worker; the [append] to [finalURLs] is the
    one step that makes a job. *)
Lemma step_issued tr st a l st' :
  exec cfg tr st -> step cfg a st = Some (l, st') ->
  (finalURLs (mem st') = finalURLs (mem st)
   /\ issued cfg (tr ++ [(a, l)]) st' ≡ₚ issued cfg tr st)
  \/ exists i j base abs rest,
       workers st !! i = Some (WAppend j base abs rest)
       /\ finalURLs (mem st') = finalURLs (mem st) ++ [abs]
       /\ (issued cfg (tr ++ [(a, l)]) st'
           ≡ₚ mkJob abs (depth j + 1) :: issued cfg tr st).
Proof.
  intros Hex Hstep. unfold issued. rewrite received_snoc.
  pose proof (exec_counted cfg tr st Hex) as (Htasks & _ & Hcl & Hclosed).
  assert (Hopen : 0 < tasks (mem st) -> closed (mem st) = false).
  { intros Hpos. destruct (closed (mem st)) eqn:Hc; [|reflexivity].
    specialize (Hclosed eq_refl).
    assert (tasks (mem st) = 0) by (apply Hcl; congruence). lia. }
  apply step_inv in Hstep as (_ & [H|[H|[H|H]]]).
  - destruct H as (-> & Hseed & -> & m' & Hsend & ->). left.
    cbn [mem seeded workers recv_of snd option_list option_rect].
    rewrite Hseed, app_nil_r.
    unfold outstanding in Htasks. rewrite Hseed in Htasks.
    apply jobs_send_cases in Hsend as [[Hc _]|(_ & _ & ->)];
      [rewrite Hopen in Hc by lia; discriminate|].
    cbn [jobs finalURLs]. split; [reflexivity|].
    apply Permutation_app_head. cbn [app]. rewrite <- app_assoc. cbn [app].
    symmetry. apply Permutation_middle.
  - destruct H as (-> & _ & _ & -> & ->). left. cbn. now rewrite app_nil_r.
  - destruct H as (-> & _ & -> & ->). left. cbn. now rewrite app_nil_r.
  - destruct H as (i & w & w' & m' & -> & Hw & Hs & ->).
    destruct (split_insert _ _ _ w' Hw) as (l1 & l2 & Hws & Hins).
    cbn [mem seeded workers]. rewrite Hins. rewrite Hws.
    unfold outstanding in Htasks. rewrite Hws, weight_middle in Htasks.
    apply worker_step_case in Hs.
    set (S0 := if seeded st then [] else [mkJob (startURL cfg) 0]).
    destruct Hs; cbn [jobs finalURLs recv_of snd option_list option_rect];
      rewrite ?(proj1 (proj2 (proj2 (tasks_Done_mem (mem st)))));
      rewrite ?(proj1 (tasks_Done_mem (mem st)));
      rewrite ?app_nil_r.
    + (* receive *)
      left. split; [reflexivity|]. rewrite H, !sending_middle.
      cbn [sending_of app]. rewrite <- app_assoc. cbn [app].
      apply Permutation_app_head, Permutation_middle.
    + left. split; [reflexivity|]. now rewrite !sending_middle.
    + left. split; [reflexivity|]. rewrite !sending_middle.
      assert (Hw' : sending_of w' = []).
      { apply fetched_cases in H as [[-> _]|(? & ? & _ & -> & _)]; reflexivity. }
      now rewrite Hw'.
    + left. split; [reflexivity|]. now rewrite !sending_middle.
    + left. split; [reflexivity|]. now rewrite !sending_middle.
    + left. split; [reflexivity|]. now rewrite !sending_middle.
    + left. split; [reflexivity|]. now rewrite !sending_middle.
    + left. split; [reflexivity|]. now rewrite !sending_middle.
    + left. split; [reflexivity|]. now rewrite !sending_middle.
    + (* append *)
      right. exists i, j, base, abs, rest. split; [now rewrite <- Hws|].
      split; [reflexivity|]. rewrite !sending_middle. cbn [sending_of app].
      rewrite (app_assoc S0), (app_assoc (received tr)).
      rewrite <- Permutation_middle. now rewrite <- !app_assoc.
    + left. split; [reflexivity|]. now rewrite !sending_middle.
    + (* send *)
      left. cbn [weight] in Htasks.
      pose proof (jobs_send_mem _ _ _ _ H) as (Hout & _).
      split; [assumption|].
      apply jobs_send_cases in H as [[Hc _]|(_ & _ & ->)];
        [rewrite Hopen in Hc by lia; discriminate|].
      cbn [jobs]. rewrite !sending_middle. cbn [sending_of app].
      apply Permutation_app_head, Permutation_app_head.
      rewrite <- app_assoc. reflexivity.
Qed.

Lemma exec_covered tr st : exec cfg tr st -> covered cfg tr st.
Proof.
  revert tr st. apply exec_inv.
  - unfold covered, issued, init. cbn. rewrite sending_idle. cbn. split.
    + intros u Hu. exact Hu.
    + intros j [<-|[]]. now left.
  - intros tr st a l st' Hex [Hout Hjobs] Hstep.
    assert (Hmono : forall u, In u (stored tr) ->
                              In u (stored (tr ++ [(a, l)]))).
    { intros u Hu. unfold stored. rewrite omap_app. apply in_app_iff.
      now left. }
    destruct (step_issued _ _ _ _ _ Hex Hstep)
      as [[Heq Hperm]|(i & j & base & abs & rest & Hw & Heq & Hperm)].
    + split.
      * intros u Hu. rewrite Heq in Hu. apply list_elem_of_In.
        rewrite Hperm. apply list_elem_of_In. auto.
      * intros j Hj. apply list_elem_of_In in Hj. rewrite Hperm in Hj.
        apply list_elem_of_In in Hj.
        destruct (Hjobs j Hj); [now left | right; auto].
    + split.
      * intros u Hu. rewrite Heq in Hu. apply list_elem_of_In.
        rewrite Hperm. cbn. apply in_app_iff in Hu as [Hu|[<-|[]]].
        -- right. apply list_elem_of_In. auto.
        -- left.
      * intros j0 Hj. apply list_elem_of_In in Hj. rewrite Hperm in Hj.
        apply elem_of_cons in Hj as [->|Hj].
        -- right. cbn [url]. apply Hmono.
           apply exec_bookkept in Hex as (_ & Hp & _).
           apply list_elem_of_In. rewrite Hp. apply elem_of_app. right.
           unfold pending. apply list_elem_of_omap.
           exists (WAppend j base abs rest).
           split; [eapply list_elem_of_lookup_2; eauto | reflexivity].
        -- apply list_elem_of_In in Hj.
           destruct (Hjobs j0 Hj); [now left | right; auto].
Qed.

(** When [buildSitemap] returns, with a worker at least, every job that
    was issued has been received, and no worker holds one. *)
Lemma returned_issued (tr : list (action * label)) (st : state)
  (out : list string) (err : option string) :
  exec cfg tr st -> returned st = Some (out, err) ->
  (0 < numWorkers cfg)%nat ->
  out = finalURLs (mem st)
  /\ Forall (fun w => w = WExit) (workers st)
  /\ issued cfg tr st = received tr
  /\ pending (workers st) = [].
Proof.
  intros Hex Hret Hpos.
  pose proof (exec_shaped cfg _ _ Hex) as (Hlen & _ & Hopen).
  pose proof (exec_counted cfg _ _ Hex) as (Htasks & _ & Hcl & Hclosed).
  apply returned_output in Hret as (-> & _ & Hexit).
  assert (Hc : closed (mem st) = true).
  { destruct (closed (mem st)) eqn:Hc; [reflexivity|].
    specialize (Hopen eq_refl). destruct (workers st) as [|w ws];
      [cbn in Hlen; lia|].
    apply Forall_cons in Hexit as [-> _]. apply Forall_cons in Hopen as [? _].
    contradiction. }
  specialize (Hclosed Hc).
  assert (Hz : tasks (mem st) = 0) by (apply Hcl; congruence).
  rewrite Hz in Htasks. unfold outstanding in Htasks.
  assert (Hq : jobs (mem st) = [])
    by (destruct (jobs (mem st)); [reflexivity | cbn in Htasks; lia]).
  assert (Hs : seeded st = true) by (destruct (seeded st); [reflexivity | lia]).
  assert (Hsend : flat_map sending_of (workers st) = []).
  { clear -Hexit. induction Hexit as [|w ws -> _ IH]; [reflexivity | exact IH]. }
  assert (Hpend : pending (workers st) = []).
  { clear -Hexit. induction Hexit as [|w ws -> _ IH]; [reflexivity | exact IH]. }
  split; [reflexivity|]. split; [assumption|]. split; [|assumption].
  unfold issued. now rewrite Hs, Hq, Hsend, !app_nil_r.
Qed.

(** Then every URL of the output has been the URL of a received job. *)
Lemma returned_received (tr : list (action * label)) (st : state)
  (out : list string) (err : option string) :
  exec cfg tr st -> returned st = Some (out, err) ->
  (0 < numWorkers cfg)%nat ->
  forall u, In u out -> exists d, In (mkJob u d) (received tr).
Proof.
  intros Hex Hret Hpos u Hu.
  destruct (returned_issued _ _ _ _ Hex Hret Hpos) as (-> & _ & Hiss & _).
  pose proof (exec_covered _ _ Hex) as [Hcov _]. rewrite Hiss in Hcov.
  apply Hcov, in_map_iff in Hu as ([u' d] & <- & Hj). eauto.
Qed.


End CoverageFacts.

Section FetchedOnce.
Context {net : NetURL}.
Variable cfg : config.

(** A received job is fetched next. *)
Lemma exec_fetching tr st :
  exec cfg tr st ->
  forall j, In j (received tr) ->
    In (url j) (fetches tr) \/ exists i, workers st !! i = Some (WFetch j).
Proof.
  revert tr st. apply (exec_inv cfg (fun tr st =>
    forall j, In j (received tr) ->
      In (url j) (fetches tr) \/ exists i, workers st !! i = Some (WFetch j))).
  - intros j [].
  - intros tr st a l st' Hex IH Hstep j Hj.
    rewrite received_snoc in Hj. rewrite fetches_snoc.
    apply in_app_iff in Hj as [Hj|Hj].
    + destruct (IH j Hj) as [Hin|[i Hw]];
        [left; apply in_app_iff; now left|].
      destruct (step_is_worker_step cfg _ _ _ _ i Hstep)
        as [(-> & w0 & w' & Hw0 & Hw' & Ht)|(Hne & Heq)].
      * assert (w0 = WFetch j) as -> by congruence.
        destruct Ht as (m & m' & Ht). cbn [worker_step] in Ht.
        destruct (fetched cfg j) as [ok w1]. injection Ht as <- <- <-.
        left. apply in_app_iff. right. now left.
      * right. exists i. congruence.
    + destruct l; cbn in Hj; try contradiction. destruct Hj as [<-|[]].
      apply step_inv in Hstep as (_ & [H|[H|[H|H]]]);
        try (destruct H as (_ & _ & Hl & _); discriminate Hl);
        try (destruct H as (_ & _ & _ & Hl & _); discriminate Hl).
      destruct H as (i & w & w' & m' & -> & Hw & Hs & ->).
      apply worker_step_case in Hs. inversion Hs; subst.
      right. exists i. cbn [workers].
      apply list_lookup_insert_eq. eapply lookup_lt_Some; eauto.
Qed.

(** What is fetched is in the output already. *)
Lemma exec_fetches_listed tr st :
  exec cfg tr st -> forall u, In u (fetches tr) -> In u (finalURLs (mem st)).
Proof.
  revert tr st. apply (exec_inv cfg (fun tr st =>
    forall u, In u (fetches tr) -> In u (finalURLs (mem st)))).
  - intros u [].
  - intros tr st a l st' Hex IH Hstep u Hu.
    destruct (step_output_grows cfg _ _ _ _ Hstep) as [more Hmore].
    rewrite Hmore. apply in_app_iff. left.
    rewrite fetches_snoc in Hu. apply in_app_iff in Hu as [Hu|Hu]; [auto|].
    destruct l; cbn in Hu; try contradiction. destruct Hu as [<-|[]].
    apply step_inv in Hstep as (_ & [H|[H|[H|H]]]);
      try (destruct H as (_ & _ & Hl & _); discriminate Hl);
      try (destruct H as (_ & _ & _ & Hl & _); discriminate Hl).
    destruct H as (i & w & w' & m' & -> & Hw & Hs & ->).
    apply worker_step_case in Hs. inversion Hs; subst.
    apply exec_jobs_listed in Hex as (_ & Hws).
    rewrite Forall_forall in Hws. apply (Hws (WFetch j)).
    eapply list_elem_of_lookup_2; eauto.
Qed.

(** Every listed page is fetched, once: the URLs given to
    [getAndParseLinks] are in the output and are different from each other
    and from the URLs of the jobs still to fetch, and when [buildSitemap]
    returns, with a worker at least, they are the output, the pages at the
    depth ceiling and the pages that failed included. *)
Theorem listed_pages_are_fetched_once (tr : list (action * label))
  (st : state) :
  exec cfg tr st ->
  NoDup (fetches tr)
  /\ NoDup (fetches tr ++ awaiting cfg st)
  /\ (forall u, In u (fetches tr) -> In u (finalURLs (mem st)))
  /\ (forall out err,
        returned st = Some (out, err) -> (0 < numWorkers cfg)%nat ->
        fetches tr ≡ₚ out).
Proof.
  intros Hex.
  destruct (exec_fetches_nodup cfg tr st Hex) as (Hnd & _ & Hnd').
  split; [assumption|]. split; [assumption|].
  split; [now apply exec_fetches_listed|].
  intros out err Hret Hpos.
  pose proof (returned_received cfg tr st out err Hex Hret Hpos) as Hrecv.
  pose proof (exec_bookkept cfg _ _ Hex) as (Hout & Hperm & Hnodup & _).
  pose proof (returned_output _ _ _ Hret) as (-> & _ & Hexit).
  apply NoDup_Permutation; [assumption| |].
  - rewrite Hout. apply NoDup_cons in Hnodup as [Hstart Hst].
    apply NoDup_cons. split.
    + intros Hin. apply Hstart. rewrite Hperm. apply elem_of_app. now left.
    + rewrite Hperm in Hst. now apply NoDup_app in Hst as [? _].
  - intros u. rewrite !list_elem_of_In. split.
    + now apply exec_fetches_listed.
    + intros Hu. destruct (Hrecv u Hu) as [d Hd].
      destruct (exec_fetching _ _ Hex _ Hd) as [Hin|[i Hw]]; [exact Hin|].
      rewrite Forall_forall in Hexit.
      assert (Habs : WFetch (mkJob u d) = WExit)
        by (apply Hexit; eapply list_elem_of_lookup_2; eauto).
      discriminate Habs.
Qed.

End FetchedOnce.

(** * The loop of the sequential revision *)

Section SeqLoopFacts.
Import Seq SeqLoop.
Context {net : NetURL}.
Variable cfg : Seq.config.

Lemma visit_cases (d : Z) (base : option URL) (st : Seq.state) (l : Link) :
  (visit cfg d base st l = st
   /\ (forall abs, candidate cfg base l = Some abs -> abs ∈ visited st))
  \/ exists abs,
       candidate cfg base l = Some abs /\ abs ∉ visited st
       /\ visit cfg d base st l
          = mkState (if d + 1 <? maxDepth cfg
                     then <[abs := d + 1]> (queue st) else queue st)
                    ({[abs]} ∪ visited st) (finalURLs st ++ [abs]).
Proof.
  unfold visit, candidate.
  destruct (String.eqb (resolveURL base l) ""); [left; now split|].
  destruct (isSameDomain (startURL cfg) (resolveURL base l));
    [|left; now split].
  cbn [andb].
  destruct (bool_decide (resolveURL base l ∈ visited st)) eqn:Hv; cbn [negb].
  - left. split; [reflexivity|]. intros abs H. injection H as <-.
    now apply bool_decide_eq_true in Hv.
  - right. exists (resolveURL base l). split; [reflexivity|].
    split; [now apply bool_decide_eq_false in Hv | reflexivity].
Qed.

Lemma visit_ok (d : Z) (base : option URL) (st : Seq.state) (l : Link) :
  0 <= d -> loop_ok cfg st -> loop_ok cfg (visit cfg d base st l).
Proof.
  intros Hd Hok.
  destruct (visit_cases d base st l) as [[-> _]|(abs & _ & Hnew & ->)];
    [assumption|].
  destruct Hok as (Hnd & Hvis & (rest & Hout) & Hq).
  unfold loop_ok. cbn [finalURLs visited queue]. split; [|split; [|split]].
  - apply NoDup_app. split; [assumption|]. split; [|apply NoDup_singleton].
    intros u Hu Hu'. apply list_elem_of_singleton in Hu'. subst.
    apply Hnew, Hvis. now apply list_elem_of_In.
  - intros u. rewrite elem_of_union, elem_of_singleton, in_app_iff, Hvis.
    cbn. intuition.
  - exists (rest ++ [abs]). now rewrite Hout.
  - intros u d0 Hu. destruct (d + 1 <? maxDepth cfg) eqn:Hlt.
    + apply Z.ltb_lt in Hlt.
      destruct (decide (u = abs)) as [->|Hne].
      * rewrite lookup_insert_eq in Hu. injection Hu as <-.
        split; [apply elem_of_union; left; now apply elem_of_singleton|].
        split; [lia | now left].
      * rewrite lookup_insert_ne in Hu by congruence.
        destruct (Hq u d0 Hu) as (? & ? & ?).
        split; [apply elem_of_union; now right | now split].
    + destruct (Hq u d0 Hu) as (? & ? & ?).
      split; [apply elem_of_union; now right | now split].
Qed.

Lemma fold_visit_ok (d : Z) (base : option URL) (links : list Link) :
  0 <= d -> forall st, loop_ok cfg st ->
  loop_ok cfg (fold_left (visit cfg d base) links st).
Proof.
  intros Hd. induction links as [|l links IH]; intros st Hst; [assumption|].
  cbn. apply IH. now apply visit_ok.
Qed.

Lemma init_ok : loop_ok cfg (Seq.init cfg).
Proof.
  unfold loop_ok, Seq.init. cbn. split; [apply NoDup_singleton|].
  split; [|split; [now exists []|]].
  - intros u. rewrite elem_of_singleton. split; [now left | now intros [|[]]].
  - intros u d Hu. apply lookup_singleton_Some in Hu as [<- <-].
    split; [now apply elem_of_singleton|]. split; [lia | now right].
Qed.

Lemma iteration_ok (u : string) (st st' : Seq.state) :
  iteration cfg u st = Some st' -> loop_ok cfg st -> loop_ok cfg st'.
Proof.
  unfold iteration. intros H Hst.
  destruct (queue st !! u) as [d|] eqn:Hu; [|discriminate].
  destruct Hst as (Hnd & Hvis & Hhead & Hq).
  destruct (Hq u d Hu) as (_ & Hd & _).
  assert (Hdel : loop_ok cfg (mkState (delete u (queue st)) (visited st)
                                      (finalURLs st))).
  { unfold loop_ok. cbn [finalURLs visited queue].
    split; [assumption|]. split; [assumption|]. split; [assumption|].
    intros v dv Hv. apply lookup_delete_Some in Hv as [_ Hv]. eauto. }
  destruct (d >=? maxDepth cfg); [now injection H as <-|].
  destruct (getAndParseLinks cfg u); injection H as <-;
    [now apply fold_visit_ok | assumption].
Qed.

Lemma run_ok (sched : list string) :
  forall st st', loop_ok cfg st -> run cfg sched st = Some st' -> loop_ok cfg st'.
Proof.
  induction sched as [|u sched IH]; intros st st' Hst Hrun; cbn in Hrun.
  - now injection Hrun as <-.
  - destruct (iteration cfg u st) as [st1|] eqn:Hit; [|discriminate].
    eapply IH; [|eassumption]. eapply iteration_ok; eauto.
Qed.

(** Whatever the order in which Go's map gives its keys: the output of the
    sequential loop has no duplicate, starts with the start URL and is what
    [visited] holds; every queued URL is listed, and its depth is below
    [maxDepth], so that the test [currentDepth >= maxDepth] can only stop
    the first round, when [maxDepth] is not positive. *)
Theorem seq_loop_invariants (sched : list string) (st : Seq.state) :
  run cfg sched (Seq.init cfg) = Some st ->
  NoDup (finalURLs st)
  /\ (exists rest, finalURLs st = startURL cfg :: rest)
  /\ (forall u, u ∈ visited st <-> In u (finalURLs st))
  /\ (forall u d, queue st !! u = Some d ->
                  In u (finalURLs st) /\ 0 <= d < Z.max 1 (maxDepth cfg))
  /\ (forall u d, queue st !! u = Some d -> d >= maxDepth cfg ->
                  u = startURL cfg /\ d = 0 /\ maxDepth cfg <= 0
                  /\ sched = []).
Proof.
  intros Hrun.
  destruct (run_ok sched _ _ init_ok Hrun) as (Hnd & Hvis & Hhead & Hq).
  split; [assumption|]. split; [assumption|]. split; [assumption|]. split.
  - intros u d Hu. destruct (Hq u d Hu) as (Hv & Hd & Hlt).
    split; [now apply Hvis | lia].
  - intros u d Hu Hge. destruct (Hq u d Hu) as (_ & _ & [Hlt|[-> ->]]); [lia|].
    split; [reflexivity|]. split; [reflexivity|]. split; [lia|].
    destruct sched as [|v sched]; [reflexivity|]. exfalso.
    cbn in Hrun. unfold iteration in Hrun at 1. cbn in Hrun.
    destruct (decide (v = startURL cfg)) as [->|Hne].
    + rewrite lookup_singleton_eq in Hrun.
      destruct (Z.geb_spec 0 (maxDepth cfg)); [|lia].
      rewrite delete_singleton_eq in Hrun.
      destruct sched as [|w sched]; cbn in Hrun.
      * injection Hrun as <-. cbn in Hu. now rewrite lookup_empty in Hu.
      * unfold iteration in Hrun at 1. cbn in Hrun.
        now rewrite lookup_empty in Hrun.
    + rewrite lookup_singleton_ne in Hrun by congruence. discriminate.
Qed.

Lemma fold_visit_spec (d : Z) (base : option URL) (links : list Link) :
  forall st,
    (forall u, u ∈ visited st ->
       u ∈ visited (fold_left (visit cfg d base) links st)
       /\ queue (fold_left (visit cfg d base) links st) !! u = queue st !! u)
    /\ (forall l abs, In l links -> candidate cfg base l = Some abs ->
          abs ∈ visited (fold_left (visit cfg d base) links st))
    /\ (forall u, u ∈ visited (fold_left (visit cfg d base) links st) ->
          u ∈ visited st \/ exists l, In l links /\ candidate cfg base l = Some u).
Proof.
  induction links as [|l links IH]; intros st; cbn [fold_left].
  - split; [now intros|]. split; [now intros ? ? []|]. intros u Hu; now left.
  - destruct (IH (visit cfg d base st l)) as (IH1 & IH2 & IH3).
    assert (Hgrow : forall u, u ∈ visited st ->
              u ∈ visited (visit cfg d base st l)
              /\ queue (visit cfg d base st l) !! u = queue st !! u).
    { intros u Hu.
      destruct (visit_cases d base st l) as [[-> _]|(abs & _ & Hnew & ->)];
        [now split|].
      cbn [visited queue]. split; [apply elem_of_union; now right|].
      destruct (d + 1 <? maxDepth cfg); [|reflexivity].
      apply lookup_insert_ne. intros ->. contradiction. }
    assert (Hhere : forall abs, candidate cfg base l = Some abs ->
              abs ∈ visited (visit cfg d base st l)).
    { intros abs Habs.
      destruct (visit_cases d base st l) as [[-> Hall]|(abs' & Hc & _ & ->)];
        [now apply Hall|].
      cbn [visited]. apply elem_of_union; left. apply elem_of_singleton.
      congruence. }
    assert (Hback : forall u, u ∈ visited (visit cfg d base st l) ->
              u ∈ visited st \/ candidate cfg base l = Some u).
    { intros u Hu.
      destruct (visit_cases d base st l) as [[Heq _]|(abs' & Hc & _ & Heq)];
        rewrite Heq in Hu; [now left|].
      cbn [visited] in Hu. apply elem_of_union in Hu as [Hu|Hu]; [|now left].
      apply elem_of_singleton in Hu. subst. now right. }
    split; [|split].
    + intros u Hu. destruct (Hgrow u Hu) as [Hv Hq].
      destruct (IH1 u Hv) as [Hv' Hq']. split; [assumption | congruence].
    + intros l' abs [<-|Hin] Habs; [|now apply (IH2 l')].
      now apply IH1, Hhere.
    + intros u Hu. destruct (IH3 u Hu) as [Hv|(l' & Hin & Hc)].
      * destruct (Hback u Hv) as [|Hc]; [now left|].
        right. exists l. split; [now left | assumption].
      * right. exists l'. split; [now right | assumption].
Qed.

Lemma potential_insert (st : Seq.state) (u : string) (d : Z) q v out :
  queue st !! u = None ->
  potential cfg (mkState (<[u := d]> (queue st)) v out)
  = (entry_cost cfg (u, d) + potential cfg (mkState (queue st) q out))%nat.
Proof.
  intros Hu. unfold potential. cbn [queue].
  now rewrite (sum_list_with_Permutation_proper _ _ _ (map_to_list_insert _ _ _ Hu)).
Qed.

Lemma potential_delete (st : Seq.state) (u : string) (d : Z) v out :
  queue st !! u = Some d ->
  potential cfg st
  = (entry_cost cfg (u, d) + potential cfg (mkState (delete u (queue st)) v out))%nat.
Proof.
  intros Hu. unfold potential. cbn [queue].
  now rewrite <- (sum_list_with_Permutation_proper _ _ _ (map_to_list_delete _ _ _ Hu)).
Qed.

Lemma visit_potential (d : Z) (base : option URL) (st : Seq.state) (l : Link) :
  loop_ok cfg st ->
  (potential cfg (visit cfg d base st l)
   <= potential cfg st + link_cost cfg d base l)%nat.
Proof.
  intros (_ & _ & _ & Hq).
  destruct (visit_cases d base st l) as [[-> _]|(abs & Hc & Hnew & ->)]; [lia|].
  unfold link_cost. rewrite Hc.
  destruct (d + 1 <? maxDepth cfg).
  - assert (Hfresh : queue st !! abs = None).
    { destruct (queue st !! abs) as [d0|] eqn:E; [|reflexivity].
      now destruct (Hq abs d0 E). }
    rewrite (potential_insert st abs (d + 1) (visited st) _ _ Hfresh).
    unfold entry_cost, potential. cbn. lia.
  - unfold potential. cbn. lia.
Qed.

Lemma fold_visit_potential (d : Z) (base : option URL) (links : list Link) :
  0 <= d -> forall st, loop_ok cfg st ->
  (potential cfg (fold_left (visit cfg d base) links st)
   <= potential cfg st + sum_list_with (link_cost cfg d base) links)%nat.
Proof.
  intros Hd. induction links as [|l links IH]; intros st Hst; cbn; [lia|].
  pose proof (visit_potential d base st l Hst).
  pose proof (IH _ (visit_ok d base st l Hd Hst)). lia.
Qed.

Lemma link_cost_sum (d : Z) (u : string) (foundLinks : list Link) :
  getAndParseLinks cfg u = Some foundLinks ->
  (sum_list_with (link_cost cfg d (getBaseURL u)) foundLinks
   <= cost cfg (levels cfg d) u)%nat.
Proof.
  intros Hf. destruct (Z.ltb_spec (d + 1) (maxDepth cfg)) as [Hlt|Hge].
  - replace (levels cfg d) with (S (levels cfg (d + 1)))
      by (unfold levels; lia).
    cbn [cost]. rewrite Hf. apply Nat.eq_le_incl. clear Hf.
    induction foundLinks as [|l ls IH]; [reflexivity|].
    cbn [sum_list_with]. f_equal; [|exact IH].
    unfold link_cost. destruct (candidate cfg (getBaseURL u) l); [|reflexivity].
    destruct (Z.ltb_spec (d + 1) (maxDepth cfg)); [reflexivity | lia].
  - replace (sum_list_with (link_cost cfg d (getBaseURL u)) foundLinks) with O;
      [lia|]. clear Hf.
    induction foundLinks as [|l ls IH]; [reflexivity|].
    cbn [sum_list_with]. rewrite <- IH. unfold link_cost.
    destruct (candidate cfg (getBaseURL u) l); [|reflexivity].
    destruct (Z.ltb_spec (d + 1) (maxDepth cfg)); [lia | reflexivity].
Qed.

Lemma iteration_potential (u : string) (st st' : Seq.state) :
  loop_ok cfg st -> iteration cfg u st = Some st' ->
  (S (potential cfg st') <= potential cfg st)%nat.
Proof.
  intros Hst H. pose proof Hst as (Hnd & Hvis & Hhead & Hq).
  unfold iteration in H.
  destruct (queue st !! u) as [d|] eqn:Hu; [|discriminate].
  destruct (Hq u d Hu) as (_ & Hd & _).
  rewrite (potential_delete st u d (visited st) (finalURLs st) Hu).
  unfold entry_cost at 1. cbn [fst snd].
  assert (Hdel : loop_ok cfg (mkState (delete u (queue st)) (visited st)
                                      (finalURLs st))).
  { unfold loop_ok. cbn [finalURLs visited queue].
    split; [assumption|]. split; [assumption|]. split; [assumption|].
    intros v dv Hv. apply lookup_delete_Some in Hv as [_ Hv]. eauto. }
  destruct (d >=? maxDepth cfg); [injection H as <-; lia|].
  destruct (getAndParseLinks cfg u) as [foundLinks|] eqn:Hf;
    injection H as <-; [|lia].
  pose proof (fold_visit_potential d (getBaseURL u) foundLinks Hd _ Hdel).
  pose proof (link_cost_sum d u foundLinks Hf). lia.
Qed.

Lemma run_potential (sched : list string) :
  forall st st', loop_ok cfg st -> run cfg sched st = Some st' ->
  (length sched + potential cfg st' <= potential cfg st)%nat.
Proof.
  induction sched as [|u sched IH]; intros st st' Hst Hrun; cbn in Hrun.
  - injection Hrun as <-. cbn. lia.
  - destruct (iteration cfg u st) as [st1|] eqn:Hit; [|discriminate].
    pose proof (iteration_potential u st st1 Hst Hit).
    pose proof (IH st1 st' (iteration_ok u st st1 Hit Hst) Hrun).
    cbn [length]. lia.
Qed.

Lemma run_app (s1 s2 : list string) (st : Seq.state) :
  run cfg (s1 ++ s2) st
  = match run cfg s1 st with Some st1 => run cfg s2 st1 | None => None end.
Proof.
  revert st. induction s1 as [|u s1 IH]; intros st; cbn; [reflexivity|].
  destruct (iteration cfg u st); [apply IH | reflexivity].
Qed.

Lemma potential_init : potential cfg (Seq.init cfg) = bound cfg.
Proof.
  unfold potential, Seq.init, bound. cbn [queue].
  rewrite map_to_list_singleton. cbn. unfold entry_cost. cbn. lia.
Qed.

Lemma drive_runs (fuel : nat) :
  forall st, loop_ok cfg st -> (potential cfg st <= fuel)%nat ->
  queue (drive cfg fuel st) = ∅
  /\ exists sched, run cfg sched st = Some (drive cfg fuel st).
Proof.
  induction fuel as [|fuel IH]; intros st Hst Hle.
  - cbn [drive]. split; [|now exists []].
    apply map_to_list_empty_iff. unfold potential in Hle.
    destruct (map_to_list (queue st)) as [|e es]; [reflexivity|].
    cbn in Hle. unfold entry_cost in Hle. lia.
  - cbn [drive]. destruct (map_to_list (queue st)) as [|[u d] es] eqn:E.
    + split; [now apply map_to_list_empty_iff | now exists []].
    + assert (Hu : queue st !! u = Some d).
      { apply elem_of_map_to_list. rewrite E. now left. }
      destruct (iteration cfg u st) as [st1|] eqn:Hit.
      * pose proof (iteration_potential u st st1 Hst Hit).
        destruct (IH st1 (iteration_ok u st st1 Hit Hst) ltac:(lia))
          as [Hq [sched Hrun]].
        split; [assumption|]. exists (u :: sched). cbn. now rewrite Hit.
      * unfold iteration in Hit. rewrite Hu in Hit.
        destruct (d >=? maxDepth cfg); [discriminate|].
        destruct (getAndParseLinks cfg u); discriminate.
Qed.

(** The sequential loop ends, whatever the order in which Go's map hands
    out its keys: a run of the loop has at most [bound] rounds, a number
    read off the site, every key of a queue that is not empty can be taken
    for a further round, and taking the first key each time empties the
    queue within [bound] rounds, where [buildSitemap] returns the URLs
    with a nil error. *)
Theorem seq_loop_terminates (sched : list string) (st : Seq.state) :
  run cfg sched (Seq.init cfg) = Some st ->
  (length sched + potential cfg st <= bound cfg)%nat
  /\ (forall u, is_Some (queue st !! u) <-> is_Some (iteration cfg u st))
  /\ (exists more,
        run cfg (sched ++ more) (Seq.init cfg)
        = Some (drive cfg (potential cfg st) st))
  /\ Seq.returned (drive cfg (potential cfg st) st)
     = Some (finalURLs (drive cfg (potential cfg st) st), None).
Proof.
  intros Hrun. pose proof (run_ok sched _ _ init_ok Hrun) as Hst.
  split; [|split; [|split]].
  - rewrite <- potential_init. now apply run_potential; [apply init_ok|].
  - intros u. unfold iteration.
    destruct (queue st !! u) as [d|]; [|split; intros [? ?]; discriminate].
    split; intros _; [|eexists; reflexivity].
    destruct (d >=? maxDepth cfg); [eexists; reflexivity|].
    destruct (getAndParseLinks cfg u); eexists; reflexivity.
  - destruct (drive_runs (potential cfg st) st Hst (Nat.le_refl _))
      as [_ [more Hmore]].
    exists more. now rewrite run_app, Hrun.
  - destruct (drive_runs (potential cfg st) st Hst (Nat.le_refl _)) as [Hq _].
    unfold Seq.returned. now rewrite Hq, bool_decide_eq_true_2.
Qed.

Lemma run_snoc (sched : list string) (u : string) (st : Seq.state) :
  run cfg (sched ++ [u]) st
  = match run cfg sched st with
    | Some st1 => iteration cfg u st1
    | None => None
    end.
Proof.
  rewrite run_app. destruct (run cfg sched st) as [st1|]; [|reflexivity].
  cbn. now destruct (iteration cfg u st1).
Qed.

(** What the rounds made so far have done. *)
Lemma run_history (sched : list string) :
  forall st, run cfg sched (Seq.init cfg) = Some st ->
  NoDup sched
  /\ (forall p, In p sched -> p ∈ visited st /\ queue st !! p = None)
  /\ (0 < maxDepth cfg -> forall p u, In p sched -> found cfg p u ->
        u ∈ visited st)
  /\ (forall u, u ∈ visited st ->
        u = startURL cfg \/ exists p, In p sched /\ found cfg p u)
  /\ (maxDepth cfg <= 0 -> visited st = {[startURL cfg]}).
Proof.
  induction sched as [|u sched IH] using rev_ind; intros st Hrun.
  - cbn in Hrun. injection Hrun as <-. split; [constructor|].
    split; [now intros ? []|]. split; [now intros ? ? ? []|]. split.
    + intros u Hu. left. cbn in Hu. now apply elem_of_singleton in Hu.
    + reflexivity.
  - rewrite run_snoc in Hrun.
    destruct (run cfg sched (Seq.init cfg)) as [st1|] eqn:Hrun1; [|discriminate].
    destruct (IH st1 eq_refl) as (Hnd & Hold & Hclosed & Hprov & Hzero).
    pose proof (run_ok sched _ _ init_ok Hrun1) as (_ & _ & _ & Hq).
    pose proof Hrun as Hit. unfold iteration in Hit.
    destruct (queue st1 !! u) as [d|] eqn:Hu; [|discriminate].
    destruct (Hq u d Hu) as (Huv & Hd & Hlt).
    assert (Hfresh : ~ In u sched).
    { intros Hin. destruct (Hold u Hin) as [_ Hnone]. congruence. }
    split; [apply NoDup_app; split; [assumption|];
            split; [|apply NoDup_singleton];
            intros x Hx Hx'; apply list_elem_of_singleton in Hx'; subst;
            now apply Hfresh, list_elem_of_In|].
    set (st0 := mkState (delete u (queue st1)) (visited st1) (finalURLs st1))
      in Hit.
    assert (Hold0 : forall p, In p (sched ++ [u]) ->
              p ∈ visited st0 /\ queue st0 !! p = None).
    { intros p Hp. apply in_app_iff in Hp as [Hp|[<-|[]]].
      - destruct (Hold p Hp) as [Hv Hn]. split; [assumption|].
        cbn. apply lookup_delete_None. now right.
      - split; [assumption|]. cbn. apply lookup_delete_None. now left. }
    destruct (Z.geb_spec d (maxDepth cfg)) as [Hge|Hlow].
    + injection Hit as <-. destruct Hlt as [?|[-> ->]]; [lia|].
      split; [assumption|]. split; [intros; lia|]. split.
      * intros v Hv. cbn in Hv. destruct (Hprov v Hv) as [|(p & Hp & Hf)];
          [now left|]. right. exists p. split; [|assumption].
        apply in_app_iff. now left.
      * intros _. cbn. apply Hzero. lia.
    + destruct (getAndParseLinks cfg u) as [foundLinks|] eqn:Hf.
      * injection Hit as <-.
        destruct (fold_visit_spec d (getBaseURL u) foundLinks st0)
          as (F1 & F2 & F3).
        split; [|split; [|split; [|intros; lia]]].
        -- intros p Hp. destruct (Hold0 p Hp) as [Hv Hn].
           destruct (F1 p Hv) as [Hv' Hq']. split; [assumption | congruence].
        -- intros Hpos p v Hp (links & l & Hlinks & Hl & Hc).
           apply in_app_iff in Hp as [Hp|[<-|[]]].
           ++ apply F1. cbn. apply (Hclosed Hpos p v Hp).
              now exists links, l.
           ++ rewrite Hf in Hlinks. injection Hlinks as <-.
              now apply (F2 l).
        -- intros v Hv. destruct (F3 v Hv) as [Hv1|(l & Hl & Hc)].
           ++ destruct (Hprov v Hv1) as [|(p & Hp & Hfd)]; [now left|].
              right. exists p. split; [apply in_app_iff; now left | assumption].
           ++ right. exists u. split; [apply in_app_iff; right; now left|].
              now exists foundLinks, l.
      * injection Hit as <-.
        split; [assumption|]. split; [|split; [|intros; lia]].
        -- intros Hpos p v Hp (links & l & Hlinks & Hl & Hc).
           apply in_app_iff in Hp as [Hp|[<-|[]]]; [|congruence].
           cbn. apply (Hclosed Hpos p v Hp). now exists links, l.
        -- intros v Hv. cbn in Hv.
           destruct (Hprov v Hv) as [|(p & Hp & Hfd)]; [now left|].
           right. exists p. split; [apply in_app_iff; now left | assumption].
Qed.

(** In the sequential revision no page is taken from the queue twice, so
    no page is fetched twice, and every page taken is listed.  With a
    positive [maxDepth] the output is the start URL and the links found on
    the pages taken so far: every link of such a page that resolves to a
    URL on the start host is listed, also one found at the last depth,
    whose page is listed but never fetched; and nothing else is listed.
    With [maxDepth] at most zero the output is the start URL alone. *)
Theorem seq_output_is_what_pages_link (sched : list string) (st : Seq.state) :
  run cfg sched (Seq.init cfg) = Some st ->
  NoDup sched
  /\ (forall p, In p sched -> In p (finalURLs st) /\ queue st !! p = None)
  /\ (0 < maxDepth cfg ->
      forall u, In u (finalURLs st) <->
                u = startURL cfg \/ exists p, In p sched /\ found cfg p u)
  /\ (maxDepth cfg <= 0 -> finalURLs st = [startURL cfg]).
Proof.
  intros Hrun.
  destruct (run_history sched st Hrun) as (Hnd & Hold & Hclosed & Hprov & Hzero).
  destruct (run_ok sched _ _ init_ok Hrun) as (Hndo & Hvis & (rest & Hhead) & Hq).
  split; [assumption|]. split; [|split].
  - intros p Hp. destruct (Hold p Hp) as [Hv Hn].
    split; [now apply Hvis | assumption].
  - intros Hpos u. rewrite <- Hvis. split; [apply Hprov|].
    intros [->|(p & Hp & Hf)].
    + apply Hvis. rewrite Hhead. now left.
    + now apply (Hclosed Hpos p u).
  - intros Hle. specialize (Hzero Hle).
    destruct rest as [|v rest]; [assumption|]. exfalso.
    assert (Hv : v ∈ visited st) by (apply Hvis; rewrite Hhead; right; now left).
    rewrite Hzero in Hv. apply elem_of_singleton in Hv. subst v.
    rewrite Hhead in Hndo. apply NoDup_cons in Hndo as [Hn _].
    apply Hn. now left.
Qed.

End SeqLoopFacts.

(** * The first worker pools *)

Section UnbufferedFacts.
Import Seq Unbuffered.
Context {net : NetURL}.
Variable cfg : Seq.config.

Lemma u_exec_inv (P : list (action * label) -> state -> Prop) :
  P [] (init cfg) ->
  (forall tr st a l st',
      exec cfg tr st -> P tr st -> step cfg a st = Some (l, st') ->
      P (tr ++ [(a, l)]) st') ->
  forall tr st, exec cfg tr st -> P tr st.
Proof. intros H0 Hs tr st H. induction H; eauto. Qed.

Lemma u_step_stepped a st l st' :
  step cfg a st = Some (l, st') ->
  panicked (mem st) = false /\ stepped cfg st l st'.
Proof.
  unfold step. destruct (panicked (mem st)) eqn:Hp; [discriminate|].
  intros H. split; [reflexivity|]. destruct a as [k| |i|i k].
  - destruct (seeded st) eqn:Hs; [discriminate|].
    destruct (closed (mem st)) eqn:Hc.
    + injection H as <- <-. now apply stepped_seed_panic.
    + destruct (workers st !! k) as [[]|] eqn:Hk; try discriminate.
      injection H as <- <-. now apply stepped_seed.
  - destruct (closer st) eqn:Hcl; [| |discriminate].
    + destruct (tasks (mem st) =? 0) eqn:Ht; [|discriminate].
      injection H as <- <-. apply stepped_wait; [assumption | lia].
    + injection H as <- <-. now apply stepped_close.
  - destruct (workers st !! i) as [w|] eqn:Hw; [|discriminate].
    destruct (worker_step cfg w (mem st)) as [[[l0 w'] m']|] eqn:Hs;
      [|discriminate].
    injection H as <- <-. eapply stepped_worker; eauto.
  - destruct (closed (mem st)) eqn:Hc; [discriminate|].
    destruct (workers st !! i) as [[]|] eqn:Hi; try discriminate.
    destruct (workers st !! k) as [[]|] eqn:Hk; try discriminate.
    injection H as <- <-. now apply stepped_hand.
Qed.

Lemma u_worker_step_wcase w m l w' m' :
  worker_step cfg w m = Some (l, w', m') -> wcase cfg m w l w' m'.
Proof.
  intros H. destruct w; cbn [worker_step] in H.
  - destruct (closed m) eqn:Hc; [|discriminate].
    injection H as <- <- <-. now constructor.
  - destruct (getAndParseLinks cfg (url j)) eqn:Hf; injection H as <- <- <-;
      now constructor.
  - injection H as <- <- <-. constructor.
  - destruct rest as [|l0 rest]; [injection H as <- <- <-; constructor|].
    destruct (SeqLoop.candidate cfg base l0) as [abs|] eqn:Hc.
    + destruct (bool_decide (abs ∈ visited m)) eqn:Hv; injection H as <- <- <-.
      * apply bool_decide_eq_true in Hv. now constructor.
      * apply bool_decide_eq_false in Hv. now constructor.
    + injection H as <- <- <-. now constructor.
  - injection H as <- <- <-. constructor.
  - injection H as <- <- <-. constructor.
  - destruct (closed m) eqn:Hc; [|discriminate].
    injection H as <- <- <-. now constructor.
  - discriminate.
Qed.

Lemma u_flat_map_insert {A B : Type} (f : A -> list B) (ws : list A) (i : nat)
  (w w' : A) :
  ws !! i = Some w ->
  flat_map f (<[i := w']> ws) ++ f w ≡ₚ flat_map f ws ++ f w'.
Proof.
  intros Hi.
  rewrite <- (take_drop_middle ws i w Hi) at 2.
  rewrite (insert_take_drop ws i w') by (eapply lookup_lt_Some; eauto).
  rewrite !flat_map_app. cbn [flat_map].
  rewrite <- !app_assoc.
  apply Permutation_app_head.
  rewrite (app_assoc (f w')), (app_assoc (f w)).
  rewrite (Permutation_app_comm (f w' ++ _) (f w)).
  rewrite (Permutation_app_comm (f w ++ _) (f w')).
  rewrite !app_assoc.
  apply Permutation_app_tail, Permutation_app_comm.
Qed.

Lemma u_pending_insert_quiet (ws : list wstate) (i : nat) (w w' : wstate) :
  ws !! i = Some w -> pending_of w = [] -> pending_of w' = [] ->
  pending (<[i := w']> ws) ≡ₚ pending ws.
Proof.
  intros Hi Hw Hw'. pose proof (u_flat_map_insert pending_of ws i w w' Hi) as H.
  now rewrite Hw, Hw', !app_nil_r in H.
Qed.

Lemma u_weight_insert (ws : list wstate) (i : nat) (w w' : wstate) :
  ws !! i = Some w ->
  (sum_list_with weight (<[i := w']> ws) + weight w
   = sum_list_with weight ws + weight w')%nat.
Proof.
  intros Hi.
  rewrite <- (take_drop_middle ws i w Hi) at 2.
  rewrite (insert_take_drop ws i w') by (eapply lookup_lt_Some; eauto).
  rewrite !sum_list_with_app. cbn [sum_list_with]. lia.
Qed.

Lemma u_entered_cases (j : job) :
  (entered cfg j = WDone j /\ depth j >= maxDepth cfg)
  \/ (entered cfg j = WFetch j /\ depth j < maxDepth cfg).
Proof.
  unfold entered. destruct (Z.geb_spec (depth j) (maxDepth cfg)); [left|right];
    split; (reflexivity || lia).
Qed.

Lemma u_entered_pending (j : job) : pending_of (entered cfg j) = [].
Proof. now destruct (u_entered_cases j) as [[-> _]|[-> _]]. Qed.

Lemma u_entered_weight (j : job) : weight (entered cfg j) = 1%nat.
Proof. now destruct (u_entered_cases j) as [[-> _]|[-> _]]. Qed.

Lemma u_pending_idle (n : nat) : pending (replicate n WIdle) = [].
Proof. induction n as [|n IH]; [reflexivity | exact IH]. Qed.

Lemma u_weight_idle (n : nat) : sum_list_with weight (replicate n WIdle) = 0%nat.
Proof. induction n as [|n IH]; [reflexivity | exact IH]. Qed.

Lemma u_exec_bookkept tr st : exec cfg tr st -> bookkept cfg st.
Proof.
  revert tr st. apply (u_exec_inv (fun _ st => bookkept cfg st)).
  - unfold bookkept, init. cbn [mem workers finalURLs visited].
    rewrite u_pending_idle, app_nil_r. split; [apply NoDup_singleton|].
    split; [|now exists []]. intros u.
    now rewrite elem_of_singleton, list_elem_of_singleton.
  - intros tr st a l st' _ (Hnd & Hvis & Hhead) Hstep.
    apply u_step_stepped in Hstep as [_ Hstep].
    destruct Hstep as [k Hs Hc Hk| | | |i w l w' m' Hw Hws|i k j base abs rest Hc Hi Hk];
      unfold bookkept; cbn [mem workers finalURLs visited panic].
    + assert (Hp : pending (<[k := entered cfg (mkJob (startURL cfg) 0)]>
                              (workers st)) ≡ₚ pending (workers st))
        by (eapply u_pending_insert_quiet;
            [exact Hk | reflexivity | apply u_entered_pending]).
      split; [now rewrite Hp|]. split; [|assumption].
      intros u. now rewrite Hp.
    + now split.
    + now split.
    + now split.
    + apply u_worker_step_wcase in Hws.
      destruct Hws as [Hc|j Hf|j links Hf|j|j base|j base l0 rest Hcand
                      |j base l0 rest abs Hcand Hin
                      |j base l0 rest abs Hcand Hnew
                      |j base abs rest|j base abs rest|j base abs rest Hc];
        try (match goal with
             | |- context [pending (<[i := ?w']> (workers st))] =>
                 assert (Hp : pending (<[i := w']> (workers st))
                              ≡ₚ pending (workers st))
                   by (eapply u_pending_insert_quiet; [exact Hw | reflexivity..])
             end;
             unfold tasks_Done, panic;
             try destruct (tasks (mem st) <=? 0);
             cbn [finalURLs visited];
             (split; [now rewrite Hp|]); (split; [|assumption]);
             intros u; now rewrite Hp).
      * (* stored *)
        pose proof (u_flat_map_insert pending_of (workers st) i _
                      (WAppend j base abs rest) Hw) as Hp.
        cbn [pending_of] in Hp. rewrite app_nil_r in Hp.
        fold (pending (<[i := WAppend j base abs rest]> (workers st))) in Hp.
        fold (pending (workers st)) in Hp.
        cbn [finalURLs visited].
        split; [|split; [|assumption]].
        -- rewrite Hp, app_assoc. apply NoDup_app. split; [assumption|].
           split; [|apply NoDup_singleton].
           intros u Hu Hu'. apply list_elem_of_singleton in Hu'. subst u.
           apply Hnew, Hvis, Hu.
        -- intros u. rewrite Hp, app_assoc, elem_of_union, elem_of_singleton,
             elem_of_app, list_elem_of_singleton, Hvis. tauto.
      * (* append *)
        pose proof (u_flat_map_insert pending_of (workers st) i _
                      (WAdd j base abs rest) Hw) as Hp.
        cbn [pending_of] in Hp. rewrite app_nil_r in Hp.
        fold (pending (<[i := WAdd j base abs rest]> (workers st))) in Hp.
        fold (pending (workers st)) in Hp.
        cbn [finalURLs visited].
        assert (Hq : (finalURLs (mem st) ++ [abs])
                     ++ pending (<[i := WAdd j base abs rest]> (workers st))
                     ≡ₚ finalURLs (mem st) ++ pending (workers st)).
        { rewrite <- Hp, <- app_assoc. apply Permutation_app_head.
          apply Permutation_app_comm. }
        split; [now rewrite Hq|]. split.
        -- intros u. now rewrite Hq.
        -- destruct Hhead as [rest0 ->]. now exists (rest0 ++ [abs]).
    + assert (Hp1 : pending (<[i := WLoop j base rest]> (workers st))
                    ≡ₚ pending (workers st))
        by (eapply u_pending_insert_quiet; [exact Hi | reflexivity..]).
      assert (Hk' : <[i := WLoop j base rest]> (workers st) !! k = Some WIdle).
      { rewrite list_lookup_insert_ne; [assumption|]. intros ->. congruence. }
      assert (Hp2 : pending (<[k := entered cfg (mkJob abs (depth j + 1))]>
                               (<[i := WLoop j base rest]> (workers st)))
                    ≡ₚ pending (workers st)).
      { rewrite <- Hp1.
        eapply u_pending_insert_quiet;
          [exact Hk' | reflexivity | apply u_entered_pending]. }
      split; [now rewrite Hp2|]. split; [|assumption].
      intros u. now rewrite Hp2.
Qed.

Lemma u_weight_held (ws : list wstate) (i : nat) (w : wstate) :
  ws !! i = Some w -> (weight w <= sum_list_with weight ws)%nat.
Proof.
  intros Hi. rewrite <- (take_drop_middle ws i w Hi).
  rewrite sum_list_with_app. cbn [sum_list_with]. lia.
Qed.

Lemma u_Forall_not_exit_insert (ws : list wstate) (i : nat) (w : wstate) :
  Forall (fun w => w <> WExit) ws -> w <> WExit ->
  Forall (fun w => w <> WExit) (<[i := w]> ws).
Proof. intros H Hw. now apply Forall_insert. Qed.

Lemma u_entered_not_exit (j : job) : entered cfg j <> WExit.
Proof. now destruct (u_entered_cases j) as [[-> _]|[-> _]]. Qed.

Lemma u_exec_counted tr st : exec cfg tr st -> counted st.
Proof.
  revert tr st. apply (u_exec_inv (fun _ st => counted st)).
  - unfold counted, outstanding, init. cbn [mem workers seeded closer tasks
      panicked closed]. rewrite u_weight_idle, length_replicate.
    split; [reflexivity|]. split; [reflexivity|].
    split; [intros H; now contradiction H|].
    split; [split; discriminate|]. split; [reflexivity|].
    intros _. apply Forall_forall. intros w Hw.
    apply elem_of_replicate in Hw as [-> _]. discriminate.
  - intros tr st a l st' _ (Ht & Hp & Hcl & Hclosed & Hlen & Hopen) Hstep.
    apply u_step_stepped in Hstep as [_ Hstep]. unfold outstanding in Ht.
    destruct Hstep as [k Hs Hc Hk|Hs Hc|Hcw Hz|Hcc
                      |i w l w' m' Hw Hws|i k j base abs rest Hc Hi Hk];
      unfold counted, outstanding;
      cbn [mem workers seeded closer tasks panicked closed panic].
    + rewrite Hs in Ht.
      pose proof (u_weight_insert (workers st) k WIdle
                    (entered cfg (mkJob (startURL cfg) 0)) Hk) as Hwt.
      rewrite u_entered_weight in Hwt. cbn [weight] in Hwt.
      split; [lia|]. split; [assumption|].
      split; [intros Hne; specialize (Hcl Hne); lia|].
      split; [assumption|]. split; [now rewrite length_insert|].
      intros Hc'. apply u_Forall_not_exit_insert; [auto | apply u_entered_not_exit].
    + exfalso. rewrite Hs in Ht.
      assert (closer st <> CWait) by (rewrite (proj1 Hclosed Hc); discriminate).
      specialize (Hcl H). lia.
    + split; [assumption|]. split; [assumption|]. split; [auto|].
      split; [|split; [assumption | assumption]].
      split; [|discriminate]. intros Hc. apply Hclosed in Hc. congruence.
    + assert (Hopen' : closed (mem st) = false).
      { destruct (closed (mem st)); [|reflexivity].
        destruct Hclosed as [Hclosed _]. specialize (Hclosed eq_refl).
        congruence. }
      split; [assumption|]. split; [assumption|].
      split; [intros _; apply Hcl; congruence|].
      split; [now split|]. split; [assumption|]. discriminate.
    + apply u_worker_step_wcase in Hws.
      pose proof (u_weight_held _ _ _ Hw) as Hheld.
      pose proof (u_weight_insert (workers st) i w w' Hw) as Hwt.
      assert (Hbusy : (1 <= weight w)%nat ->
                      closer st = CWait /\ closed (mem st) = false).
      { intros Hone.
        assert (Hcw : closer st = CWait).
        { destruct (closer st) eqn:E; [reflexivity| |];
            (assert (Hne : closer st <> CWait) by congruence;
             rewrite E in Hne; specialize (Hcl Hne); lia). }
        split; [assumption|].
        destruct (closed (mem st)); [|reflexivity].
        destruct Hclosed as [Hclosed _]. specialize (Hclosed eq_refl).
        congruence. }
      rewrite length_insert.
      destruct Hws as [Hc|j Hf|j links Hf|j|j base|j base l0 rest Hcand
                      |j base l0 rest abs Hcand Hin
                      |j base l0 rest abs Hcand Hnew
                      |j base abs rest|j base abs rest|j base abs rest Hc];
        cbn [weight] in *;
        try (destruct (Hbusy ltac:(lia)) as [Hcw Hc']);
        unfold tasks_Done;
        try (destruct (Z.leb_spec (tasks (mem st)) 0); [lia|]);
        cbn [tasks panicked closed];
        try (split; [lia|]; split; [assumption|];
             split; [intros Hne; congruence|];
             split; [assumption|]; split; [assumption|];
             intros _; apply u_Forall_not_exit_insert; [auto | discriminate]).
      * split; [lia|]. split; [assumption|]. split; [assumption|].
        split; [assumption|]. split; [assumption|]. congruence.
      * congruence.
    + pose proof (u_weight_held _ _ _ Hi) as Hheld. cbn [weight] in Hheld.
      assert (Hk' : <[i := WLoop j base rest]> (workers st) !! k = Some WIdle).
      { rewrite list_lookup_insert_ne; [assumption|]. intros ->. congruence. }
      pose proof (u_weight_insert (workers st) i _ (WLoop j base rest) Hi) as H1.
      pose proof (u_weight_insert _ k WIdle
                    (entered cfg (mkJob abs (depth j + 1))) Hk') as H2.
      rewrite u_entered_weight in H2. cbn [weight] in H1, H2.
      split; [lia|]. split; [assumption|].
      split; [intros Hne; specialize (Hcl Hne); lia|].
      split; [assumption|]. split; [now rewrite !length_insert|].
      intros _. apply u_Forall_not_exit_insert; [|apply u_entered_not_exit].
      apply u_Forall_not_exit_insert; [auto | discriminate].
Qed.

Lemma u_fetches_snoc (tr : list (action * label)) (e : action * label) :
  fetches (tr ++ [e]) = fetches tr ++ default [] (option_map (fun j => [j]) (fetch_of e)).
Proof.
  unfold fetches. rewrite omap_app. cbn. now destruct (fetch_of e).
Qed.

Lemma u_entered_held (j : job) : 0 <= depth j -> held_ok cfg (entered cfg j).
Proof.
  intros Hd. destruct (u_entered_cases j) as [[-> _]|[-> Hlt]]; cbn; lia.
Qed.

(** Before the first job is handed over the workers wait; the jobs held
    have depths within bounds, and so have the jobs fetched. *)
Lemma u_exec_held tr st :
  exec cfg tr st ->
  Forall (held_ok cfg) (workers st)
  /\ (seeded st = false -> Forall (fun w => w = WIdle) (workers st))
  /\ (forall j, In j (fetches tr) -> 0 <= depth j < maxDepth cfg).
Proof.
  revert tr st. apply (u_exec_inv (fun tr st =>
    Forall (held_ok cfg) (workers st)
    /\ (seeded st = false -> Forall (fun w => w = WIdle) (workers st))
    /\ (forall j, In j (fetches tr) -> 0 <= depth j < maxDepth cfg))).
  - unfold init. cbn [workers seeded]. split; [|split; [|now intros j []]].
    + apply Forall_forall. intros w Hw.
      apply elem_of_replicate in Hw as [-> _]. exact I.
    + intros _. apply Forall_forall. intros w Hw.
      now apply elem_of_replicate in Hw as [-> _].
  - intros tr st a l st' Hex (Hheld & Hidle & Hf) Hstep.
    apply u_step_stepped in Hstep as [_ Hstep].
    assert (Hquiet : (forall j ok, l <> LFetch j ok) ->
              forall j, In j (fetches (tr ++ [(a, l)])) ->
                        0 <= depth j < maxDepth cfg).
    { intros Hl j Hj. rewrite u_fetches_snoc in Hj.
      apply in_app_iff in Hj as [Hj|Hj]; [now apply Hf|].
      destruct l; cbn in Hj; try contradiction. now contradiction (Hl j0 ok). }
    destruct Hstep as [k Hs Hc Hk|Hs Hc|Hcw Hz|Hcc
                      |i w l w' m' Hw Hws|i k j base abs rest Hc Hi Hk];
      cbn [workers seeded].
    + split; [|split; [discriminate | now apply Hquiet]].
      apply Forall_insert; [assumption|]. now apply u_entered_held.
    + split; [assumption|]. split; [discriminate | now apply Hquiet].
    + split; [assumption|]. split; [assumption | now apply Hquiet].
    + split; [assumption|]. split; [assumption | now apply Hquiet].
    + assert (Hw0 : held_ok cfg w).
      { rewrite Forall_forall in Hheld. apply Hheld.
        eapply list_elem_of_lookup_2; eauto. }
      assert (Hseeded : seeded st = true).
      { destruct (seeded st) eqn:Hs; [reflexivity|]. exfalso.
        specialize (Hidle eq_refl). rewrite Forall_forall in Hidle.
        assert (w = WIdle) as ->
          by (apply Hidle; eapply list_elem_of_lookup_2; eauto).
        cbn [worker_step] in Hws.
        destruct (closed (mem st)) eqn:Hc; [|discriminate].
        destruct (u_exec_counted _ _ Hex) as (Ht & _ & Hcl & Hclosed & _).
        unfold outstanding in Ht. rewrite Hs in Ht.
        assert (Hne : closer st <> CWait)
          by (rewrite (proj1 Hclosed Hc); discriminate).
        specialize (Hcl Hne). lia. }
      apply u_worker_step_wcase in Hws.
      split; [|split; [congruence|]].
      * apply Forall_insert; [assumption|].
        destruct Hws; cbn [held_ok] in *; try exact I; lia.
      * destruct Hws; try (apply Hquiet; discriminate);
          intros j' Hj'; rewrite u_fetches_snoc in Hj';
          apply in_app_iff in Hj' as [Hj'|[<-|[]]]; auto.
    + assert (Hw0 : held_ok cfg (WSend j base abs rest)).
      { rewrite Forall_forall in Hheld. apply Hheld.
        eapply list_elem_of_lookup_2; eauto. }
      cbn [held_ok] in Hw0.
      split; [|split; [|now apply Hquiet]].
      * apply Forall_insert; [apply Forall_insert; [assumption|]|].
        -- exact Hw0.
        -- apply u_entered_held. cbn. lia.
      * intros Hs. specialize (Hidle Hs). rewrite Forall_forall in Hidle.
        assert (WSend j base abs rest = WIdle)
          by (apply Hidle; eapply list_elem_of_lookup_2; eauto).
        discriminate.
Qed.

Lemma u_worker_stuck (w : wstate) (m : shared) :
  worker_step cfg w m = None ->
  (w = WIdle /\ closed m = false) \/ (is_send w = true /\ closed m = false)
  \/ w = WExit.
Proof.
  destruct w; cbn [worker_step]; intros H; try discriminate H.
  - left. destruct (closed m); [discriminate H | now split].
  - destruct (getAndParseLinks cfg (url j)); discriminate H.
  - destruct rest as [|l rest]; [discriminate H|].
    destruct (SeqLoop.candidate cfg base l) as [abs|]; [|discriminate H].
    destruct (bool_decide (abs ∈ visited m)); discriminate H.
  - right. left. destruct (closed m); [discriminate H | now split].
  - now right; right.
Qed.

Lemma u_sender_open tr st i w :
  exec cfg tr st -> workers st !! i = Some w -> (1 <= weight w)%nat ->
  closer st = CWait /\ closed (mem st) = false /\ seeded st = true
  /\ tasks (mem st) <> 0.
Proof.
  intros Hex Hw Hone.
  destruct (u_exec_counted _ _ Hex) as (Ht & _ & Hcl & Hclosed & _).
  destruct (u_exec_held _ _ Hex) as (_ & Hidle & _).
  pose proof (u_weight_held _ _ _ Hw) as Hheld. unfold outstanding in Ht.
  assert (Hnz : tasks (mem st) <> 0) by lia.
  assert (Hcw : closer st = CWait).
  { destruct (closer st) eqn:E; [reflexivity| |];
      (assert (Hne : closer st <> CWait) by congruence;
       rewrite E in Hne; specialize (Hcl Hne); lia). }
  split; [assumption|]. split; [|split; [|assumption]].
  - destruct (closed (mem st)); [|reflexivity].
    destruct Hclosed as [Hclosed _]. specialize (Hclosed eq_refl). congruence.
  - destruct (seeded st); [reflexivity|]. specialize (Hidle eq_refl).
    rewrite Forall_forall in Hidle.
    assert (w = WIdle) as ->
      by (apply Hidle; eapply list_elem_of_lookup_2; eauto).
    cbn in Hone. lia.
Qed.

(** With every worker at a send nothing moves any more. *)
Lemma u_all_send_deadlocked tr st :
  exec cfg tr st ->
  Forall (fun w => is_send w = true) (workers st) -> deadlocked cfg st.
Proof.
  intros Hex Hall.
  destruct (u_exec_counted _ _ Hex) as (_ & Hp & _ & _ & Hlen & _).
  rewrite Forall_forall in Hall.
  destruct (workers st !! 0%nat) as [w0|] eqn:H0.
  2:{ apply lookup_ge_None in H0. rewrite Hlen in H0. unfold numWorkers in H0.
      lia. }
  assert (Hs0 : is_send w0 = true)
    by (apply Hall; eapply list_elem_of_lookup_2; eauto).
  destruct (u_sender_open _ _ _ _ Hex H0) as (Hcw & Hc & Hs & Hnz);
    [destruct w0; try discriminate Hs0; cbn; lia|].
  split.
  - intros a. unfold step. rewrite Hp. destruct a as [k| |i|i k].
    + now rewrite Hs.
    + rewrite Hcw. destruct (Z.eqb_spec (tasks (mem st)) 0); [lia | reflexivity].
    + destruct (workers st !! i) as [w|] eqn:Hw; [|reflexivity].
      assert (Hsw : is_send w = true)
        by (apply Hall; eapply list_elem_of_lookup_2; eauto).
      destruct w; try discriminate Hsw. cbn [worker_step]. now rewrite Hc.
    + rewrite Hc. destruct (workers st !! i) as [wi|]; [|reflexivity].
      destruct (workers st !! k) as [wk|] eqn:Hk;
        [|destruct wi; reflexivity].
      assert (Hsk : is_send wk = true)
        by (apply Hall; eapply list_elem_of_lookup_2; eauto).
      destruct wk; try discriminate Hsk. destruct wi; reflexivity.
  - unfold returned.
    destruct (workers st) as [|w ws]; [discriminate H0|].
    injection H0 as ->. cbn [forallb].
    destruct w0; try discriminate Hs0. reflexivity.
Qed.

Lemma u_weight_none (ws : list wstate) :
  Forall (fun w => w = WIdle \/ w = WExit) ws ->
  sum_list_with weight ws = 0%nat.
Proof.
  induction 1 as [|w ws [-> | ->] _ IH]; cbn; [reflexivity | exact IH..].
Qed.

(** A crawl that can neither move nor return has every worker at a
    send. *)
Lemma u_stuck_all_send tr st :
  exec cfg tr st -> (forall a, step cfg a st = None) -> returned st = None ->
  Forall (fun w => is_send w = true) (workers st).
Proof.
  intros Hex Hstuck Hret.
  destruct (u_exec_counted _ _ Hex) as (Ht & Hp & Hcl & Hclosed & Hlen & Hopen).
  destruct (u_exec_held _ _ Hex) as (_ & Hidle & _).
  assert (Hw : forall k w, workers st !! k = Some w ->
             (w = WIdle /\ closed (mem st) = false)
             \/ (is_send w = true /\ closed (mem st) = false) \/ w = WExit).
  { intros k w Hk. apply u_worker_stuck. specialize (Hstuck (AWorker k)).
    unfold step in Hstuck. rewrite Hp, Hk in Hstuck.
    destruct (worker_step cfg w (mem st)) as [[[? ?] ?]|]; [discriminate|].
    reflexivity. }
  assert (Hseeded : seeded st = true).
  { destruct (seeded st) eqn:Hs; [reflexivity|]. exfalso.
    specialize (Hidle eq_refl). rewrite Forall_forall in Hidle.
    destruct (workers st !! 0%nat) as [w0|] eqn:H0.
    2:{ apply lookup_ge_None in H0. rewrite Hlen in H0.
        unfold numWorkers in H0. lia. }
    assert (w0 = WIdle) as ->
      by (apply Hidle; eapply list_elem_of_lookup_2; eauto).
    assert (Hc : closed (mem st) = false).
    { destruct (closed (mem st)); [|reflexivity].
      unfold outstanding in Ht. rewrite Hs in Ht.
      assert (Hne : closer st <> CWait)
        by (rewrite (proj1 Hclosed eq_refl); discriminate).
      specialize (Hcl Hne). lia. }
    specialize (Hstuck (ASeed 0)). unfold step in Hstuck.
    rewrite Hp, Hs, Hc, H0 in Hstuck. discriminate. }
  destruct (existsb is_send (workers st)) eqn:Hex_send.
  - apply existsb_exists in Hex_send as (w & Hin & Hsw).
    apply list_elem_of_In, list_elem_of_lookup_1 in Hin as [i Hi].
    destruct (u_sender_open _ _ _ _ Hex Hi) as (_ & Hc & _);
      [destruct w; try discriminate Hsw; cbn; lia|].
    apply Forall_forall. intros w' Hin'.
    apply list_elem_of_lookup_1 in Hin' as [k Hk].
    destruct (Hw k w' Hk) as [[-> _]|[[Hs' _]| ->]]; [| assumption |].
    + exfalso. specialize (Hstuck (AHand i k)). unfold step in Hstuck.
      rewrite Hp, Hc, Hi, Hk in Hstuck.
      destruct w; try discriminate Hsw. discriminate Hstuck.
    + exfalso. specialize (Hopen Hc). rewrite Forall_forall in Hopen.
      apply (Hopen WExit); [eapply list_elem_of_lookup_2; eauto | reflexivity].
  - exfalso.
    assert (Hquiet : Forall (fun w => w = WIdle \/ w = WExit) (workers st)).
    { apply Forall_forall. intros w Hin.
      assert (Hns : is_send w = false).
      { destruct (is_send w) eqn:E; [|reflexivity].
        assert (existsb is_send (workers st) = true)
          by (apply existsb_exists; exists w; split;
              [now apply list_elem_of_In | assumption]).
        congruence. }
      apply list_elem_of_lookup_1 in Hin as [k Hk].
      destruct (Hw k w Hk) as [[-> _]|[[Hs' _]| ->]]; [now left | congruence
                                                       | now right]. }
    pose proof (u_weight_none _ Hquiet) as Hzero.
    unfold outstanding in Ht. rewrite Hseeded, Hzero in Ht. cbn in Ht.
    destruct (closer st) eqn:Hcs.
    + specialize (Hstuck ACloser). unfold step in Hstuck.
      rewrite Hp, Hcs, Ht in Hstuck. discriminate.
    + specialize (Hstuck ACloser). unfold step in Hstuck.
      rewrite Hp, Hcs in Hstuck. discriminate.
    + assert (Hc : closed (mem st) = true) by (now apply Hclosed).
      assert (Hall : Forall (fun w => w = WExit) (workers st)).
      { apply Forall_forall. intros w Hin.
        apply list_elem_of_lookup_1 in Hin as [k Hk].
        destruct (Hw k w Hk) as [[_ Hc']|[[_ Hc']| ->]]; congruence. }
      unfold returned in Hret. rewrite Hp in Hret.
      assert (Hex_all : forallb is_exit (workers st) = true).
      { apply forallb_forall. intros w Hin. rewrite Forall_forall in Hall.
        now rewrite (Hall w) by (now apply list_elem_of_In). }
      rewrite Hex_all in Hret. discriminate.
Qed.

Lemma u_sum_insert (f : wstate -> nat) (ws : list wstate) (i : nat)
  (w w' : wstate) :
  ws !! i = Some w ->
  (sum_list_with f (<[i := w']> ws) + f w = sum_list_with f ws + f w')%nat.
Proof.
  intros Hi.
  rewrite <- (take_drop_middle ws i w Hi) at 2.
  rewrite (insert_take_drop ws i w') by (eapply lookup_lt_Some; eauto).
  rewrite !sum_list_with_app. cbn [sum_list_with]. lia.
Qed.

Lemma u_entered_steps (j : job) :
  steps_left cfg (entered cfg j)
  = (job_cost cfg (levels cfg (depth j)) (url j) + 1)%nat.
Proof.
  destruct (u_entered_cases j) as [[-> Hge]|[-> Hlt]]; cbn [steps_left].
  - replace (levels cfg (depth j)) with O by (unfold levels; lia). reflexivity.
  - replace (levels cfg (depth j)) with (S (levels cfg (depth j + 1)))
      by (unfold levels; lia).
    cbn [job_cost]. unfold rest_cost, link_cost.
    destruct (getAndParseLinks cfg (url j)); lia.
Qed.

Lemma u_step_potential tr st a l st' :
  exec cfg tr st -> step cfg a st = Some (l, st') ->
  (S (potential cfg st') <= potential cfg st)%nat.
Proof.
  intros Hex Hstep.
  apply u_step_stepped in Hstep as [_ Hstep]. unfold potential.
  destruct Hstep as [k Hs Hc Hk|Hs Hc|Hcw Hz|Hcc
                    |i w l w' m' Hw Hws|i k j base abs rest Hc Hi Hk];
    cbn [mem workers seeded closer].
  - rewrite Hs.
    pose proof (u_sum_insert (steps_left cfg) (workers st) k WIdle
                  (entered cfg (mkJob (startURL cfg) 0)) Hk) as H.
    rewrite u_entered_steps in H. cbn [steps_left depth url] in H. lia.
  - rewrite Hs. lia.
  - rewrite Hcw. cbn. lia.
  - rewrite Hcc. cbn. lia.
  - pose proof (u_sum_insert (steps_left cfg) (workers st) i w w' Hw) as H.
    apply u_worker_step_wcase in Hws.
    enough (S (steps_left cfg w') <= steps_left cfg w)%nat by lia.
    destruct Hws as [Hc|j Hf|j links Hf|j|j base|j base l0 rest Hcand
                    |j base l0 rest abs Hcand Hin
                    |j base l0 rest abs Hcand Hnew
                    |j base abs rest|j base abs rest|j base abs rest Hc];
      cbn [steps_left]; unfold rest_cost; cbn [sum_list_with];
      unfold link_cost; try rewrite Hf; try rewrite Hcand; try lia.
    exfalso.
    destruct (u_sender_open _ _ _ _ Hex Hw) as (_ & Hc' & _); [cbn; lia|].
    congruence.
  - assert (Hk' : <[i := WLoop j base rest]> (workers st) !! k = Some WIdle).
    { rewrite list_lookup_insert_ne; [assumption|]. intros ->. congruence. }
    pose proof (u_sum_insert (steps_left cfg) (workers st) i _
                  (WLoop j base rest) Hi) as H1.
    pose proof (u_sum_insert (steps_left cfg) _ k WIdle
                  (entered cfg (mkJob abs (depth j + 1))) Hk') as H2.
    rewrite u_entered_steps in H2. cbn [steps_left depth url] in H1, H2. lia.
Qed.

Lemma u_exec_potential tr st :
  exec cfg tr st -> (length tr + potential cfg st <= crawl_bound cfg)%nat.
Proof.
  induction 1 as [|tr st a l st' Hex IH Hstep]; [cbn; unfold crawl_bound; lia|].
  pose proof (u_step_potential _ _ _ _ _ Hex Hstep).
  rewrite length_app. cbn [length]. lia.
Qed.

Lemma u_reaches_exec tr st st' :
  exec cfg tr st -> reaches cfg st st' -> exists tr', exec cfg (tr ++ tr') st'.
Proof.
  intros Hex Hr. induction Hr as [|st0 st1 a l st2 _ IH Hstep].
  - exists []. now rewrite app_nil_r.
  - destruct (IH Hex) as [tr' Hex']. exists (tr' ++ [(a, l)]).
    rewrite app_assoc. econstructor; eauto.
Qed.

Lemma u_reaches_head st a l st' st'' :
  step cfg a st = Some (l, st') -> reaches cfg st' st'' -> reaches cfg st st''.
Proof.
  intros Hstep Hr. induction Hr as [|s0 s1 b lb s2 _ IH Hs].
  - eapply reaches_step; [apply reaches_refl | exact Hstep].
  - eapply reaches_step; [apply IH; exact Hstep | exact Hs].
Qed.

Lemma u_enabled_step st a : In a (enabled cfg st) -> is_Some (step cfg a st).
Proof.
  unfold enabled. rewrite filter_In. intros [_ H].
  destruct (step cfg a st); [eexists; reflexivity | discriminate].
Qed.

Lemma u_enabled_nil tr st :
  exec cfg tr st -> enabled cfg st = [] -> forall a, step cfg a st = None.
Proof.
  intros Hex Hnil a. destruct (step cfg a st) as [[l st']|] eqn:Hstep;
    [|reflexivity].
  exfalso.
  assert (Hin : In a (enabled cfg st)); [|rewrite Hnil in Hin; exact Hin].
  unfold enabled. apply filter_In. rewrite Hstep. split; [|reflexivity].
  destruct (u_exec_counted _ _ Hex) as (Ht & _ & Hcl & Hclosed & Hlen & _).
  assert (Hlt : forall i w, workers st !! i = Some w -> In i (seq 0 numWorkers)).
  { intros i w Hi. apply in_seq. apply lookup_lt_Some in Hi. lia. }
  unfold step in Hstep. unfold all_actions.
  destruct (panicked (mem st)); [discriminate|].
  destruct a as [k| |i|i k].
  - apply in_app_iff. left. apply in_map.
    destruct (seeded st) eqn:Hs; [discriminate|].
    destruct (closed (mem st)) eqn:Hc.
    + exfalso. unfold outstanding in Ht. rewrite Hs in Ht.
      assert (Hne : closer st <> CWait)
        by (rewrite (proj1 Hclosed eq_refl); discriminate).
      specialize (Hcl Hne). lia.
    + destruct (workers st !! k) as [w|] eqn:Hk; [eauto | discriminate].
  - apply in_app_iff. right. now left.
  - apply in_app_iff. right. right. cbn [app]. apply in_app_iff. left.
    apply in_map. destruct (workers st !! i) as [w|] eqn:Hi; [eauto | discriminate].
  - apply in_app_iff. right. right. cbn [app]. apply in_app_iff. right.
    destruct (closed (mem st)); [discriminate|].
    destruct (workers st !! i) as [wi|] eqn:Hi; [|discriminate].
    destruct (workers st !! k) as [wk|] eqn:Hk;
      [|destruct wi; discriminate].
    apply in_flat_map. exists i. split; [eauto|]. apply in_map. eauto.
Qed.

Lemma u_drive_reaches (fuel : nat) :
  forall st, reaches cfg st (drive cfg fuel st).
Proof.
  induction fuel as [|fuel IH]; intros st; cbn [drive]; [apply reaches_refl|].
  destruct (enabled cfg st) as [|a rest]; [apply reaches_refl|].
  destruct (step cfg a st) as [[l st']|] eqn:Hstep; [|apply reaches_refl].
  eapply u_reaches_head; eauto.
Qed.

Lemma u_drive_stuck (fuel : nat) :
  forall tr st, exec cfg tr st -> (potential cfg st <= fuel)%nat ->
  forall a, step cfg a (drive cfg fuel st) = None.
Proof.
  induction fuel as [|fuel IH]; intros tr st Hex Hle a; cbn [drive].
  - destruct (step cfg a st) as [[l st']|] eqn:Hstep; [|reflexivity].
    pose proof (u_step_potential _ _ _ _ _ Hex Hstep). lia.
  - destruct (enabled cfg st) as [|b rest] eqn:Hen;
      [eapply u_enabled_nil; eauto|].
    destruct (u_enabled_step st b) as [[l st'] Hstep];
      [rewrite Hen; now left|].
    rewrite Hstep.
    pose proof (u_step_potential _ _ _ _ _ Hex Hstep).
    apply (IH (tr ++ [(b, l)]) st'); [econstructor; eauto | lia].
Qed.

Lemma u_run_exec (sched : list action) :
  forall tr0 st0 tr st,
    exec cfg tr0 st0 -> run cfg sched st0 = Some (tr, st) ->
    exec cfg (tr0 ++ tr) st.
Proof.
  induction sched as [|a sched IH]; intros tr0 st0 tr st H0 Hrun; cbn in Hrun.
  - injection Hrun as <- <-. now rewrite app_nil_r.
  - destruct (step cfg a st0) as [[l st1]|] eqn:Hstep; [|discriminate].
    destruct (run cfg sched st1) as [[tr1 st2]|] eqn:Hrun1; [|discriminate].
    injection Hrun as <- <-.
    replace (tr0 ++ (a, l) :: tr1) with ((tr0 ++ [(a, l)]) ++ tr1)
      by (now rewrite <- app_assoc).
    eapply IH; [|eassumption]. econstructor; eauto.
Qed.

(** In the first worker pools the counter of [tasks] is the number of jobs
    on their way, so no [tasks.Done()] makes it negative, the channel is
    closed once, after the last job, and nothing panics; the output has no
    duplicate, starts with the start URL and is within [visited]. *)
Theorem first_pool_is_safe (tr : list (action * label)) (st : state) :
  exec cfg tr st ->
  NoDup (finalURLs (mem st))
  /\ (exists rest, finalURLs (mem st) = startURL cfg :: rest)
  /\ (forall u, In u (finalURLs (mem st)) -> u ∈ visited (mem st))
  /\ tasks (mem st) = Z.of_nat (outstanding st)
  /\ panicked (mem st) = false
  /\ (forall a l st', step cfg a st = Some (l, st') ->
                      panicked (mem st') = false /\ 0 <= tasks (mem st'))
  /\ (closed (mem st) = true ->
      tasks (mem st) = 0 /\ seeded st = true
      /\ Forall (fun w => w = WIdle \/ w = WExit) (workers st)).
Proof.
  intros Hex.
  destruct (u_exec_bookkept _ _ Hex) as (Hnd & Hvis & Hhead).
  destruct (u_exec_counted _ _ Hex) as (Ht & Hp & Hcl & Hclosed & Hlen & Hopen).
  split; [now apply NoDup_app in Hnd as [? _]|]. split; [assumption|].
  split; [intros u Hu; apply Hvis, elem_of_app; left;
          now apply list_elem_of_In|].
  split; [assumption|]. split; [assumption|]. split.
  - intros a l st' Hstep.
    assert (Hex' : exec cfg (tr ++ [(a, l)]) st') by (econstructor; eauto).
    destruct (u_exec_counted _ _ Hex') as (Ht' & Hp' & _). split; [assumption|].
    lia.
  - intros Hc.
    assert (Hz : tasks (mem st) = 0).
    { apply Hcl. rewrite (proj1 Hclosed Hc). discriminate. }
    split; [assumption|]. unfold outstanding in Ht.
    split; [destruct (seeded st); [reflexivity | lia]|].
    apply Forall_forall. intros w Hw.
    apply list_elem_of_lookup_1 in Hw as [i Hi].
    pose proof (u_weight_held _ _ _ Hi).
    destruct w; cbn [weight] in *; auto; lia.
Qed.

(** The first worker pools test the depth before they fetch: the page of a
    job is asked for only if the depth of the job is below [maxDepth], so
    with [maxDepth] at most zero nothing is fetched at all and the output
    is the start URL alone. *)
Theorem first_pool_tests_depth_first (tr : list (action * label))
  (st : state) :
  exec cfg tr st ->
  (forall j, In j (fetches tr) -> 0 <= depth j < maxDepth cfg)
  /\ (maxDepth cfg <= 0 ->
      fetches tr = [] /\ finalURLs (mem st) = [startURL cfg]).
Proof.
  intros Hex. split; [apply (u_exec_held _ _ Hex)|]. intros Hmax. split.
  - destruct (u_exec_held _ _ Hex) as (_ & _ & Hf).
    destruct (fetches tr) as [|j js]; [reflexivity|].
    specialize (Hf j (or_introl eq_refl)). lia.
  - revert tr st Hex. apply (u_exec_inv (fun _ st =>
      finalURLs (mem st) = [startURL cfg])); [reflexivity|].
    intros tr st a l st' Hex IH Hstep.
    destruct (u_exec_held _ _ Hex) as (Hheld & _).
    apply u_step_stepped in Hstep as [_ Hstep].
    destruct Hstep as [k Hs Hc Hk|Hs Hc|Hcw Hz|Hcc
                      |i w l w' m' Hw Hws|i k j base abs rest Hc Hi Hk];
      cbn [mem finalURLs panic]; try assumption.
    apply u_worker_step_wcase in Hws.
    rewrite Forall_forall in Hheld.
    assert (Hw0 : held_ok cfg w)
      by (apply Hheld; eapply list_elem_of_lookup_2; eauto).
    destruct Hws; unfold tasks_Done, panic;
      try destruct (tasks (mem st) <=? 0); cbn [finalURLs]; try assumption;
      cbn [held_ok] in Hw0; lia.
Qed.

(** The first worker pools block for ever exactly when all ten workers
    stand at a send: on the channel without a buffer a send needs a worker
    that waits for a job. *)
Theorem first_pool_deadlock (st : state) :
  reachable cfg st ->
  (deadlocked cfg st <-> Forall (fun w => is_send w = true) (workers st)).
Proof.
  intros [tr Hex]. split.
  - intros [Hstuck Hret]. eapply u_stuck_all_send; eauto.
  - eapply u_all_send_deadlocked; eauto.
Qed.

(** No crawl of the first worker pools goes on for ever: an execution has
    at most [crawl_bound] steps, a number read off the site and
    [maxDepth]; driven on, it comes to a state where nothing moves, and
    there [buildSitemap] has returned its URLs with a nil error, or all ten
    workers stand at a send. *)
Theorem first_pool_terminates (tr : list (action * label)) (st : state) :
  exec cfg tr st ->
  (length tr + potential cfg st <= crawl_bound cfg)%nat
  /\ reaches cfg st (drive cfg (potential cfg st) st)
  /\ (forall a, step cfg a (drive cfg (potential cfg st) st) = None)
  /\ (returned (drive cfg (potential cfg st) st)
      = Some (finalURLs (mem (drive cfg (potential cfg st) st)), None)
      \/ Forall (fun w => is_send w = true)
                (workers (drive cfg (potential cfg st) st))).
Proof.
  intros Hex. split; [now apply u_exec_potential|].
  pose proof (u_drive_reaches (potential cfg st) st) as Hr.
  pose proof (u_drive_stuck (potential cfg st) tr st Hex (Nat.le_refl _))
    as Hstuck.
  split; [assumption|]. split; [assumption|].
  destruct (u_reaches_exec _ _ _ Hex Hr) as [tr' Hex'].
  set (st' := drive cfg (potential cfg st) st) in *.
  destruct (returned st') as [[out err]|] eqn:Hret.
  - left. unfold returned in Hret.
    destruct (forallb is_exit (workers st') && negb (panicked (mem st')));
      [|discriminate].
    now injection Hret as <- <-.
  - right. eapply u_stuck_all_send; eauto.
Qed.

End UnbufferedFacts.

(** * The XML sitemap *)

Section SitemapFacts.
Import Sitemap.
Variable url_ParseRequestURI : string -> option URL.

Local Abbreviation add_page := (Sitemap.add_page url_ParseRequestURI).
Local Abbreviation accepted := (Sitemap.accepted url_ParseRequestURI).

(** The loop keeps, of the pages it has met, the ones that
    [url.ParseRequestURI] accepts, once each; [addedUrls] holds them. *)
Lemma add_page_fold (pages : list string) :
  forall (urls : list loc) (added : gset string),
    NoDup (map Value urls) ->
    (forall u, u ∈ added <-> u ∈ map Value urls) ->
    let st := fold_left add_page pages (urls, added) in
    NoDup (map Value st.1)
    /\ (forall u, u ∈ st.2 <-> u ∈ map Value st.1)
    /\ (exists more,
          map Value st.1 = map Value urls ++ more
          /\ sublist more (accepted pages)
          /\ forall u, u ∈ more <-> u ∈ accepted pages /\ u ∉ added).
Proof.
  induction pages as [|page pages IH]; intros urls added Hnd Hadded; cbn.
  - split; [assumption|]. split; [assumption|]. exists [].
    rewrite app_nil_r. split; [reflexivity|]. split; [constructor|].
    intros u. split; [intros Hu; now apply elem_of_nil in Hu|].
    intros [Hu _]. exact Hu.
  - cbv zeta. unfold Sitemap.accepted. cbn [List.filter].
    fold (accepted pages).
    destruct (url_ParseRequestURI page) as [parsed|] eqn:Hp.
    2:{ assert (Hs : add_page (urls, added) page = (urls, added))
          by (unfold Sitemap.add_page; now rewrite Hp).
        rewrite Hs.
        apply IH; assumption. }
    assert (Hs : add_page (urls, added) page
                 = if bool_decide (page ∈ added) then (urls, added)
                   else (urls ++ [mkLoc page], {[page]} ∪ added))
      by (unfold Sitemap.add_page; now rewrite Hp).
    rewrite Hs. clear Hs.
    destruct (bool_decide (page ∈ added)) eqn:Hin.
    + apply bool_decide_eq_true in Hin.
      destruct (IH urls added Hnd Hadded) as (H1 & H2 & more & H3 & H4 & H5).
      split; [assumption|]. split; [assumption|]. exists more.
      split; [assumption|]. split; [now apply sublist_cons|].
      intros u. rewrite H5, elem_of_cons. split; [tauto|].
      intros [[->|Hu] Hno]; [contradiction | tauto].
    + apply bool_decide_eq_false in Hin.
      destruct (IH (urls ++ [mkLoc page]) ({[page]} ∪ added))
        as (H1 & H2 & more & H3 & H4 & H5).
      * rewrite map_app. cbn. apply NoDup_app. split; [assumption|].
        split; [|apply NoDup_singleton].
        intros u Hu Hu'. apply list_elem_of_singleton in Hu'. subst.
        apply Hin, Hadded, Hu.
      * intros u. rewrite map_app, elem_of_union, elem_of_singleton,
          elem_of_app, Hadded. cbn. rewrite list_elem_of_singleton. tauto.
      * split; [assumption|]. split; [assumption|].
        exists (page :: more). rewrite H3, map_app. cbn.
        rewrite <- app_assoc. split; [reflexivity|].
        split; [now apply sublist_skip|].
        intros u. rewrite !elem_of_cons, H5, elem_of_union, elem_of_singleton.
        split.
        -- intros [->|[Hu Hno]]; [tauto|]. split; [tauto|]. tauto.
        -- intros [[->|Hu] Hno]; [tauto|].
           destruct (decide (u = page)) as [->|Hne]; [tauto|]. right. tauto.
Qed.

Lemma sublist_all (l k : list string) :
  sublist l k -> NoDup k -> (forall u, u ∈ k -> u ∈ l) -> l = k.
Proof.
  induction 1 as [|x l k _ IH|x l k Hsub _]; intros Hnd Hall.
  - reflexivity.
  - apply NoDup_cons in Hnd as [Hx Hnd]. f_equal. apply IH; [assumption|].
    intros u Hu.
    assert (Hu' : u ∈ x :: l) by (apply Hall, elem_of_cons; now right).
    apply elem_of_cons in Hu' as [->|?]; [contradiction | assumption].
  - apply NoDup_cons in Hnd as [Hx _]. exfalso. apply Hx.
    eapply elem_of_sublist; [|exact Hsub]. apply Hall. left.
Qed.

Lemma accepted_spec (pages : list string) (u : string) :
  u ∈ accepted pages <-> u ∈ pages /\ is_Some (url_ParseRequestURI u).
Proof.
  unfold Sitemap.accepted. rewrite !list_elem_of_In, filter_In.
  destruct (url_ParseRequestURI u) as [parsed|]; split; intros [Hu Hp];
    (split; [assumption|]); eauto.
  - discriminate Hp.
  - now destruct Hp.
Qed.

Lemma accepted_sublist (pages : list string) : sublist (accepted pages) pages.
Proof.
  unfold Sitemap.accepted. induction pages as [|p ps IH]; cbn; [constructor|].
  destruct (url_ParseRequestURI p); [now apply sublist_skip|].
  now apply sublist_cons.
Qed.

Lemma toXML_urls (pages : list string) :
  NoDup (map Value (Urls (toXML url_ParseRequestURI pages)))
  /\ sublist (map Value (Urls (toXML url_ParseRequestURI pages)))
             (accepted pages)
  /\ forall u, u ∈ map Value (Urls (toXML url_ParseRequestURI pages))
               <-> u ∈ accepted pages.
Proof.
  destruct (add_page_fold pages [] ∅) as (Hnd & _ & more & Heq & Hsub & Hin).
  { constructor. }
  { intros u. cbn. rewrite elem_of_nil. set_solver. }
  cbn [map app] in Heq. unfold toXML. cbn [Urls]. rewrite Heq in *.
  split; [assumption|]. split; [assumption|].
  intros u. rewrite Hin. split; [tauto|]. intros Hu. split; [assumption|].
  apply not_elem_of_empty.
Qed.

Lemma toXML_of_NoDup (pages : list string) :
  NoDup pages ->
  map Value (Urls (toXML url_ParseRequestURI pages)) = accepted pages.
Proof.
  intros Hpages. destruct (toXML_urls pages) as (_ & Hsub & Hin).
  apply sublist_all; [assumption| |intros u; apply Hin].
  eapply sublist_NoDup; [exact Hpages | apply accepted_sublist].
Qed.

(** The sitemap lists the pages that [url.ParseRequestURI] accepts, once
    each and in the order of [pages]; of pages without a duplicate it lists
    all the accepted ones, as they are. *)
Theorem sitemap_lists_accepted_pages_once (pages : list string) :
  NoDup (map Value (Urls (toXML url_ParseRequestURI pages)))
  /\ (forall u, u ∈ map Value (Urls (toXML url_ParseRequestURI pages))
                <-> u ∈ pages /\ is_Some (url_ParseRequestURI u))
  /\ sublist (map Value (Urls (toXML url_ParseRequestURI pages))) pages
  /\ (NoDup pages ->
      map Value (Urls (toXML url_ParseRequestURI pages)) = accepted pages).
Proof.
  destruct (toXML_urls pages) as (Hnd & Hsub & Hin).
  split; [assumption|]. split; [|split].
  - intros u. now rewrite Hin, accepted_spec.
  - etransitivity; [exact Hsub | apply accepted_sublist].
  - apply toXML_of_NoDup.
Qed.

End SitemapFacts.

Section SitemapOfCrawl.
Import Sitemap Pool.
Context {net : NetURL}.
Variable cfg : config.
Variable url_ParseRequestURI : string -> option URL.
Variable xml_MarshalIndent : urlset -> string -> string -> string + string.

Lemma seq_toXML_urls (pages : list string) :
  SeqSitemap.toXML pages = mkUrlset (map mkLoc pages) xmlns.
Proof.
  unfold SeqSitemap.toXML. f_equal.
  enough (H : forall urls, fold_left (fun urls page => urls ++ [mkLoc page])
                                     pages urls = urls ++ map mkLoc pages)
    by apply (H []).
  induction pages as [|p ps IH]; intros urls; cbn;
    [now rewrite app_nil_r|].
  rewrite IH, <- app_assoc. reflexivity.
Qed.

Lemma locs_of_values (urls : list loc) (l : list string) :
  map Value urls = l -> urls = map mkLoc l.
Proof.
  intros <-. induction urls as [|[v] urls IH]; cbn; [reflexivity|].
  now rewrite <- IH.
Qed.

(** [main], from the crawl to the XML: what [buildSitemap] returns has no
    duplicate, so the test of [addedUrls] never fires; the sitemap is the
    one that the sequential revision's [generateXMLSitemap], which tests
    nothing, makes of the returned URLs that [url.ParseRequestURI] accepts,
    in the order of the crawl, and its first entry is the start URL if that
    is accepted. *)
Theorem sitemap_of_crawl (tr : list (action * label)) (st : state)
  (out : list string) (err : option string) :
  exec cfg tr st -> returned st = Some (out, err) ->
  Urls (toXML url_ParseRequestURI out)
  = map mkLoc (Sitemap.accepted url_ParseRequestURI out)
  /\ generateXMLSitemap url_ParseRequestURI xml_MarshalIndent out
     = SeqSitemap.generateXMLSitemap xml_MarshalIndent
         (Sitemap.accepted url_ParseRequestURI out)
  /\ (is_Some (url_ParseRequestURI (startURL cfg)) ->
      exists rest,
        Urls (toXML url_ParseRequestURI out) = mkLoc (startURL cfg) :: rest).
Proof.
  intros Hex Hret.
  pose proof (returned_output _ _ _ Hret) as (-> & _ & _).
  pose proof (exec_bookkept cfg _ _ Hex) as (Hout & Hperm & Hnodup & _).
  assert (Hnd : NoDup (finalURLs (mem st))).
  { rewrite Hout. apply NoDup_cons in Hnodup as [Hstart Hst].
    apply NoDup_cons. split.
    - intros Hin. apply Hstart. rewrite Hperm. apply elem_of_app. now left.
    - rewrite Hperm in Hst. now apply NoDup_app in Hst as [? _]. }
  pose proof (locs_of_values _ _ (toXML_of_NoDup url_ParseRequestURI _ Hnd))
    as Heq.
  split; [assumption|]. split.
  - unfold generateXMLSitemap, SeqSitemap.generateXMLSitemap.
    rewrite seq_toXML_urls, <- Heq. reflexivity.
  - intros [parsed Hp]. rewrite Heq, Hout. unfold Sitemap.accepted.
    cbn [List.filter]. rewrite Hp. cbn. eauto.
Qed.

End SitemapOfCrawl.

(** * White space: [TrimSpace], [Fields] and [Join] *)

Section TextFacts.
Local Open Scope nat_scope.
Import GoText.

Lemma append_cons (c : ascii) (a b : string) :
  (String c a ++ b)%string = String c (a ++ b)%string.
Proof. reflexivity. Qed.

Lemma append_nil_l (b : string) : ("" ++ b)%string = b.
Proof. reflexivity. Qed.

Lemma bytes_app (a b : string) :
  list_ascii_of_string (a ++ b)
  = list_ascii_of_string a ++ list_ascii_of_string b.
Proof.
  induction a as [|c a IH]; [reflexivity|].
  rewrite append_cons. cbn [list_ascii_of_string app]. now rewrite IH.
Qed.

Lemma append_nil_r (s : string) : (s ++ "")%string = s.
Proof.
  induction s as [|c s IH]; [reflexivity | now rewrite append_cons, IH].
Qed.

Lemma append_assoc (a b c : string) :
  ((a ++ b) ++ c)%string = (a ++ (b ++ c))%string.
Proof.
  induction a as [|x a IH]; [reflexivity | now rewrite !append_cons, IH].
Qed.

Lemma ascii_space_low (n : nat) : ascii_space n = true -> n < 128.
Proof.
  unfold ascii_space.
  rewrite orb_true_iff, andb_true_iff, !Nat.leb_le, Nat.eqb_eq. lia.
Qed.

Lemma two_byte_bytes (n m : nat) :
  two_byte n m = true -> n = 194 /\ 128 <= m <= 191.
Proof.
  unfold two_byte. rewrite andb_true_iff, orb_true_iff, !Nat.eqb_eq. lia.
Qed.

Lemma three_byte_bytes (n m k : nat) :
  three_byte n m k = true ->
  225 <= n <= 227 /\ 128 <= m <= 191 /\ 128 <= k <= 191.
Proof.
  unfold three_byte.
  rewrite !orb_true_iff, !andb_true_iff, !orb_true_iff, !andb_true_iff,
    !Nat.eqb_eq, !Nat.leb_le. lia.
Qed.

Lemma continuation_spec (c : ascii) :
  continuation c = true <-> 128 <= nat_of_ascii c <= 191.
Proof. unfold continuation. rewrite andb_true_iff, !Nat.leb_le. tauto. Qed.

Lemma clean_two (n : nat) (d : ascii) :
  continuation d = false -> two_byte n (nat_of_ascii d) = false.
Proof.
  intros Hd. destruct (two_byte n (nat_of_ascii d)) eqn:H; [|reflexivity].
  apply two_byte_bytes in H as [_ H]. apply continuation_spec in H. congruence.
Qed.

Lemma clean_three_2 (n k : nat) (d : ascii) :
  continuation d = false -> three_byte n (nat_of_ascii d) k = false.
Proof.
  intros Hd. destruct (three_byte n (nat_of_ascii d) k) eqn:H; [|reflexivity].
  apply three_byte_bytes in H as (_ & H & _). apply continuation_spec in H.
  congruence.
Qed.

Lemma clean_three_3 (n m : nat) (e : ascii) :
  continuation e = false -> three_byte n m (nat_of_ascii e) = false.
Proof.
  intros He. destruct (three_byte n m (nat_of_ascii e)) eqn:H; [|reflexivity].
  apply three_byte_bytes in H as (_ & _ & H). apply continuation_spec in H.
  congruence.
Qed.

(** What follows a string does not change the white space it starts with,
    unless it starts with a continuation byte. *)
Lemma space_width_app (a b : string) :
  starts_clean b -> a <> "" -> space_width (a ++ b) = space_width a.
Proof.
  intros Hb Ha. destruct a as [|c a1]; [contradiction|]. clear Ha.
  rewrite append_cons. unfold space_width.
  destruct (ascii_space (nat_of_ascii c)); [reflexivity|].
  destruct a1 as [|d a2].
  - rewrite append_nil_l. destruct b as [|x b2]; [reflexivity|].
    cbn in Hb. rewrite (clean_two _ _ Hb).
    destruct b2 as [|y b3]; [reflexivity|]. now rewrite (clean_three_2 _ _ _ Hb).
  - rewrite append_cons.
    destruct (two_byte (nat_of_ascii c) (nat_of_ascii d)); [reflexivity|].
    destruct a2 as [|e a3]; [|reflexivity].
    rewrite append_nil_l. destruct b as [|x b2]; [reflexivity|].
    cbn in Hb. now rewrite (clean_three_3 _ _ _ Hb).
Qed.

(** The white space character a string starts with. *)
Lemma space_width_cases (s : string) :
  space_width s = 0
  \/ exists w s',
       s = (w ++ s')%string /\ w <> "" /\ space_width s = String.length w
       /\ starts_clean w /\ space_width w = String.length w.
Proof.
  destruct s as [|c s1]; [now left|]. unfold space_width.
  destruct (ascii_space (nat_of_ascii c)) eqn:Ha.
  { right. exists (String c ""), s1. split; [reflexivity|].
    split; [discriminate|]. split; [reflexivity|]. split.
    - cbn. apply ascii_space_low in Ha.
      destruct (continuation c) eqn:Hc; [|reflexivity].
      apply continuation_spec in Hc. lia.
    - cbn. now rewrite Ha. }
  destruct s1 as [|d s2]; [now left|].
  destruct (two_byte (nat_of_ascii c) (nat_of_ascii d)) eqn:H2.
  { right. exists (String c (String d "")), s2. split; [reflexivity|].
    split; [discriminate|]. split; [reflexivity|]. split.
    - cbn. apply two_byte_bytes in H2 as [Hn _].
      destruct (continuation c) eqn:Hc; [|reflexivity].
      apply continuation_spec in Hc. lia.
    - cbn. now rewrite Ha, H2. }
  destruct s2 as [|e s3]; [now left|].
  destruct (three_byte (nat_of_ascii c) (nat_of_ascii d) (nat_of_ascii e))
    eqn:H3; [|now left].
  right. exists (String c (String d (String e ""))), s3.
  split; [reflexivity|]. split; [discriminate|]. split; [reflexivity|]. split.
  - cbn. apply three_byte_bytes in H3 as (Hn & _).
    destruct (continuation c) eqn:Hc; [|reflexivity].
    apply continuation_spec in Hc. lia.
  - cbn. now rewrite Ha, H2, H3.
Qed.

Lemma space_width_le (s : string) : space_width s <= 3.
Proof.
  destruct s as [|c [|d [|e s3]]]; cbn; try lia;
    repeat match goal with |- context [if ?b then _ else _] => destruct b end;
    lia.
Qed.

Lemma lex_byte (c : ascii) (s1 : string) :
  space_width (String c s1) = 0 -> lex (String c s1) = By c :: lex s1.
Proof. intros H. cbn [lex]. now rewrite H. Qed.

Lemma lex_space (w s' : string) :
  w <> "" -> space_width (w ++ s') = String.length w ->
  lex (w ++ s') = Sp w :: lex s'.
Proof.
  intros Hw H. pose proof (space_width_le (w ++ s')) as Hle.
  destruct w as [|c [|d [|e [|f w4]]]]; [contradiction| | | |];
    cbn [String.length] in *; rewrite ?append_cons, ?append_nil_l in *.
  - cbn [lex]. now rewrite H.
  - cbn [lex]. now rewrite H.
  - cbn [lex]. now rewrite H.
  - lia.
Qed.

(** Induction along the characters of a string. *)
Lemma lex_ind (P : string -> Prop) :
  P "" ->
  (forall c s1, space_width (String c s1) = 0 -> P s1 -> P (String c s1)) ->
  (forall w s', w <> "" -> starts_clean w ->
                space_width (w ++ s') = String.length w ->
                P s' -> P (w ++ s')%string) ->
  forall s, P s.
Proof.
  intros Hnil Hbyte Hspace s.
  remember (String.length s) as n eqn:Hn. revert s Hn.
  induction n as [n IH] using lt_wf_ind. intros s Hn.
  destruct (space_width_cases s) as [H0|(w & s' & -> & Hw & Hlen & Hc & _)].
  - destruct s as [|c s1]; [exact Hnil|]. apply Hbyte; [assumption|].
    apply (IH (String.length s1)); [cbn in Hn; lia | reflexivity].
  - apply Hspace; try assumption.
    apply (IH (String.length s')); [|reflexivity].
    rewrite Hn. clear -Hw. induction w as [|c w IHw]; [contradiction|].
    rewrite append_cons. cbn [String.length].
    destruct w as [|d w']; [rewrite append_nil_l; lia|].
    assert (String d w' <> "") by discriminate. specialize (IHw H). lia.
Qed.

Lemma unlex_lex (s : string) : unlex (lex s) = s.
Proof.
  induction s as [|c s1 H0 IH|w s' Hw Hc Hlen IH] using lex_ind.
  - reflexivity.
  - rewrite lex_byte by assumption. cbn [unlex sym_bytes].
    now rewrite IH.
  - rewrite lex_space by assumption. cbn [unlex sym_bytes]. now rewrite IH.
Qed.

Lemma starts_clean_app (w s : string) :
  w <> "" -> starts_clean w -> starts_clean (w ++ s).
Proof. destruct w; [contradiction | auto]. Qed.

(** The characters of a string and of what follows it, which does not
    start with a continuation byte. *)
Lemma lex_app (a b : string) :
  starts_clean b -> lex (a ++ b) = lex a ++ lex b.
Proof.
  intros Hb.
  induction a as [|c a1 H0 IH|w a' Hw Hc Hlen IH] using lex_ind.
  - reflexivity.
  - rewrite append_cons, !lex_byte, IH; [reflexivity | assumption |].
    rewrite <- append_cons, space_width_app; [assumption.. | discriminate].
  - rewrite append_assoc, (lex_space w (a' ++ b)), (lex_space w a'), IH;
      try assumption; [reflexivity|].
    rewrite <- append_assoc, space_width_app; try assumption.
    destruct w; [contradiction | discriminate].
Qed.

Lemma lex_blank (b : string) : lex (" " ++ b) = Sp " " :: lex b.
Proof. apply lex_space; [discriminate | reflexivity]. Qed.

(** The white space characters that [lex] finds. *)
Lemma lex_Sp (s : string) :
  Forall (fun x => match x with
                   | Sp w => w <> "" /\ starts_clean w
                   | By _ => True
                   end) (lex s).
Proof.
  induction s as [|c s1 H0 IH|w s' Hw Hc Hlen IH] using lex_ind.
  - constructor.
  - rewrite lex_byte by assumption. now constructor.
  - rewrite lex_space by assumption. now constructor.
Qed.

Lemma lex_cons_inv (s : string) (x : sym) (l : list sym) :
  lex s = x :: l -> exists s', s = (sym_bytes x ++ s')%string /\ lex s' = l.
Proof.
  destruct (space_width_cases s) as [H0|(w & s' & -> & Hw & Hlen & _)].
  - destruct s as [|c s1]; [discriminate|]. rewrite lex_byte by assumption.
    intros H. injection H as <- <-. now exists s1.
  - rewrite lex_space by assumption. intros H. injection H as <- <-.
    now exists s'.
Qed.

(** A suffix of the characters of a string is the characters of a suffix
    of the string. *)
Lemma lex_suffix (l1 l2 : list sym) :
  forall s, lex s = l1 ++ l2 -> lex (unlex l2) = l2.
Proof.
  induction l1 as [|x l1 IH]; intros s H.
  - cbn in H. now rewrite <- H, unlex_lex.
  - cbn in H. apply lex_cons_inv in H as (s' & _ & H). eauto.
Qed.

Lemma unlex_app (l1 l2 : list sym) :
  unlex (l1 ++ l2) = (unlex l1 ++ unlex l2)%string.
Proof.
  induction l1 as [|x l1 IH]; [reflexivity|].
  cbn [unlex app]. now rewrite IH, append_assoc.
Qed.

(** Without the white space at its end. *)
Lemma lex_drop_trailing (s : string) (core sps : list sym) :
  lex s = core ++ sps -> Forall is_Sp sps -> lex (unlex core) = core.
Proof.
  intros H Hsps. destruct sps as [|x sps].
  - rewrite app_nil_r in H. now rewrite <- H, unlex_lex.
  - pose proof (lex_suffix core (x :: sps) s H) as Hsuf.
    pose proof (lex_Sp s) as Hall. rewrite H in Hall.
    apply Forall_app in Hall as [_ Hall]. apply Forall_cons in Hall as [Hx _].
    apply Forall_cons in Hsps as [Hsp _].
    destruct x as [w|c]; [|contradiction]. destruct Hx as [Hw Hc].
    assert (Hs : s = (unlex core ++ unlex (Sp w :: sps))%string)
      by now rewrite <- unlex_app, <- H, unlex_lex.
    rewrite Hs, lex_app, Hsuf in H.
    + now apply app_inv_tail in H.
    + cbn [unlex sym_bytes]. now apply starts_clean_app.
Qed.

Lemma drop_space_split (l : list sym) :
  exists sps, Forall is_Sp sps /\ l = sps ++ drop_space l.
Proof.
  induction l as [|x l (sps & Hsps & IH)]; [now exists []|].
  destruct x as [w|c]; cbn [drop_space].
  - exists (Sp w :: sps). split; [now constructor|]. cbn. now f_equal.
  - now exists [].
Qed.

Lemma fields_of_app_Sp (l1 l2 : list sym) (w cur : string) :
  fields_of (l1 ++ Sp w :: l2) cur = fields_of l1 cur ++ fields_of l2 "".
Proof.
  revert cur. induction l1 as [|x l1 IH]; intros cur; cbn [app fields_of].
  - reflexivity.
  - destruct x as [v|c]; [|apply IH]. now rewrite IH, app_assoc.
Qed.

Lemma fields_of_spaces (sps : list sym) :
  Forall is_Sp sps -> fields_of sps "" = [].
Proof.
  induction 1 as [|x sps Hx _ IH]; [reflexivity|].
  destruct x; [|contradiction]. exact IH.
Qed.

Lemma fields_of_leading (sps l : list sym) :
  Forall is_Sp sps -> fields_of (sps ++ l) "" = fields_of l "".
Proof.
  induction 1 as [|x sps Hx _ IH]; [reflexivity|].
  destruct x; [|contradiction]. exact IH.
Qed.

Lemma fields_of_trailing (l sps : list sym) (cur : string) :
  Forall is_Sp sps -> fields_of (l ++ sps) cur = fields_of l cur.
Proof.
  intros Hsps. destruct Hsps as [|x sps Hx Hsps]; [now rewrite app_nil_r|].
  destruct x as [w|]; [|contradiction].
  now rewrite fields_of_app_Sp, fields_of_spaces, app_nil_r.
Qed.

(** The fields of a string are the fields of the string without the white
    space at its ends. *)
Lemma Fields_TrimSpace (s : string) : Fields (TrimSpace s) = Fields s.
Proof.
  unfold Fields, TrimSpace.
  destruct (drop_space_split (lex s)) as (sps1 & Hsps1 & H1).
  set (rest := drop_space (lex s)) in *.
  destruct (drop_space_split (rev rest)) as (sps2 & Hsps2 & H2).
  set (core := rev (drop_space (rev rest))) in *.
  assert (Hrest : rest = core ++ rev sps2).
  { unfold core. rewrite <- rev_app_distr, <- H2. now rewrite rev_involutive. }
  assert (Hsps2' : Forall is_Sp (rev sps2)).
  { now apply Forall_rev. }
  assert (Hlex : lex (unlex core) = core).
  { apply (lex_drop_trailing (unlex rest) core (rev sps2)); [|assumption].
    rewrite (lex_suffix sps1 rest s H1). exact Hrest. }
  rewrite Hlex, H1, Hrest, fields_of_leading by assumption.
  now rewrite fields_of_trailing.
Qed.

Lemma Fields_nil : Fields "" = [].
Proof. reflexivity. Qed.

(** The fields of two strings with a space between them. *)
Lemma Fields_blank (a b : string) :
  Fields (a ++ " " ++ b) = Fields a ++ Fields b.
Proof.
  unfold Fields. rewrite lex_app by reflexivity.
  now rewrite lex_blank, fields_of_app_Sp.
Qed.

Lemma fields_of_bytes (s : string) (l : list sym) (cur : string) :
  fields_of (map By (list_ascii_of_string s) ++ l) cur
  = fields_of l (cur ++ s).
Proof.
  revert cur. induction s as [|c s IH]; intros cur;
    cbn [list_ascii_of_string map app fields_of].
  - now rewrite append_nil_r.
  - rewrite IH, append_assoc. reflexivity.
Qed.

Lemma spaceless_lex (w : string) :
  spaceless w = true <-> lex w = map By (list_ascii_of_string w).
Proof.
  induction w as [|c w IH]; [now split|]. cbn [spaceless list_ascii_of_string map].
  rewrite andb_true_iff, Nat.eqb_eq, IH. split.
  - intros [H0 Hw]. now rewrite lex_byte, Hw.
  - intros H.
    destruct (space_width_cases (String c w))
      as [H0|(v & s' & Heq & Hv & Hlen & _)].
    + rewrite lex_byte in H by assumption. injection H as H. auto.
    + rewrite Heq in H, Hlen. rewrite (lex_space v s' Hv Hlen) in H.
      discriminate H.
Qed.

Lemma flush_word (w : string) : w <> "" -> flush w = [w].
Proof.
  intros Hw. unfold flush. destruct (String.eqb_spec w ""); [contradiction|].
  reflexivity.
Qed.

Lemma Fields_word (w : string) : word w -> Fields w = [w].
Proof.
  intros [Hne Hw]. apply spaceless_lex in Hw. unfold Fields. rewrite Hw.
  rewrite <- (app_nil_r (map By _)), fields_of_bytes. cbn [fields_of].
  rewrite append_nil_l. now apply flush_word.
Qed.

(** [strings.Fields] gives words. *)
Lemma fields_of_words (s : string) :
  forall cur,
    lex (cur ++ s) = map By (list_ascii_of_string cur) ++ lex s ->
    Forall word (fields_of (lex s) cur).
Proof.
  assert (Hflush : forall cur, lex cur = map By (list_ascii_of_string cur) ->
                               Forall word (flush cur)).
  { intros cur H. unfold flush. destruct (String.eqb_spec cur ""); constructor;
      [|constructor]. split; [assumption|]. now apply spaceless_lex. }
  induction s as [|c s1 H0 IH|w s' Hw Hc Hlen IH] using lex_ind; intros cur H.
  - cbn [lex fields_of]. apply Hflush. rewrite append_nil_r in H.
    cbn [lex] in H. now rewrite app_nil_r in H.
  - rewrite lex_byte by assumption. cbn [fields_of]. apply IH.
    rewrite append_assoc. change (String c "" ++ s1)%string with (String c s1).
    rewrite H, lex_byte by assumption.
    rewrite bytes_app, map_app, <- app_assoc. reflexivity.
  - rewrite lex_space by assumption. cbn [fields_of]. apply Forall_app. split.
    + apply Hflush. rewrite lex_app in H by now apply starts_clean_app.
      now apply app_inv_tail in H.
    + apply IH. reflexivity.
Qed.

Lemma Fields_words (s : string) : Forall word (Fields s).
Proof. apply fields_of_words. reflexivity. Qed.

(** Joining words with single spaces and splitting again is a round
    trip. *)
Lemma Fields_Join (ws : list string) :
  Forall word ws -> Fields (Join ws " ") = ws.
Proof.
  induction 1 as [|w ws Hw Hws IH]; [reflexivity|]. cbn [Join].
  destruct ws as [|w' ws']; [now apply Fields_word|].
  rewrite Fields_blank, IH, Fields_word by assumption. reflexivity.
Qed.

Lemma Join_Fields_Join (ws : list string) :
  Forall word ws -> Join (Fields (Join ws " ")) " " = Join ws " ".
Proof. intros H. now rewrite Fields_Join. Qed.

Lemma lex_Join (ws : list string) :
  Forall word ws -> lex (Join ws " ") = symbols ws.
Proof.
  induction 1 as [|w ws [Hne Hw] Hws IH]; [reflexivity|]. cbn [Join symbols].
  apply spaceless_lex in Hw.
  destruct ws as [|w' ws']; [assumption|].
  now rewrite lex_app, lex_blank, IH, Hw by reflexivity.
Qed.

Lemma symbols_ends (ws : list string) :
  Forall word ws -> ws <> [] ->
  (exists c l, symbols ws = By c :: l) /\ (exists l c, symbols ws = l ++ [By c]).
Proof.
  induction 1 as [|w ws [Hne Hw] Hws IH]; [contradiction|]. intros _.
  cbn [symbols].
  assert (Hfirst : exists c l, map By (list_ascii_of_string w) = By c :: l).
  { destruct w as [|c w]; [contradiction|]. cbn. eauto. }
  assert (Hlast : exists l c, map By (list_ascii_of_string w) = l ++ [By c]).
  { destruct (list_ascii_of_string w) as [|c0 bs] eqn:Hb using rev_ind.
    - destruct w; [contradiction | discriminate].
    - rewrite map_app. cbn. eauto. }
  destruct ws as [|w' ws']; [now split|].
  destruct IH as [_ (l & c & Hl)]; [discriminate|]. split.
  - destruct Hfirst as (c0 & l0 & ->). cbn. eauto.
  - rewrite Hl. exists (map By (list_ascii_of_string w) ++ Sp " " :: l), c.
    now rewrite <- app_assoc.
Qed.

(** Words joined by single spaces have no white space at their ends. *)
Lemma TrimSpace_Join (ws : list string) :
  Forall word ws -> TrimSpace (Join ws " ") = Join ws " ".
Proof.
  intros Hws. unfold TrimSpace. destruct ws as [|w ws]; [reflexivity|].
  rewrite lex_Join by assumption.
  destruct (symbols_ends (w :: ws) Hws) as [(c & l & Hf) (l' & c' & Hl)];
    [discriminate|].
  assert (H1 : drop_space (symbols (w :: ws)) = symbols (w :: ws))
    by now rewrite Hf.
  assert (H2 : drop_space (rev (symbols (w :: ws))) = rev (symbols (w :: ws)))
    by now rewrite Hl, rev_app_distr.
  rewrite H1, H2, rev_involutive.
  now rewrite <- lex_Join, unlex_lex.
Qed.

Lemma TrimSpace_empty (s : string) : TrimSpace s = "" -> Fields s = [].
Proof. intros H. now rewrite <- Fields_TrimSpace, H. Qed.

End TextFacts.

(** * Package [link] *)

Section LinkFacts.
Import GoText Html LinkPkg.

Lemma Node_forall (P : Node -> Prop) :
  (forall type data attr children,
      Forall P children -> P (mkNode type data attr children)) ->
  forall n, P n.
Proof.
  intros H. fix IH 1. intros [type data attr children]. apply H.
  induction children as [|c cs IHcs]; constructor; [apply IH | exact IHcs].
Qed.

Lemma write_text_fields (sb extracted : string) :
  Fields (write_text sb extracted) = Fields sb ++ Fields extracted.
Proof.
  unfold write_text. destruct (String.eqb_spec extracted "") as [->|Hne].
  - now rewrite Fields_nil, app_nil_r.
  - destruct sb as [|c sb]; [reflexivity|].
    cbn [String.length Nat.ltb Nat.leb]. rewrite append_assoc.
    apply Fields_blank.
Qed.

Lemma fold_write_text (f : Node -> string) (g : Node -> list string)
  (children : list Node) :
  Forall (fun c => Fields (f c) = g c) children ->
  forall sb,
    Fields (fold_left (fun sb c => write_text sb (f c)) children sb)
    = Fields sb ++ flat_map g children.
Proof.
  induction 1 as [|c cs Hc _ IH]; intros sb; cbn [fold_left flat_map].
  - now rewrite app_nil_r.
  - now rewrite IH, write_text_fields, Hc, app_assoc.
Qed.

(** The text of a node, split into fields, is the words of the text nodes
    below it, in the order of the document. *)
Theorem extractText_words (n : Html.Node) :
  Fields (extractText n) = node_words n.
Proof.
  induction n as [type data attr children IH] using Node_forall.
  destruct type; cbn [extractText node_words]; try reflexivity.
  - apply Fields_TrimSpace.
  - rewrite Fields_Join by apply Fields_words.
    now rewrite (fold_write_text extractText node_words).
Qed.

(** The text of an element is words joined by single spaces: it has no
    white space at its ends, and splitting it into fields and joining them
    again gives it back. *)
Theorem element_text_is_normalized (n : Html.Node) :
  Type_ n = ElementNode ->
  exists ws,
    Forall word ws /\ extractText n = Join ws " "
    /\ Fields (extractText n) = ws
    /\ TrimSpace (extractText n) = extractText n
    /\ Join (Fields (extractText n)) " " = extractText n.
Proof.
  destruct n as [type data attr children]. cbn [Type_]. intros ->.
  cbn [extractText].
  set (sb := fold_left (fun sb c => write_text sb (extractText c)) children "").
  exists (Fields sb). pose proof (Fields_words sb) as Hws.
  split; [assumption|]. split; [reflexivity|].
  split; [now apply Fields_Join|].
  split; [now apply TrimSpace_Join|]. now rewrite Fields_Join.
Qed.

Lemma append_elems {A : Type} (s : slice A) (xs : list A) :
  elems (append_ s xs) = elems s ++ xs.
Proof. destruct xs; [now rewrite app_nil_r | reflexivity]. Qed.

Lemma append_nil {A : Type} (s : slice A) (xs : list A) :
  append_ s xs = None <-> s = None /\ xs = [].
Proof.
  destruct xs; cbn; [tauto|]. split; [discriminate | intros [_ ?]; discriminate].
Qed.

Lemma append_proper {A : Type} (s : slice A) (xs : list A) :
  proper s -> proper (append_ s xs).
Proof.
  intros Hs. destruct xs as [|x xs]; [exact Hs|]. cbn. intros H.
  injection H as H. now destruct (elems s).
Qed.

Lemma proper_elems {A : Type} (s : slice A) :
  proper s -> s = match elems s with [] => None | _ :: _ => Some (elems s) end.
Proof.
  destruct s as [[|x l]|]; cbn; [intros H; now contradiction H | reflexivity..].
Qed.

Lemma linkNodes_anchors (n : Node) :
  proper (linkNodes n) /\ elems (linkNodes n) = anchors n.
Proof.
  induction n as [type data attr children IH] using Node_forall.
  cbn [linkNodes anchors].
  destruct (is_anchor (mkNode type data attr children)); [split; [discriminate | reflexivity]|].
  enough (H : forall nodes : slice Node, proper nodes ->
            proper (fold_left (fun nodes c => append_ nodes (elems (linkNodes c)))
                              children nodes)
            /\ elems (fold_left (fun nodes c => append_ nodes (elems (linkNodes c)))
                                children nodes)
               = elems nodes ++ flat_map anchors children).
  { apply (H None). discriminate. }
  induction IH as [|c cs [_ Hc] _ IHcs]; intros nodes Hn; cbn [fold_left flat_map].
  - split; [assumption | now rewrite app_nil_r].
  - destruct (IHcs (append_ nodes (elems (linkNodes c)))) as [H1 H2];
      [now apply append_proper|].
    split; [assumption|]. now rewrite H2, append_elems, Hc, app_assoc.
Qed.

Lemma links_of_anchors (doc : Node) :
  proper (links_of doc) /\ elems (links_of doc) = map buildLink (anchors doc).
Proof.
  unfold links_of. destruct (linkNodes_anchors doc) as [_ ->].
  enough (H : forall links : slice Link, proper links ->
            proper (fold_left (fun links node => append_ links [buildLink node])
                              (anchors doc) links)
            /\ elems (fold_left (fun links node => append_ links [buildLink node])
                                (anchors doc) links)
               = elems links ++ map buildLink (anchors doc)).
  { apply (H None). discriminate. }
  induction (anchors doc) as [|a l IH]; intros links Hl; cbn [fold_left map].
  - split; [assumption | now rewrite app_nil_r].
  - destruct (IH (append_ links [buildLink a])) as [H1 H2];
      [now apply append_proper|].
    split; [assumption|]. rewrite H2, append_elems, <- app_assoc. reflexivity.
Qed.

Lemma anchors_are_anchors (n : Node) : Forall (fun a => is_anchor a = true) (anchors n).
Proof.
  induction n as [type data attr children IH] using Node_forall.
  cbn [anchors].
  destruct (is_anchor (mkNode type data attr children)) eqn:Ha;
    [now repeat constructor|].
  clear Ha. induction IH as [|c cs Hc _ IHcs]; cbn [flat_map]; [constructor|].
  apply Forall_app. now split.
Qed.

(** [Parse] gives one link for each outermost [<a>] element, in the order
    of the document.  For a document without one it gives the nil slice,
    never an empty one: [reflect.DeepEqual] does not find it equal to the
    empty slice that [TestParse] expects. *)
Theorem Parse_links (doc : Html.Node) :
  elems (links_of doc) = map buildLink (anchors doc)
  /\ Forall (fun a => Type_ a = ElementNode /\ Data a = "a") (anchors doc)
  /\ links_of doc <> Some []
  /\ (links_of doc = None <-> anchors doc = [])
  /\ (anchors doc = [] -> DeepEqual (links_of doc) (Some []) = false).
Proof.
  destruct (links_of_anchors doc) as [Hp He].
  assert (Hnil : links_of doc = None <-> anchors doc = []).
  { rewrite (proper_elems _ Hp), He.
    destruct (anchors doc); cbn; split; congruence. }
  split; [assumption|]. split; [|split; [assumption|split; [assumption|]]].
  - eapply Forall_impl; [apply anchors_are_anchors|].
    intros a Ha. unfold is_anchor in Ha.
    destruct (Type_ a); try discriminate Ha.
    split; [reflexivity|]. now apply String.eqb_eq.
  - intros Ha. apply Hnil in Ha. now rewrite Ha.
Qed.

End LinkFacts.

(** * From the anchors of a page to the output *)

Section GetAndParseFacts.
Import GoText Html LinkPkg Fetch Pool.
Context {net : NetURL}.
Variable Reader : Type.
Variable http_Get : string -> option (Response Reader).
Variable html_Parse : Reader -> option Node.

Lemma found_links_inv (urlStr : string) (links : list Link) :
  found_links Reader http_Get html_Parse urlStr = Some links ->
  exists resp doc,
    http_Get urlStr = Some resp
    /\ 200 <= StatusCode resp < 300
    /\ HasPrefix (ToLower (ContentType resp)) "text/html" = true
    /\ html_Parse (Body resp) = Some doc
    /\ links = map buildLink (anchors doc).
Proof.
  unfold found_links, Fetch.getAndParseLinks, Parse. intros H.
  destruct (http_Get urlStr) as [resp|]; cbv beta iota in H;
    [|discriminate H].
  destruct ((StatusCode resp <? 200) || (StatusCode resp >=? 300)) eqn:Hcode;
    cbv beta iota in H; [discriminate H|].
  destruct (HasPrefix _ "text/html") eqn:Hct; cbn [negb] in H;
    cbv beta iota in H; [|discriminate H].
  destruct (html_Parse (Body resp)) as [doc|] eqn:Hdoc; cbv beta iota in H;
    [|discriminate H].
  injection H as <-. exists resp, doc.
  apply orb_false_iff in Hcode as [Hlo Hhi].
  split; [reflexivity|]. split; [lia|]. split; [assumption|].
  split; [assumption|]. apply links_of_anchors.
Qed.

(** The crawl on the web as [getAndParseLinks] sees it: every URL of the
    output but the first comes from the [href] of an outermost [<a>]
    element of a page that the output lists before it, that was answered
    with a status from 200 to 299 and a content type that starts with
    [text/html], whatever its case, and that [html.Parse] read. *)
Theorem listed_urls_come_from_anchors (startURL : string) (maxDepth : Z)
  (numWorkers : nat) (tr : list (action * label)) (st : state) :
  exec (crawl_config Reader http_Get html_Parse startURL maxDepth numWorkers)
       tr st ->
  forall pre u post,
    finalURLs (mem st) = pre ++ u :: post ->
    (pre = [] /\ u = startURL)
    \/ exists p resp doc a base,
         In p pre
         /\ http_Get p = Some resp
         /\ 200 <= StatusCode resp < 300
         /\ HasPrefix (ToLower (ContentType resp)) "text/html" = true
         /\ html_Parse (Body resp) = Some doc
         /\ In a (anchors doc)
         /\ getBaseURL p = Some base
         /\ u = resolveURL (Some base)
                           (mkLink (href_of (Attr a)) (extractText a))
         /\ isSameDomain startURL u = true.
Proof.
  intros Hex pre u post Hout.
  destruct (exec_linked _ _ _ Hex pre u post Hout)
    as [?|(p & base & links & l & Hp & Hget & Hbase & Hl & Hu & _ & Hsame & _)];
    [now left|]. right.
  cbn [getAndParseLinks crawl_config] in Hget.
  apply found_links_inv in Hget as (resp & doc & Hresp & Hcode & Hct & Hdoc & ->).
  apply in_map_iff in Hl as (a & <- & Ha).
  exists p, resp, doc, a, base. auto 10.
Qed.

End GetAndParseFacts.

(** * Scenarios, on [GoURL] *)

Section Scenarios.
Import Sites.

(** The pages within reach on the chain, with their distance. *)
Lemma chain_within (n : nat) (u : string) :
  @within GoURL.go chain_pool n u ->
  In (n, u) [(0%nat, "http://h/a"); (1%nat, "http://h/b");
             (2%nat, "http://h/c"); (3%nat, "http://h/d")].
Proof.
  induction 1 as [|n p links base l u _ IH Hget Hbase Hin Hex].
  - now left.
  - cbn [In] in IH.
    destruct IH as [IH|[IH|[IH|[IH|[]]]]]; inversion IH; subst; clear IH;
      vm_compute in Hget; injection Hget as <-;
      vm_compute in Hbase; injection Hbase as <-;
      cbn [In] in Hin; try contradiction;
      destruct Hin as [<-|[]];
      vm_compute in Hex; injection Hex as <-; cbn; tauto.
Qed.

(** C2, on the code.  At the depth ceiling the worker goes from the fetch
    straight to [tasks.Done()], so the links of the page are not looked at:
    every URL of the output other than the start URL is fewer than
    [maxDepth] links away from it.  On the chain A -> B -> C -> D crawled
    with [maxDepth = 2] the worker fetches B and meets the ceiling: C never
    enters the output, in any execution, and the crawl returns A and B.  The
    sequential revision, which tests the depth where it queues the link,
    returns A, B and C. *)
Theorem depth_ceiling_drops_links :
  (forall (net : NetURL) (cfg : config),
      (forall j, depth j + 1 >= maxDepth cfg -> snd (fetched cfg j) = WDone j)
      /\ (forall st, reachable cfg st ->
                     Forall (sound cfg) (finalURLs (mem st))))
  /\ (forall st, @reachable GoURL.go chain_pool st ->
                 ~ In "http://h/c" (finalURLs (mem st)))
  /\ (exists st,
        @final GoURL.go chain_pool chain_schedule = Some st
        /\ returned st = Some (["http://h/a"; "http://h/b"], None))
  /\ (exists st,
        @Seq.run GoURL.go chain_seq ["http://h/a"; "http://h/b"]
                 (Seq.init chain_seq) = Some st
        /\ Seq.returned st
           = Some (["http://h/a"; "http://h/b"; "http://h/c"], None)).
Proof.
  split; [|split; [|split]].
  - intros net cfg. split.
    + intros j Hd. destruct (fetched cfg j) as [ok w] eqn:Hf. cbn.
      apply fetched_cases in Hf as [[-> _]|(? & ? & _ & _ & _ & Hlt & _)];
        [reflexivity | lia].
    + intros st [tr Hex]. now apply exec_provenance in Hex as (? & _).
  - intros st [tr Hex] Hin.
    apply exec_provenance in Hex as (Hsound & _).
    rewrite Forall_forall in Hsound.
    destruct (Hsound "http://h/c") as (n & Hw & Hn);
      [now apply list_elem_of_In|].
    apply chain_within in Hw. cbn [In] in Hw.
    destruct Hw as [Hw|[Hw|[Hw|[Hw|[]]]]]; inversion Hw; subst; clear Hw.
    cbn in Hn. destruct Hn as [Hn|Hn]; [discriminate | lia].
  - eexists. split; vm_compute; reflexivity.
  - eexists. split; vm_compute; reflexivity.
Qed.

(** C4, on the code.  A crawl is deadlocked exactly where every worker
    stands at a send with the [jobs] buffer full.  One worker and a page
    with two links: the worker sends the first new job into the buffer of
    size one, counts the second and then stands at the send with the buffer
    full; it is the only receiver.  No goroutine can move, and
    [buildSitemap] does not return. *)
Theorem pool_blocks_on_full_channel :
  (forall (net : NetURL) (cfg : config) (st : state),
      reachable cfg st -> (deadlocked cfg st <-> blocked cfg st))
  /\ exists st,
       @final GoURL.go fork_pool fork_schedule = Some st
       /\ @deadlocked GoURL.go fork_pool st
       /\ blocked fork_pool st
       /\ Forall (fun w => exists j base abs rest, w = WSend j base abs rest)
                 (workers st)
       /\ length (jobs (mem st)) = numWorkers fork_pool
       /\ tasks (mem st) = 3.
Proof.
  split.
  { intros net cfg st Hreach. split.
    - intros [Hstuck Hret].
      destruct (stuck_cases cfg st Hreach Hstuck) as [[p Hp]|Hb];
        [congruence | assumption].
    - now apply blocked_is_deadlock. }
  eexists. split; [vm_compute; reflexivity|].
  split; [|split; [|split; [|split]]].
  - split; [|vm_compute; reflexivity].
    intros [| |[|i]]; vm_compute; reflexivity.
  - split; [discriminate|]. split; [|cbn; lia].
    constructor; [reflexivity | constructor].
  - constructor; [|constructor]. eexists _, _, _, _. reflexivity.
  - reflexivity.
  - reflexivity.
Qed.

(** Two workers, each at a send, and a full buffer. *)
Lemma two_workers_block_on_full_channel :
  exists st,
    @final GoURL.go fork2_pool fork2_schedule = Some st
    /\ @deadlocked GoURL.go fork2_pool st
    /\ blocked fork2_pool st
    /\ length (workers st) = 2%nat
    /\ length (jobs (mem st)) = 2%nat.
Proof.
  eexists. split; [vm_compute; reflexivity|]. split; [|split; [|split]].
  - split; [|vm_compute; reflexivity].
    intros [| |[|[|i]]]; vm_compute; reflexivity.
  - split; [discriminate|]. split; [|cbn; lia].
    repeat constructor.
  - reflexivity.
  - reflexivity.
Qed.

(** Under the scheduler that moves the first goroutine that can move, the
    one worker blocks all the same; the two workers, which block under
    [fork2_schedule], get through; and the chain is returned up to B. *)
Lemma driven_crawls :
  blocked fork_pool
    (@drive GoURL.go fork_pool (@crawl_bound GoURL.go fork_pool) (init fork_pool))
  /\ returned (@drive GoURL.go fork2_pool (@crawl_bound GoURL.go fork2_pool)
                      (init fork2_pool))
     = Some (["http://h/"; "http://h/a"; "http://h/b"; "http://h/c";
              "http://h/f"; "http://h/d"; "http://h/e"], None)
  /\ returned (@drive GoURL.go chain_pool (@crawl_bound GoURL.go chain_pool)
                      (init chain_pool))
     = Some (["http://h/a"; "http://h/b"], None).
Proof.
  split; [|split].
  - split; [vm_compute; discriminate|]. split; [|vm_compute; lia].
    vm_compute. repeat constructor.
  - vm_compute. reflexivity.
  - vm_compute. reflexivity.
Qed.

(** The start URL [:] does not parse; the crawl runs all the same and
    returns it with a nil error. *)
Lemma unparsable_start_url_is_returned :
  GoURL.Parse ":" = None
  /\ exists st,
       @final GoURL.go colon_pool colon_schedule = Some st
       /\ returned st = Some ([":"], None).
Proof. split; [reflexivity|]. eexists. split; vm_compute; reflexivity. Qed.

(** The page [http://h/a.css] is the start URL and links to itself: the
    resolved link has an ignored extension, and it is the first job and in
    the output. *)
Lemma start_url_with_ignored_extension :
  @resolveURL GoURL.go (GoURL.Parse "http://h/a.css") (mkLink "a.css" "")
  = "http://h/a.css"
  /\ @ignoredExt GoURL.go "http://h/a.css" = true
  /\ (exists st,
        @final GoURL.go sheet_pool [ASeed] = Some st
        /\ jobs (mem st) = [mkJob "http://h/a.css" 0])
  /\ (exists st,
        @final GoURL.go sheet_pool sheet_schedule = Some st
        /\ returned st = Some (["http://h/a.css"], None)).
Proof.
  split; [reflexivity|]. split; [reflexivity|].
  split; eexists; split; vm_compute; reflexivity.
Qed.

(** C8, as amended: a worker skips every link whose resolved URL has an
    ignored extension, so no URL of the output and no job has one, the
    start URL apart, which is never tested.  A page that links to
    [style.css] and [/about], crawled with [maxDepth = 3], gives [/about]
    in the output and not [style.css]. *)
Theorem ignored_extension_not_crawled :
  (forall (net : NetURL) (cfg : config) (st : state),
      reachable cfg st ->
      (forall u, In u (finalURLs (mem st)) -> u <> startURL cfg ->
                 ignoredExt u = false)
      /\ (forall j, In j (jobs_of st) -> url j <> startURL cfg ->
                    ignoredExt (url j) = false)
      /\ (forall i j base l rest,
            workers st !! i = Some (WLoop j base (l :: rest)) ->
            resolveURL (Some base) l <> "" ->
            ignoredExt (resolveURL (Some base) l) = true ->
            step cfg (AWorker i) st
            = Some (LSkipExt l,
                    mkState (mem st) (seeded st) (closer st)
                            (<[i := WLoop j base rest]> (workers st)))))
  /\ (@resolveURL GoURL.go (GoURL.Parse "http://h/") (mkLink "style.css" "")
      = "http://h/style.css"
      /\ @ignoredExt GoURL.go "http://h/style.css" = true
      /\ exists st,
           @final GoURL.go styled_pool styled_schedule = Some st
           /\ returned st = Some (["http://h/"; "http://h/about"], None)).
Proof.
  split.
  - intros net cfg st. apply ignored_extension_skipped.
  - split; [reflexivity|]. split; [reflexivity|].
    eexists. split; vm_compute; reflexivity.
Qed.

End Scenarios.

(** * Witnesses *)

Section Witnesses.
Import Sites.

Lemma worker_completes_job_once_witness :
  exists tr st,
    @run GoURL.go styled_pool styled_schedule (init styled_pool) = Some (tr, st)
    /\ exists segs cur,
        calls_of 0 tr = concat segs ++ cur
        /\ Forall (segment styled_pool) segs
        /\ (cur = [] \/ cur = [LRangeEnd]).
Proof.
  eexists _, _. split; [vm_compute; reflexivity|].
  refine (@worker_completes_job_once GoURL.go styled_pool _ _ 0%nat WExit _ _).
  - apply (@run_exec GoURL.go styled_pool styled_schedule [] (init styled_pool));
      [constructor | vm_compute; reflexivity].
  - vm_compute. reflexivity.
Defined.

Lemma output_has_no_duplicates_witness :
  exists tr st,
    @run GoURL.go styled_pool styled_schedule (init styled_pool) = Some (tr, st)
    /\ NoDup (finalURLs (mem st)).
Proof.
  eexists _, _. split; [vm_compute; reflexivity|].
  refine (proj1 (@output_has_no_duplicates GoURL.go styled_pool _ _ _)).
  apply (@run_exec GoURL.go styled_pool styled_schedule [] (init styled_pool));
    [constructor | vm_compute; reflexivity].
Defined.

Lemma start_url_heads_output_witness :
  exists st,
    @final GoURL.go styled_pool styled_schedule = Some st
    /\ exists rest, finalURLs (mem st) = "http://h/" :: rest.
Proof.
  eexists. split; [vm_compute; reflexivity|].
  refine (proj1 (proj2 (@start_url_heads_output GoURL.go styled_pool _ _))).
  apply (@final_reachable GoURL.go styled_pool styled_schedule). vm_compute. reflexivity.
Defined.

Lemma crawl_returns_no_error_witness :
  returned (@drive GoURL.go colon_pool (@crawl_bound GoURL.go colon_pool)
                   (init colon_pool))
  = Some ([":"], None).
Proof.
  refine (proj2 (proj2 (proj2 (proj2 (proj2
            (@crawl_returns_no_error GoURL.go colon_pool [] (init colon_pool)
               _))))) _).
  - apply exec_init.
  - vm_compute. reflexivity.
Defined.

Lemma ignored_extension_not_crawled_witness :
  exists st,
    @final GoURL.go styled_pool styled_schedule = Some st
    /\ forall u, In u (finalURLs (mem st)) -> u <> "http://h/" ->
                 @ignoredExt GoURL.go u = false.
Proof.
  eexists. split; [vm_compute; reflexivity|].
  refine (proj1 (proj1 ignored_extension_not_crawled GoURL.go styled_pool _ _)).
  apply (@final_reachable GoURL.go styled_pool styled_schedule). vm_compute. reflexivity.
Defined.

Lemma failed_fetch_is_absorbed_witness :
  exists st,
    @final GoURL.go broken_pool broken_schedule = Some st
    /\ workers st !! 0%nat = Some (WFetch (mkJob "http://h/down" 1))
    /\ In "http://h/down" (finalURLs (mem st)).
Proof.
  eexists. split; [vm_compute; reflexivity|]. split; [reflexivity|].
  refine (proj1 (@failed_fetch_is_absorbed GoURL.go broken_pool _ 0%nat
                   (mkJob "http://h/down" 1) _ _ _)).
  - apply (@final_reachable GoURL.go broken_pool broken_schedule).
    vm_compute. reflexivity.
  - reflexivity.
  - reflexivity.
Defined.

End Witnesses.

(** * Witnesses of the facts about the whole program *)

Section ProgramWitnesses.
Import Sites Samples.

(** The complete crawl of the styled site, by two workers. *)
Lemma styled_run :
  exists tr st,
    @run GoURL.go styled_pool styled_schedule (init styled_pool) = Some (tr, st)
    /\ @exec GoURL.go styled_pool tr st
    /\ returned st = Some (["http://h/"; "http://h/about"], None).
Proof.
  destruct (@run GoURL.go styled_pool styled_schedule (init styled_pool))
    as [[tr st]|] eqn:Hrun; [|vm_compute in Hrun; discriminate Hrun].
  exists tr, st. split; [reflexivity|]. split.
  - apply (@run_exec GoURL.go styled_pool styled_schedule [] (init styled_pool));
      [constructor | exact Hrun].
  - vm_compute in Hrun. injection Hrun as _ <-. reflexivity.
Defined.

(** Two rounds of the sequential loop on the chain. *)
Lemma chain_rounds :
  exists st,
    @Seq.run GoURL.go chain_seq ["http://h/a"; "http://h/b"] (Seq.init chain_seq)
    = Some st
    /\ Seq.finalURLs st = ["http://h/a"; "http://h/b"; "http://h/c"].
Proof.
  destruct (@Seq.run GoURL.go chain_seq ["http://h/a"; "http://h/b"]
              (Seq.init chain_seq)) as [st|] eqn:Hrun;
    [|vm_compute in Hrun; discriminate Hrun].
  exists st. split; [reflexivity|].
  vm_compute in Hrun. injection Hrun as <-. reflexivity.
Defined.

Lemma crawl_never_panics_witness :
  exists tr st,
    @run GoURL.go styled_pool styled_schedule (init styled_pool) = Some (tr, st)
    /\ panicked (mem st) = false.
Proof.
  destruct styled_run as (tr & st & Hrun & Hex & _).
  exists tr, st. split; [exact Hrun|].
  exact (proj1 (@crawl_never_panics GoURL.go styled_pool tr st Hex)).
Defined.

Lemma job_url_is_listed_first_witness :
  exists tr st,
    @run GoURL.go styled_pool styled_schedule (init styled_pool) = Some (tr, st)
    /\ forall u, u ∈ visited (mem st) <-> In u ["http://h/"; "http://h/about"].
Proof.
  destruct styled_run as (tr & st & Hrun & Hex & Hret).
  exists tr, st. split; [exact Hrun|].
  exact (proj2 (proj2 (proj2
           (@job_url_is_listed_first GoURL.go styled_pool tr st Hex)))
           _ _ Hret).
Defined.

Lemma output_urls_are_linked_witness :
  exists tr st,
    @run GoURL.go styled_pool styled_schedule (init styled_pool) = Some (tr, st)
    /\ finalURLs (mem st) = ["http://h/"] ++ "http://h/about" :: []
    /\ exists p base foundLinks l,
         In p ["http://h/"]
         /\ getAndParseLinks styled_pool p = Some foundLinks
         /\ @getBaseURL GoURL.go p = Some base
         /\ In l foundLinks
         /\ "http://h/about" = @resolveURL GoURL.go (Some base) l
         /\ "http://h/about" <> ""
         /\ @isSameDomain GoURL.go (startURL styled_pool) "http://h/about" = true
         /\ @ignoredExt GoURL.go "http://h/about" = false.
Proof.
  destruct styled_run as (tr & st & Hrun & Hex & Hret).
  assert (Hout : finalURLs (mem st) = ["http://h/"] ++ "http://h/about" :: []).
  { symmetry. exact (proj1 (returned_output _ _ _ Hret)). }
  exists tr, st. split; [exact Hrun|]. split; [exact Hout|].
  refine (proj2 (proj2 (proj2
    (@output_urls_are_linked GoURL.go styled_pool tr st Hex
       ["http://h/"] "http://h/about" [] Hout))) _).
  discriminate.
Defined.

Lemma no_worker_no_crawl_witness :
  numWorkers idle_pool = 0%nat
  /\ returned (init idle_pool) = Some (["http://h/"], None)
  /\ @step GoURL.go idle_pool ASeed (init idle_pool) = None.
Proof.
  split; [reflexivity|].
  pose proof (@no_worker_no_crawl GoURL.go idle_pool (init idle_pool) eq_refl
                (ex_intro _ [] (exec_init idle_pool))) as (_ & Hret & Hstep).
  split; [exact Hret | exact (Hstep ASeed)].
Defined.

Lemma shallow_crawl_lists_start_only_witness :
  maxDepth shallow_pool <= 1
  /\ returned (@drive GoURL.go shallow_pool
                 (@potential GoURL.go shallow_pool (init shallow_pool))
                 (init shallow_pool))
     = Some (["http://h/"], None).
Proof.
  assert (Hmax : maxDepth shallow_pool <= 1) by (vm_compute; discriminate).
  split; [exact Hmax|].
  exact (proj2 (proj2 (proj2
    (@shallow_crawl_lists_start_only GoURL.go shallow_pool [] (init shallow_pool)
       Hmax (exec_init shallow_pool))))).
Defined.


Lemma listed_pages_are_fetched_once_witness :
  exists tr st,
    @run GoURL.go styled_pool styled_schedule (init styled_pool) = Some (tr, st)
    /\ fetches tr ≡ₚ ["http://h/"; "http://h/about"].
Proof.
  destruct styled_run as (tr & st & Hrun & Hex & Hret).
  exists tr, st. split; [exact Hrun|].
  refine (proj2 (proj2 (proj2
    (@listed_pages_are_fetched_once GoURL.go styled_pool tr st Hex)))
    _ _ Hret _).
  vm_compute. lia.
Defined.

Lemma seq_loop_invariants_witness :
  exists st,
    @Seq.run GoURL.go chain_seq ["http://h/a"; "http://h/b"] (Seq.init chain_seq)
    = Some st
    /\ forall u d, Seq.queue st !! u = Some d ->
                   In u (Seq.finalURLs st)
                   /\ 0 <= d < Z.max 1 (Seq.maxDepth chain_seq).
Proof.
  destruct chain_rounds as (st & Hrun & _).
  exists st. split; [exact Hrun|].
  exact (proj1 (proj2 (proj2 (proj2
           (@seq_loop_invariants GoURL.go chain_seq _ st Hrun))))).
Defined.

Lemma seq_loop_terminates_witness :
  exists st,
    @Seq.run GoURL.go chain_seq ["http://h/a"; "http://h/b"] (Seq.init chain_seq)
    = Some st
    /\ (2 + @SeqLoop.potential GoURL.go chain_seq st
        <= @SeqLoop.bound GoURL.go chain_seq)%nat.
Proof.
  destruct chain_rounds as (st & Hrun & _).
  exists st. split; [exact Hrun|].
  exact (proj1 (@seq_loop_terminates GoURL.go chain_seq _ st Hrun)).
Defined.

Lemma seq_output_is_what_pages_link_witness :
  exists st,
    @Seq.run GoURL.go chain_seq ["http://h/a"; "http://h/b"] (Seq.init chain_seq)
    = Some st
    /\ 0 < Seq.maxDepth chain_seq
    /\ (In "http://h/c" (Seq.finalURLs st) <->
        "http://h/c" = Seq.startURL chain_seq
        \/ exists p, In p ["http://h/a"; "http://h/b"]
                     /\ @SeqLoop.found GoURL.go chain_seq p "http://h/c").
Proof.
  destruct chain_rounds as (st & Hrun & _).
  exists st. split; [exact Hrun|].
  assert (Hpos : 0 < Seq.maxDepth chain_seq) by (vm_compute; reflexivity).
  split; [exact Hpos|].
  exact (proj1 (proj2 (proj2
           (@seq_output_is_what_pages_link GoURL.go chain_seq _ st Hrun)))
           Hpos "http://h/c").
Defined.

Lemma sitemap_of_crawl_witness :
  exists tr st,
    @run GoURL.go styled_pool styled_schedule (init styled_pool) = Some (tr, st)
    /\ returned st = Some (["http://h/"; "http://h/about"], None)
    /\ Sitemap.generateXMLSitemap GoRequestURI.ParseRequestURI marshal
         ["http://h/"; "http://h/about"]
       = SeqSitemap.generateXMLSitemap marshal
           (Sitemap.accepted GoRequestURI.ParseRequestURI
              ["http://h/"; "http://h/about"]).
Proof.
  destruct styled_run as (tr & st & Hrun & Hex & Hret).
  exists tr, st. split; [exact Hrun|]. split; [exact Hret|].
  exact (proj1 (proj2
    (@sitemap_of_crawl GoURL.go styled_pool GoRequestURI.ParseRequestURI marshal
       tr st _ _ Hex Hret))).
Defined.

Lemma element_text_is_normalized_witness :
  Html.Type_ about_anchor = Html.ElementNode
  /\ exists ws,
       Forall GoText.word ws
       /\ LinkPkg.extractText about_anchor = GoText.Join ws " "
       /\ GoText.Fields (LinkPkg.extractText about_anchor) = ws
       /\ GoText.TrimSpace (LinkPkg.extractText about_anchor)
          = LinkPkg.extractText about_anchor
       /\ GoText.Join (GoText.Fields (LinkPkg.extractText about_anchor)) " "
          = LinkPkg.extractText about_anchor.
Proof.
  split; [reflexivity|].
  exact (element_text_is_normalized about_anchor eq_refl).
Defined.

Lemma listed_urls_come_from_anchors_witness :
  exists tr st,
    @run GoURL.go web_pool web_schedule (init web_pool) = Some (tr, st)
    /\ finalURLs (mem st) = ["http://h/"] ++ "http://h/about" :: []
    /\ ((["http://h/"] = [] /\ "http://h/about" = "http://h/")
        \/ exists p resp doc a base,
             In p ["http://h/"]
             /\ web p = Some resp
             /\ 200 <= Fetch.StatusCode resp < 300
             /\ HasPrefix (ToLower (Fetch.ContentType resp)) "text/html" = true
             /\ Some (Fetch.Body resp) = Some doc
             /\ In a (LinkPkg.anchors doc)
             /\ @getBaseURL GoURL.go p = Some base
             /\ "http://h/about"
                = @resolveURL GoURL.go (Some base)
                    (mkLink (LinkPkg.href_of (Html.Attr a))
                            (LinkPkg.extractText a))
             /\ @isSameDomain GoURL.go "http://h/" "http://h/about" = true).
Proof.
  destruct (@run GoURL.go web_pool web_schedule (init web_pool))
    as [[tr st]|] eqn:Hrun; [|vm_compute in Hrun; discriminate Hrun].
  assert (Hex : @exec GoURL.go web_pool tr st).
  { apply (@run_exec GoURL.go web_pool web_schedule [] (init web_pool));
      [constructor | exact Hrun]. }
  assert (Hout : finalURLs (mem st) = ["http://h/"] ++ "http://h/about" :: []).
  { vm_compute in Hrun. injection Hrun as _ <-. reflexivity. }
  exists tr, st. split; [reflexivity|]. split; [exact Hout|].
  exact (@listed_urls_come_from_anchors GoURL.go Html.Node web Some
           "http://h/" 3 1 tr st Hex ["http://h/"] "http://h/about" [] Hout).
Defined.

(** The ten workers of the first pool on the fan, each at a send. *)
Lemma fan_run :
  exists tr st,
    @Unbuffered.run GoURL.go fan_first fan_schedule (Unbuffered.init fan_first)
    = Some (tr, st)
    /\ @Unbuffered.exec GoURL.go fan_first tr st
    /\ forallb Unbuffered.is_send (Unbuffered.workers st) = true.
Proof.
  destruct (@Unbuffered.run GoURL.go fan_first fan_schedule
              (Unbuffered.init fan_first)) as [[tr st]|] eqn:Hrun;
    [|vm_compute in Hrun; discriminate Hrun].
  exists tr, st. split; [reflexivity|]. split.
  - apply (@u_run_exec GoURL.go fan_first fan_schedule []
             (Unbuffered.init fan_first)); [constructor | exact Hrun].
  - vm_compute in Hrun. injection Hrun as _ <-. reflexivity.
Defined.

(** The first pool on the chain with a depth of zero, to its end. *)
Lemma flat_run :
  exists tr st,
    @Unbuffered.run GoURL.go flat_first flat_schedule
      (Unbuffered.init flat_first) = Some (tr, st)
    /\ @Unbuffered.exec GoURL.go flat_first tr st
    /\ Unbuffered.returned st = Some (["http://h/a"], None).
Proof.
  destruct (@Unbuffered.run GoURL.go flat_first flat_schedule
              (Unbuffered.init flat_first)) as [[tr st]|] eqn:Hrun;
    [|vm_compute in Hrun; discriminate Hrun].
  exists tr, st. split; [reflexivity|]. split.
  - apply (@u_run_exec GoURL.go flat_first flat_schedule []
             (Unbuffered.init flat_first)); [constructor | exact Hrun].
  - vm_compute in Hrun. injection Hrun as _ <-. reflexivity.
Defined.

Lemma first_pool_is_safe_witness :
  exists tr st,
    @Unbuffered.run GoURL.go fan_first fan_schedule (Unbuffered.init fan_first)
    = Some (tr, st)
    /\ NoDup (Unbuffered.finalURLs (Unbuffered.mem st))
    /\ Unbuffered.panicked (Unbuffered.mem st) = false.
Proof.
  destruct fan_run as (tr & st & Hrun & Hex & _).
  exists tr, st. split; [exact Hrun|].
  pose proof (@first_pool_is_safe GoURL.go fan_first tr st Hex)
    as (Hnd & _ & _ & _ & Hp & _).
  split; [exact Hnd | exact Hp].
Defined.

Lemma first_pool_tests_depth_first_witness :
  exists tr st,
    @Unbuffered.run GoURL.go flat_first flat_schedule
      (Unbuffered.init flat_first) = Some (tr, st)
    /\ Unbuffered.returned st = Some (["http://h/a"], None)
    /\ Unbuffered.fetches tr = []
    /\ Unbuffered.finalURLs (Unbuffered.mem st) = [Seq.startURL flat_first].
Proof.
  destruct flat_run as (tr & st & Hrun & Hex & Hret).
  exists tr, st. split; [exact Hrun|]. split; [exact Hret|].
  refine (proj2 (@first_pool_tests_depth_first GoURL.go flat_first tr st Hex) _).
  vm_compute. discriminate.
Defined.

Lemma first_pool_deadlock_witness :
  exists tr st,
    @Unbuffered.run GoURL.go fan_first fan_schedule (Unbuffered.init fan_first)
    = Some (tr, st)
    /\ @Unbuffered.deadlocked GoURL.go fan_first st.
Proof.
  destruct fan_run as (tr & st & Hrun & Hex & Hsend).
  exists tr, st. split; [exact Hrun|].
  refine (proj2 (@first_pool_deadlock GoURL.go fan_first st
                   (ex_intro _ tr Hex)) _).
  apply Forall_forall. intros w Hw.
  exact (proj1 (forallb_forall _ _) Hsend w (proj1 (list_elem_of_In _ _) Hw)).
Defined.

Lemma first_pool_terminates_witness :
  exists tr st,
    @Unbuffered.run GoURL.go fan_first fan_schedule (Unbuffered.init fan_first)
    = Some (tr, st)
    /\ (length tr + @Unbuffered.potential GoURL.go fan_first st
        <= @Unbuffered.crawl_bound GoURL.go fan_first)%nat.
Proof.
  destruct fan_run as (tr & st & Hrun & Hex & _).
  exists tr, st. split; [exact Hrun|].
  exact (proj1 (@first_pool_terminates GoURL.go fan_first tr st Hex)).
Defined.

End ProgramWitnesses.
